(** * SortingVisualizer: the six sort engines and the playback of their move logs

    Shallow embedding of [src/components/SortingVisualizer.js].

    - A JavaScript array of numbers is a [list A], indexed by [Z] (the source
      computes indices such as [low - 1] and [pivotIndex - 1], which reach -1).
    - The entries are numbers drawn by [Math.random()], finite doubles in
      [0,1).  The engines only compare them with [<] and [>] and move them
      around, so the entry type is any type with a strict weak order
      ([Number]); rationals [Q] are the instance used on concrete arrays, and
      a rational paired with an origin tag is the one used to observe
      stability.
    - The engines mutate their array and push onto a shared [moves] array;
      here both are threaded explicitly. *)

From Stdlib Require Import ZArith QArith Lia.
From stdpp Require Import base tactics option list sorting strings.

Local Open Scope Z_scope.

(** Split the conjunctions that are written in the goal, without unfolding
    definitions. *)
Ltac split_conj := repeat match goal with |- _ ∧ _ => split end.

(** ** Numbers *)

(** [less x y] is the JavaScript comparison [x < y]; [x > y] is [less y x].
    On numbers other than NaN it is a strict weak order. *)
Class Number (A : Type) := {
  less : A → A → bool;
  less_irrefl : ∀ x, less x x = false;
  less_trans : ∀ x y z, less x y = true → less y z = true → less x z = true;
  less_negtrans : ∀ x y z, less y x = false → less z y = false → less z x = false
}.

(** [leq x y]: [x] is not greater than [y]. *)
Definition leq `{Number A} (x y : A) : Prop := less y x = false.

(** [equiv_val x y]: [x] and [y] hold the same value. *)
Definition equiv_val `{Number A} (x y : A) : Prop := leq x y ∧ leq y x.

(** A value read from an array cell: [None] is JavaScript's [undefined], what
    a read outside the array gives.  [undefined] compared with anything is
    false. *)
Definition lessO `{Number A} (x y : option A) : bool :=
  match x, y with
  | Some u, Some v => less u v
  | _, _ => false
  end.

(** ** Arrays *)

Section Arrays.
Context {A : Type}.

Definition len (a : list A) : Z := Z.of_nat (length a).

(** [array[i]] *)
Definition get (a : list A) (i : Z) : option A :=
  if decide (0 ≤ i) then a !! Z.to_nat i else None.

(** [array[i] = v].  A JavaScript write at or past [array.length] grows the
    array and a write at a negative index adds a property; no engine and no
    replay of an engine's log does either (see the bounds theorems), and
    here such a write leaves the list as it is. *)
Definition set (a : list A) (i : Z) (v : A) : list A :=
  if decide (0 ≤ i < len a) then <[Z.to_nat i := v]> a else a.

(** [[array[i], array[j]] = [array[j], array[i]]]: both reads, then the
    write at [i], then the write at [j]. *)
Definition swap (a : list A) (i j : Z) : list A :=
  match get a i, get a j with
  | Some x, Some y => set (set a i y) j x
  | _, _ => a
  end.

(** [array.slice(lo, hi)] for [0 ≤ lo]. *)
Definition slice (a : list A) (lo hi : Z) : list A :=
  take (Z.to_nat (hi - lo)) (drop (Z.to_nat lo) a).
End Arrays.

(** ** Moves *)

(** [{ indices: [i, j], type: "swap" }] and
    [{ indices: [i], type: "overwrite", value }]. *)
Inductive move (A : Type) : Type :=
  | Swap (i j : Z)
  | Overwrite (i : Z) (value : A).
Arguments Swap {A} i j.
Arguments Overwrite {A} i value.

Section Replay.
Context {A : Type}.

(** One step of [animate] on the array: the mutation a move stands for. *)
Definition apply_move (a : list A) (m : move A) : list A :=
  match m with
  | Swap i j => swap a i j
  | Overwrite i v => set a i v
  end.

(** Replaying a log in log order. *)
Definition replay (log : list (move A)) (a : list A) : list A :=
  foldl apply_move a log.

Definition move_indices (m : move A) : list Z :=
  match m with
  | Swap i j => [i; j]
  | Overwrite i _ => [i]
  end.

Definition is_swap (m : move A) : bool :=
  match m with Swap _ _ => true | Overwrite _ _ => false end.

Definition is_overwrite (m : move A) : bool :=
  match m with Swap _ _ => false | Overwrite _ _ => true end.

Definition count_swaps (log : list (move A)) : nat := length (filter is_swap log).
Definition count_overwrites (log : list (move A)) : nat :=
  length (filter is_overwrite log).

(** Every index of the move is an index of an array of length [n]. *)
Definition move_in_bounds (n : Z) (m : move A) : Prop :=
  Forall (λ i, 0 ≤ i < n) (move_indices m).
End Replay.

(** ** The sort engines *)

Section Engines.
Context `{Number A}.

(** *** bubbleSort *)

(** The [for] loop of one pass, [i] running from its current value for [k]
    more iterations. *)
Fixpoint bubble_for (k : nat) (i : Z) (array : list A) (moves : list (move A))
    (swapped : bool) : list A * list (move A) * bool :=
  match k with
  | O => (array, moves, swapped)
  | S k' =>
      if lessO (get array i) (get array (i - 1))
      then bubble_for k' (i + 1) (swap array (i - 1) i)
             (moves ++ [Swap (i - 1) i]) true
      else bubble_for k' (i + 1) array moves swapped
  end.

(** One pass of the [do] body: [swapped = false], then the [for] loop over
    [i = 1 .. array.length - 1]. *)
Definition bubble_pass (array : list A) (moves : list (move A)) :
    list A * list (move A) * bool :=
  bubble_for (Z.to_nat (len array - 1)) 1 array moves false.

(** The [do ... while (swapped)] loop; [None] when [fuel] passes did not
    reach a pass without swaps. *)
Fixpoint bubble_loop (fuel : nat) (array : list A) (moves : list (move A)) :
    option (list A * list (move A)) :=
  match fuel with
  | O => None
  | S fuel' =>
      let '(array', moves', swapped) := bubble_pass array moves in
      if swapped then bubble_loop fuel' array' moves' else Some (array', moves')
  end.

(** [bubbleSort]: the log after the loop. *)
Definition bubbleSort (fuel : nat) (array : list A) : option (list (move A)) :=
  snd <$> bubble_loop fuel array [].

(** *** insertionSort *)

(** The [while (j >= 0 && array[j] > key)] loop; [k] counts the iterations
    still possible, [j + 1] of them. *)
Fixpoint insertion_while (k : nat) (j : Z) (key : A) (array : list A)
    (moves : list (move A)) : Z * list A * list (move A) :=
  match k with
  | O => (j, array, moves)
  | S k' =>
      match get array j with
      | Some x =>
          if bool_decide (0 ≤ j) && less key x
          then insertion_while k' (j - 1) key (set array (j + 1) x)
                 (moves ++ [Swap (j + 1) j])
          else (j, array, moves)
      | None => (j, array, moves)
      end
  end.

(** The [for (let i = 1; i < array.length; i++)] loop; [i] is inside the
    array, so [key = array[i]] is a value. *)
Fixpoint insertion_for (k : nat) (i : Z) (array : list A) (moves : list (move A)) :
    list A * list (move A) :=
  match k with
  | O => (array, moves)
  | S k' =>
      match get array i with
      | Some key =>
          let '(j, array1, moves1) :=
            insertion_while (Z.to_nat i) (i - 1) key array moves in
          insertion_for k' (i + 1) (set array1 (j + 1) key)
            (moves1 ++ [Overwrite (j + 1) key])
      | None => (array, moves)
      end
  end.

Definition insertionSort (array : list A) : list (move A) :=
  snd (insertion_for (Z.to_nat (len array - 1)) 1 array []).

(** *** selectionSort *)

(** The inner [for (let j = i + 1; j < array.length; j++)] scan. *)
Fixpoint selection_scan (k : nat) (j : Z) (array : list A) (minIndex : Z) : Z :=
  match k with
  | O => minIndex
  | S k' =>
      selection_scan k' (j + 1) array
        (if lessO (get array j) (get array minIndex) then j else minIndex)
  end.

(** The outer [for (let i = 0; i < array.length - 1; i++)] loop. *)
Fixpoint selection_for (k : nat) (i : Z) (array : list A) (moves : list (move A)) :
    list A * list (move A) :=
  match k with
  | O => (array, moves)
  | S k' =>
      let minIndex := selection_scan (Z.to_nat (len array - (i + 1))) (i + 1) array i in
      if decide (minIndex ≠ i)
      then selection_for k' (i + 1) (swap array i minIndex) (moves ++ [Swap i minIndex])
      else selection_for k' (i + 1) array moves
  end.

Definition selectionSort (array : list A) : list (move A) :=
  snd (selection_for (Z.to_nat (len array - 1)) 0 array []).

(** *** heapSort *)

(** The choice of [largest] in [heapify]. *)
Definition heapify_largest (array : list A) (i max : Z) : Z :=
  let largest := i in
  let left := 2 * i + 1 in
  let right := 2 * i + 2 in
  let largest :=
    if bool_decide (left < max) && lessO (get array largest) (get array left)
    then left else largest in
  let largest :=
    if bool_decide (right < max) && lessO (get array largest) (get array right)
    then right else largest in
  largest.

(** [heapify]; [None] when the recursion is deeper than [fuel]. *)
Fixpoint heapify (fuel : nat) (array : list A) (i max : Z) (moves : list (move A)) :
    option (list A * list (move A)) :=
  match fuel with
  | O => None
  | S fuel' =>
      let largest := heapify_largest array i max in
      if decide (largest ≠ i)
      then heapify fuel' (swap array i largest) largest max (moves ++ [Swap i largest])
      else Some (array, moves)
  end.

(** The [for] loop of [buildMaxHeap], [i] running down to 0; [k] counts
    the iterations left, [i + 1] of them. *)
Fixpoint buildMaxHeap_for (fuel : nat) (k : nat) (i : Z) (array : list A)
    (moves : list (move A)) : option (list A * list (move A)) :=
  match k with
  | O => Some (array, moves)
  | S k' =>
      '(array', moves') ← heapify fuel array i (len array) moves;
      buildMaxHeap_for fuel k' (i - 1) array' moves'
  end.

Definition buildMaxHeap (fuel : nat) (array : list A) (moves : list (move A)) :
    option (list A * list (move A)) :=
  let i := len array / 2 - 1 in
  buildMaxHeap_for fuel (Z.to_nat (i + 1)) i array moves.

(** The [for (let end = array.length - 1; end > 0; end--)] loop. *)
Fixpoint heapSort_for (fuel : nat) (k : nat) (end_ : Z) (array : list A)
    (moves : list (move A)) : option (list A * list (move A)) :=
  match k with
  | O => Some (array, moves)
  | S k' =>
      '(array', moves') ←
        heapify fuel (swap array 0 end_) 0 end_ (moves ++ [Swap 0 end_]);
      heapSort_for fuel k' (end_ - 1) array' moves'
  end.

Definition heapSort (fuel : nat) (array : list A) : option (list (move A)) :=
  '(array1, moves1) ← buildMaxHeap fuel array [];
  let end_ := len array1 - 1 in
  snd <$> heapSort_for fuel (Z.to_nat end_) end_ array1 moves1.

(** *** quickSort *)

(** The [for (let j = low; j < high; j++)] loop of [partition]. *)
Fixpoint partition_for (k : nat) (j : Z) (pivot : option A) (i : Z)
    (array : list A) (moves : list (move A)) : Z * list A * list (move A) :=
  match k with
  | O => (i, array, moves)
  | S k' =>
      if lessO (get array j) pivot
      then partition_for k' (j + 1) pivot (i + 1) (swap array (i + 1) j)
             (moves ++ [Swap (i + 1) j])
      else partition_for k' (j + 1) pivot i array moves
  end.

(** [partition]: the pivot index, the array and the log. *)
Definition partition (array : list A) (low high : Z) (moves : list (move A)) :
    Z * list A * list (move A) :=
  let pivot := get array high in
  let '(i, array1, moves1) :=
    partition_for (Z.to_nat (high - low)) low pivot (low - 1) array moves in
  (i + 1, swap array1 (i + 1) high, moves1 ++ [Swap (i + 1) high]).

(** [quickSortHelper]; [None] when the recursion is deeper than [fuel]. *)
Fixpoint quickSortHelper (fuel : nat) (array : list A) (low high : Z)
    (moves : list (move A)) : option (list A * list (move A)) :=
  match fuel with
  | O => None
  | S fuel' =>
      if decide (low < high)
      then
        let '(pivotIndex, array1, moves1) := partition array low high moves in
        '(array2, moves2) ← quickSortHelper fuel' array1 low (pivotIndex - 1) moves1;
        quickSortHelper fuel' array2 (pivotIndex + 1) high moves2
      else Some (array, moves)
  end.

Definition quickSort (fuel : nat) (array : list A) : option (list (move A)) :=
  snd <$> quickSortHelper fuel array 0 (len array - 1) [].

(** *** mergeSort *)

(** The first [while] of [merge]:
    [while (leftIndex < left.length && rightIndex < right.length)].  The
    indices only grow from 0, so each is below the length exactly when the
    read at it is a value; [k] counts the iterations still possible. *)
Fixpoint merge_both (k : nat) (left right : list A) (leftIndex rightIndex : Z)
    (originalIndex : Z) (originalArray : list A) (moves : list (move A)) :
    Z * Z * Z * list A * list (move A) :=
  match k with
  | O => (leftIndex, rightIndex, originalIndex, originalArray, moves)
  | S k' =>
      match get left leftIndex, get right rightIndex with
      | Some l, Some r =>
          if less l r
          then merge_both k' left right (leftIndex + 1) rightIndex (originalIndex + 1)
                 (set originalArray originalIndex l)
                 (moves ++ [Overwrite originalIndex l])
          else merge_both k' left right leftIndex (rightIndex + 1) (originalIndex + 1)
                 (set originalArray originalIndex r)
                 (moves ++ [Overwrite originalIndex r])
      | _, _ => (leftIndex, rightIndex, originalIndex, originalArray, moves)
      end
  end.

(** The second and third [while]: copy what is left of one side,
    [while (index < side.length)], the index being below the length exactly
    when the read at it is a value. *)
Fixpoint merge_rest (k : nat) (side : list A) (index : Z)
    (originalIndex : Z) (originalArray : list A) (moves : list (move A)) :
    Z * list A * list (move A) :=
  match k with
  | O => (originalIndex, originalArray, moves)
  | S k' =>
      match get side index with
      | Some v =>
          merge_rest k' side (index + 1) (originalIndex + 1)
            (set originalArray originalIndex v) (moves ++ [Overwrite originalIndex v])
      | None => (originalIndex, originalArray, moves)
      end
  end.

Definition merge (left right originalArray : list A) (moves : list (move A)) :
    list A * list (move A) :=
  let '(leftIndex, rightIndex, originalIndex, array1, moves1) :=
    merge_both (length left + length right) left right 0 0 0 originalArray moves in
  let '(originalIndex, array2, moves2) :=
    merge_rest (length left) left leftIndex originalIndex array1 moves1 in
  let '(originalIndex, array3, moves3) :=
    merge_rest (length right) right rightIndex originalIndex array2 moves2 in
  (array3, moves3).

(** [mergeSort]; [None] when the recursion is deeper than [fuel]. *)
Fixpoint mergeSort (fuel : nat) (array : list A) (moves : list (move A)) :
    option (list A * list (move A)) :=
  match fuel with
  | O => None
  | S fuel' =>
      if decide (len array ≤ 1) then Some (array, moves)
      else
        let mid := len array / 2 in
        '(left_, moves1) ← mergeSort fuel' (slice array 0 mid) moves;
        '(right_, moves2) ← mergeSort fuel' (slice array mid (len array)) moves1;
        Some (merge left_ right_ array moves2)
  end.
End Engines.

(** ** The six engines by name *)

Inductive engine : Type := Bubble | Insertion | Selection | Heap | Quick | Merge.

(** The names the buttons pass to [sortAndAnimate]. *)
Definition engine_name (e : engine) : string :=
  match e with
  | Bubble => "bubble"
  | Insertion => "insertion"
  | Selection => "selection"
  | Heap => "heap"
  | Quick => "quick"
  | Merge => "merge"
  end.

(** The [switch (algorithm)] of [sortAndAnimate] on the private [copy]:
    the value of [sortingMoves] after it. *)
Definition sortingMoves `{Number A} (fuel : nat) (algorithm : string) (copy : list A) :
    option (list (move A)) :=
  if decide (algorithm = "bubble") then bubbleSort fuel copy
  else if decide (algorithm = "merge") then snd <$> mergeSort fuel copy []
  else if decide (algorithm = "heap") then heapSort fuel copy
  else if decide (algorithm = "quick") then quickSort fuel copy
  else if decide (algorithm = "insertion") then Some (insertionSort copy)
  else if decide (algorithm = "selection") then Some (selectionSort copy)
  else Some [].

(** [run] returns [x] whenever it is given more than [n] units of fuel. *)
Definition returns_above {X : Type} (n : nat) (run : nat → option X) (x : X) : Prop :=
  ∀ fuel, (n < fuel)%nat → run fuel = Some x.

(** ** Playback *)

(** The arithmetic of the tone: [+], [*] and the number literals. *)
Class Arith (A : Type) := {
  add : A → A → A;
  mul : A → A → A;
  number : Z → A;
  mul_comm : ∀ x y, mul x y = mul y x
}.

(** What the component does to the outside: the bars [showBars] draws, the
    oscillator [playNote] starts ([None] is the NaN that arithmetic on
    [undefined] gives), the error it logs without an audio context. *)
Inductive effect (A : Type) : Type :=
  | ShowBars (arrayToShow : list A)
  | PlayNote (freq : option A)
  | ConsoleError.
Arguments ShowBars {A} arrayToShow.
Arguments PlayNote {A} freq.
Arguments ConsoleError {A}.

(** The component between two events.
    - [arrays]: the array objects, by reference; [animate] mutates the array
      its closure holds and hands React a fresh copy each step.
    - [array]: the reference held in the React state, which the handlers of
      the latest render close over.
    - [timers]: the callbacks [setTimeout] has pending, oldest first, each
      with the array and the rest of the moves its closure holds.
    - [effects]: what has been drawn and played so far. *)
Record state (A : Type) : Type := State {
  arrays : list (list A);
  array : nat;
  audioCtx : bool;
  timers : list (nat * list (move A));
  effects : list (effect A)
}.
Arguments State {A}.
Arguments arrays {A}.
Arguments array {A}.
Arguments audioCtx {A}.
Arguments timers {A}.
Arguments effects {A}.

(** How a call ends: normally, or by throwing. *)
Inductive completion (S : Type) : Type :=
  | Normal (s : S)
  | Throw (error : string).
Arguments Normal {S} s.
Arguments Throw {S} error.

Section Playback.
Context `{Number A, Arith A}.

(** [200 + value * 500] *)
Definition frequency (value : option A) : option A :=
  (λ v, add (number 200) (mul v (number 500))) <$> value.

Definition emit (e : effect A) (s : state A) : state A :=
  State (arrays s) (array s) (audioCtx s) (timers s) (effects s ++ [e]).

(** [showBars(arrayToShow)] *)
Definition showBars (arrayToShow : list A) (s : state A) : state A :=
  emit (ShowBars arrayToShow) s.

(** [playNote(freq)] *)
Definition playNote (freq : option A) (s : state A) : state A :=
  if audioCtx s then emit (PlayNote freq) s else emit ConsoleError s.

(** The array object behind a reference. *)
Definition deref (s : state A) (ref : nat) : list A := arrays s !!! ref.

(** [animate(moves)] in a closure whose [array] is the object [ref]. *)
Definition animate (ref : nat) (moves : list (move A)) (s : state A) : state A :=
  match moves with
  | [] => showBars (deref s ref) s
  | move :: rest =>
      let array' := apply_move (deref s ref) move in
      (* the mutation of [array], then [setArray([...array])] *)
      let s := State (<[ref := array']> (arrays s) ++ [array']) (length (arrays s))
                 (audioCtx s) (timers s) (effects s) in
      let s :=
        match move with
        | Swap i j => playNote (frequency (get array' j)) (playNote (frequency (get array' i)) s)
        | Overwrite i _ => playNote (frequency (get array' i)) s
        end in
      let s := showBars array' s in
      (* [setTimeout(() => animate(moves), 1)] *)
      State (arrays s) (array s) (audioCtx s) (timers s ++ [(ref, rest)]) (effects s)
  end.

(** [sortAndAnimate(algorithm)] of the latest render; [None] when an engine
    ran out of fuel. *)
Definition sortAndAnimate (fuel : nat) (algorithm : string) (s : state A) :
    option (completion (state A)) :=
  let copy := deref s (array s) in
  moves ← sortingMoves fuel algorithm copy;
  Some (Normal (animate (array s) moves s)).

(** The oldest pending timer fires. *)
Definition tick (s : state A) : state A :=
  match timers s with
  | [] => s
  | (ref, moves) :: pending =>
      animate ref moves (State (arrays s) (array s) (audioCtx s) pending (effects s))
  end.

Fixpoint ticks (n : nat) (s : state A) : state A :=
  match n with
  | O => s
  | S n' => ticks n' (tick s)
  end.

(** The frequencies of the notes among some effects. *)
Definition notes (es : list (effect A)) : list (option A) :=
  omap (λ e, match e with PlayNote f => Some f | _ => None end) es.

(** [NUMBER_OF_ARRAY_BARS] *)
Definition NUMBER_OF_ARRAY_BARS : nat := 30.

(** [Array.from({ length: NUMBER_OF_ARRAY_BARS }, () => Math.random())],
    [random k] being what the call of [Math.random] for the cell [k]
    returns. *)
Definition randomArray (random : nat → A) : list A :=
  random <$> seq 0 NUMBER_OF_ARRAY_BARS.

(** [resetArray()], and [init()], which has the same body: the new array
    becomes the React state, as it is, and is drawn. *)
Definition resetArray (random : nat → A) (s : state A) : state A :=
  let newArray := randomArray random in
  showBars newArray
    (State (arrays s ++ [newArray]) (length (arrays s)) (audioCtx s) (timers s) (effects s)).
End Playback.

(** * Vocabulary of the proofs *)

Section Vocabulary.
Context `{Number A}.

#[global] Instance leq_dec x y : Decision (leq x y).
Proof. unfold leq. apply _. Defined.

(** [sorted_on a lo hi]: the cells [lo .. hi - 1] are in non-decreasing
    order. *)
Definition sorted_on (a : list A) (lo hi : Z) : Prop :=
  ∀ i j x y, lo ≤ i → i ≤ j → j < hi → get a i = Some x → get a j = Some y → leq x y.

(** The number of entries of [l] that are less than [x]. *)
Fixpoint smaller (x : A) (l : list A) : nat :=
  match l with
  | [] => 0
  | y :: l' => ((if less y x then 1 else 0) + smaller x l')%nat
  end.

(** The number of pairs of positions [i < j] with [l[j] < l[i]]. *)
Fixpoint inversions (l : list A) : nat :=
  match l with
  | [] => 0
  | x :: l' => (smaller x l' + inversions l')%nat
  end.

(** No cell before [hi] is less than the cell before it. *)
Definition adj_sorted (a : list A) (hi : Z) : Prop :=
  ∀ t x y, t < hi → get a (t - 1) = Some x → get a t = Some y → leq x y.

(** The array as the replayed swaps leave it while the inner loop of
    iteration [i] stands at [j]: the key sits at [j + 1], the cells
    [j + 1 .. i - 1] of [a] have moved one up, and each of them is greater
    than the key. *)
Definition ins_view (a : list A) (i j : Z) (key : A) (b : list A) : Prop :=
  len b = len a ∧ b ≡ₚ a ∧ get b (j + 1) = Some key ∧
  (∀ t, t ≤ j → get b t = get a t) ∧
  (∀ t, j + 2 ≤ t ≤ i → get b t = get a (t - 1)) ∧
  (∀ t, i < t → get b t = get a t) ∧
  (∀ t x, j + 2 ≤ t ≤ i → get b t = Some x → less key x = true).

(** Every cell before [i] is at most every cell after it. *)
Definition prefix_sorted (a : list A) (i : Z) : Prop :=
  ∀ s t x y, s < i → s ≤ t → get a s = Some x → get a t = Some y → leq x y.

(** [m] holds a least value among the cells [i .. j - 1]. *)
Definition is_min (a : list A) (i j m : Z) : Prop :=
  i ≤ m ∧ (m = i ∨ m < j) ∧
  ∀ t x y, i ≤ t < j → get a m = Some x → get a t = Some y → leq x y.

(** [a'] is [a] with the cells [lo .. hi] rearranged among themselves. *)
Definition within (a a' : list A) (lo hi : Z) : Prop :=
  len a' = len a ∧ a' ≡ₚ a ∧
  (∀ t, ¬ (lo ≤ t ≤ hi) → get a' t = get a t) ∧
  (∀ P : A → Prop,
     (∀ t x, lo ≤ t ≤ hi → get a t = Some x → P x) →
     ∀ t x, lo ≤ t ≤ hi → get a' t = Some x → P x).

Definition swaps_in_bounds (n : Z) (extra : list (move A)) : Prop :=
  Forall (λ m, is_swap m = true ∧ move_in_bounds n m) extra.

(** The children of node [q] that lie below [max] hold at most [v]. *)
Definition children_le (a : list A) (max q : Z) (v : A) : Prop :=
  ∀ c x, c = 2 * q + 1 ∨ c = 2 * q + 2 → c < max → get a c = Some x → leq x v.

(** Every node from [lo] on dominates its children: the cells
    [lo .. max - 1] are a max-heap. *)
Definition heap_from (a : list A) (lo max : Z) : Prop :=
  ∀ q v, lo ≤ q → get a q = Some v → children_le a max q v.

(** The values [merge] writes, in the order it writes them: [k] bounds the
    iterations of the first loop; the two copy loops add what is left. *)
Fixpoint merge_vals (k : nat) (l r : list A) : list A :=
  match k, l, r with
  | S k', x :: l', y :: r' =>
      if less x y then x :: merge_vals k' l' r else y :: merge_vals k' l r'
  | _, _, _ => l ++ r
  end.

(** One overwrite per value, at consecutive indices from [oi] on. *)
Fixpoint overwrites_from (oi : Z) (vals : list A) : list (move A) :=
  match vals with
  | [] => []
  | v :: vals' => Overwrite oi v :: overwrites_from (oi + 1) vals'
  end.

(** The number of entries of [l] that are not greater than [x]. *)
Fixpoint not_greater (x : A) (l : list A) : nat :=
  match l with
  | [] => 0
  | y :: l' => ((if less x y then 0 else 1) + not_greater x l')%nat
  end.
End Vocabulary.

Section PlaybackVocabulary.
Context {A : Type}.

(** The ticks still to come for the pending timers: one per move and one to
    find the log empty. *)
Fixpoint pending_work (ts : list (nat * list (move A))) : nat :=
  match ts with
  | [] => 0
  | (_, moves) :: ts' => S (length moves + pending_work ts')
  end.

(** The pending playbacks hold arrays that exist, each its own. *)
Definition separate_playbacks (s : state A) : Prop :=
  NoDup (timers s).*1 ∧ Forall (λ t, (t.1 < length (arrays s))%nat) (timers s).

(** The arrays drawn among some effects, in the order drawn. *)
Definition frames (es : list (effect A)) : list (list A) :=
  omap (λ e, match e with ShowBars a => Some a | _ => None end) es.

(** The array after each move of a log, in log order. *)
Fixpoint snapshots (a : list A) (log : list (move A)) : list (list A) :=
  match log with
  | [] => []
  | m :: log' => apply_move a m :: snapshots (apply_move a m) log'
  end.

(** The same component with or without an audio context. *)
Definition with_audio (audio : bool) (s : state A) : state A :=
  State (arrays s) (array s) audio (timers s) (effects s).

(** What of the component can be seen: the arrays, the array React holds,
    the pending timers and the frames drawn. *)
Definition visible (s : state A) :
    list (list A) * nat * list (nat * list (move A)) * list (list A) :=
  (arrays s, array s, timers s, frames (effects s)).

(** One playback is advancing: its tick is the only one pending, on the
    array [ref] with the moves [rest] still to apply, and the array React
    holds is a copy of that array, with the same values [published]. *)
Definition in_flight (s : state A) (ref : nat) (rest : list (move A))
    (published : list A) : Prop :=
  timers s = [(ref, rest)] ∧ array s ≠ ref ∧
  arrays s !! ref = Some published ∧ arrays s !! array s = Some published.
End PlaybackVocabulary.

(** ** Numbers used on concrete arrays *)

(** The rationals, with their order and arithmetic: the finite doubles are
    among them. *)
Definition Qless (x y : Q) : bool := negb (Qle_bool y x).

#[export] Instance Q_Number : Number Q.
Proof.
  refine {| less := Qless |}; unfold Qless.
  - intros x. apply negb_false_iff, Qle_bool_iff, Qle_refl.
  - intros x y z. rewrite !negb_true_iff, <- !not_true_iff_false, !Qle_bool_iff.
    intros Hxy Hyz Hzx. apply Hxy. apply Qle_trans with z; [|done].
    apply Qlt_le_weak. by apply Qnot_le_lt.
  - intros x y z. rewrite !negb_false_iff, !Qle_bool_iff.
    intros Hxy Hyz. by apply Qle_trans with y.
Defined.

#[export] Instance Q_Arith : Arith Q.
Proof.
  refine {| add := Qplus; mul := Qmult; number := inject_Z |}.
  intros x y. unfold Qmult. f_equal; [apply Z.mul_comm | apply Pos.mul_comm].
Defined.

(** A number with the tag of where it came from; the comparison sees the
    number only. *)
#[export] Instance tagged_Number : Number (Q * string) :=
  {| less x y := less x.1 y.1;
     less_irrefl x := less_irrefl x.1;
     less_trans x y z := less_trans x.1 y.1 z.1;
     less_negtrans x y z := less_negtrans x.1 y.1 z.1 |}.

(** The order in which the entries equal in value to [x] appear. *)
Definition equals_of `{Number A} (x : A) (l : list A) : list A :=
  filter (equiv_val x) l.

(** [output] keeps equal-valued entries in the order [input] has them. *)
Definition keeps_order_of_equals `{Number A} (input output : list A) : Prop :=
  ∀ x, equals_of x output = equals_of x input.

(** The array of the stability example: 0.5 tagged a, 0.3, 0.5 tagged b. *)
Definition tagged_input : list (Q * string) := [(1#2, "a"); (3#10, ""); (1#2, "b")]%Q.

(** The array [3, 1, 2] of the spec's scenario, scaled into [0,1). *)
Definition unsorted3 : list Q := [3#10; 1#10; 2#10]%Q.

(** The component showing [unsorted3], with an audio context, at rest. *)
Definition at_rest : state Q := State [unsorted3] 0 true [] [].

(** After the click on Bubble Sort: the first of the two moves of its log
    applied, the second pending. *)
Definition bubble_in_flight : state Q :=
  State [[1#10; 3#10; 2#10]; [1#10; 3#10; 2#10]]%Q 1 true [(0%nat, [Swap 1 2])]
    [PlayNote (Some (2500#10)); PlayNote (Some (3500#10)); ShowBars [1#10; 3#10; 2#10]]%Q.

(** * Facts about arrays *)

Section ArrayFacts.
Context {A : Type}.
Implicit Types (a : list A) (i j k : Z) (v x y : A).

Lemma get_Some_bounds a i x : get a i = Some x → 0 ≤ i < len a.
Proof.
  unfold get, len. case_decide; [|done].
  intros Hl%lookup_lt_Some. lia.
Qed.

Lemma get_is_Some a i : 0 ≤ i < len a → is_Some (get a i).
Proof.
  unfold get, len. intros ?. rewrite decide_True by lia.
  apply lookup_lt_is_Some. lia.
Qed.

Lemma get_None a i : ¬ (0 ≤ i < len a) → get a i = None.
Proof.
  intros Hn. destruct (get a i) eqn:E; [|done].
  by apply get_Some_bounds in E.
Qed.

Lemma get_lookup a (n : nat) : get a (Z.of_nat n) = a !! n.
Proof. unfold get. rewrite decide_True by lia. by rewrite Nat2Z.id. Qed.

Lemma array_eq a b : (∀ i, get a i = get b i) → a = b.
Proof. intros E. apply list_eq. intros n. rewrite <- !get_lookup. apply E. Qed.

Lemma len_nonneg a : 0 ≤ len a.
Proof. unfold len. lia. Qed.

Lemma len_set a i v : len (set a i v) = len a.
Proof. unfold set, len. case_decide; [|done]. by rewrite length_insert. Qed.

Lemma len_swap a i j : len (swap a i j) = len a.
Proof. unfold swap. repeat case_match; by rewrite ?len_set. Qed.

Lemma len_app a b : len (a ++ b) = len a + len b.
Proof. unfold len. rewrite length_app. lia. Qed.

Lemma length_set a i v : length (set a i v) = length a.
Proof. generalize (len_set a i v). unfold len. lia. Qed.

Lemma length_swap a i j : length (swap a i j) = length a.
Proof. generalize (len_swap a i j). unfold len. lia. Qed.

Lemma get_set_eq a i v : 0 ≤ i < len a → get (set a i v) i = Some v.
Proof.
  intros ?. unfold get, set. rewrite !decide_True by lia.
  apply list_lookup_insert_eq. unfold len in *. lia.
Qed.

Lemma get_set_ne a i j v : i ≠ j → get (set a i v) j = get a j.
Proof.
  intros ?. unfold get, set. repeat case_decide; try done.
  apply list_lookup_insert_ne. lia.
Qed.

Lemma set_get_id a i x : get a i = Some x → set a i x = a.
Proof.
  intros E. pose proof (get_Some_bounds _ _ _ E).
  unfold set, get in *. rewrite !decide_True in * by lia.
  by apply list_insert_id.
Qed.

Lemma set_in a i v : 0 ≤ i < len a → set a i v = <[Z.to_nat i := v]> a.
Proof. intros ?. unfold set. by rewrite decide_True. Qed.

Lemma set_out a i v : ¬ (0 ≤ i < len a) → set a i v = a.
Proof. intros ?. unfold set. by rewrite decide_False. Qed.

Lemma get_swap_l a i j : 0 ≤ i < len a → 0 ≤ j < len a → get (swap a i j) i = get a j.
Proof.
  intros Hi Hj. unfold swap.
  destruct (get_is_Some a i Hi) as [x Ex], (get_is_Some a j Hj) as [y Ey].
  rewrite Ex, Ey. destruct (decide (i = j)) as [->|].
  - rewrite get_set_eq by (by rewrite len_set). congruence.
  - by rewrite get_set_ne, get_set_eq.
Qed.

Lemma get_swap_r a i j : 0 ≤ i < len a → 0 ≤ j < len a → get (swap a i j) j = get a i.
Proof.
  intros Hi Hj. unfold swap.
  destruct (get_is_Some a i Hi) as [x Ex], (get_is_Some a j Hj) as [y Ey].
  rewrite Ex, Ey. by rewrite get_set_eq by (by rewrite len_set).
Qed.

Lemma get_swap_ne a i j k : k ≠ i → k ≠ j → get (swap a i j) k = get a k.
Proof.
  intros. unfold swap. repeat case_match; try done.
  by rewrite !get_set_ne.
Qed.

Lemma get_set a i v k :
  get (set a i v) k = if decide (k = i ∧ 0 ≤ i < len a) then Some v else get a k.
Proof.
  case_decide as Hd.
  - destruct Hd as [-> ?]. by apply get_set_eq.
  - destruct (decide (k = i)) as [->|]; [|by apply get_set_ne].
    rewrite set_out; [done|]. intros ?. by apply Hd.
Qed.

Lemma get_swap a i j k :
  0 ≤ i < len a → 0 ≤ j < len a →
  get (swap a i j) k =
    if decide (k = j) then get a i else if decide (k = i) then get a j else get a k.
Proof.
  intros. repeat case_decide; subst.
  - by apply get_swap_r.
  - by apply get_swap_l.
  - by apply get_swap_ne.
Qed.

Lemma swap_same a i : swap a i i = a.
Proof.
  unfold swap. destruct (get a i) as [x|] eqn:E; [|done].
  rewrite (set_get_id a i x E). by apply set_get_id.
Qed.

Lemma swap_perm a i j : swap a i j ≡ₚ a.
Proof.
  unfold swap. destruct (get a i) as [x|] eqn:Ei; [|done].
  destruct (get a j) as [y|] eqn:Ej; [|done].
  pose proof (get_Some_bounds _ _ _ Ei). pose proof (get_Some_bounds _ _ _ Ej).
  rewrite (set_in (set a i y)) by (rewrite len_set; lia).
  rewrite set_in by lia.
  unfold get in Ei, Ej.
  rewrite decide_True in Ei by lia. rewrite decide_True in Ej by lia.
  by apply Permutation_insert_swap.
Qed.

Lemma get_app_l a b i : i < len a → get (a ++ b) i = get a i.
Proof.
  intros ?. unfold get. case_decide; [|done].
  apply lookup_app_l. unfold len in *. lia.
Qed.

Lemma get_app_r a b i : len a ≤ i → get (a ++ b) i = get b (i - len a).
Proof.
  intros ?. pose proof (len_nonneg a). unfold get. rewrite !decide_True by lia.
  rewrite lookup_app_r by (unfold len in *; lia).
  f_equal. unfold len in *. lia.
Qed.

Lemma get_cons_0 x a : get (x :: a) 0 = Some x.
Proof. done. Qed.

Lemma get_cons_pos x a i : 0 < i → get (x :: a) i = get a (i - 1).
Proof.
  intros ?. unfold get. rewrite !decide_True by lia.
  replace (Z.to_nat i) with (S (Z.to_nat (i - 1))) by lia. done.
Qed.

Lemma len_cons x a : len (x :: a) = len a + 1.
Proof. unfold len. simpl. lia. Qed.

Lemma get_elem_of a i x : get a i = Some x → x ∈ a.
Proof. unfold get. case_decide; [|done]. apply list_elem_of_lookup_2. Qed.

Lemma elem_of_get a x : x ∈ a → ∃ i, get a i = Some x.
Proof.
  intros [n Hn]%list_elem_of_lookup. exists (Z.of_nat n). by rewrite get_lookup.
Qed.
End ArrayFacts.

(** * Facts about replay *)

Section ReplayFacts.
Context {A : Type}.
Implicit Types (a : list A) (log : list (move A)).

Lemma replay_app log1 log2 a : replay (log1 ++ log2) a = replay log2 (replay log1 a).
Proof. apply foldl_app. Qed.

Lemma replay_snoc log m a : replay (log ++ [m]) a = apply_move (replay log a) m.
Proof. by rewrite replay_app. Qed.

Lemma length_apply_move a m : length (apply_move a m) = length a.
Proof. destruct m; simpl; [apply length_swap | apply length_set]. Qed.

Lemma length_replay log a : length (replay log a) = length a.
Proof.
  revert a. unfold replay. induction log as [|m log IH]; intros a; [done|].
  simpl. by rewrite IH, length_apply_move.
Qed.

Lemma len_replay log a : len (replay log a) = len a.
Proof. unfold len. by rewrite length_replay. Qed.

Lemma count_all_swaps (P : move A → Prop) log :
  Forall (λ m, is_swap m = true ∧ P m) log →
  count_swaps log = length log ∧ count_overwrites log = 0%nat.
Proof.
  unfold count_swaps, count_overwrites.
  induction 1 as [|m log [Hm _] _ [IH1 IH2]]; [done|].
  rewrite !filter_cons. destruct m; [|done]. simpl.
  by rewrite IH1, IH2.
Qed.

Lemma count_swaps_app log1 log2 :
  count_swaps (log1 ++ log2) = (count_swaps log1 + count_swaps log2)%nat.
Proof. unfold count_swaps. by rewrite filter_app, length_app. Qed.

Lemma count_overwrites_app log1 log2 :
  count_overwrites (log1 ++ log2) = (count_overwrites log1 + count_overwrites log2)%nat.
Proof. unfold count_overwrites. by rewrite filter_app, length_app. Qed.
End ReplayFacts.

(** * Facts about the order *)

Section OrderFacts.
Context `{Number A}.
Implicit Types (x y z : A) (a : list A).

Lemma less_asym x y : less x y = true → less y x = false.
Proof.
  intros Hxy. destruct (less y x) eqn:Hyx; [|done].
  pose proof (less_trans _ _ _ Hxy Hyx) as Hxx. by rewrite less_irrefl in Hxx.
Qed.

Lemma leq_refl x : leq x x.
Proof. apply less_irrefl. Qed.

Lemma leq_trans x y z : leq x y → leq y z → leq x z.
Proof. unfold leq. apply less_negtrans. Qed.

Lemma less_leq x y : less x y = true → leq x y.
Proof. apply less_asym. Qed.

Lemma leq_total x y : leq x y ∨ leq y x.
Proof. unfold leq. destruct (less x y) eqn:E; [left; by apply less_asym | by right]. Qed.

Lemma less_leq_trans x y z : less x y = true → leq y z → less x z = true.
Proof.
  intros Hxy Hyz. destruct (less x z) eqn:E; [done|].
  pose proof (leq_trans _ _ _ Hyz E) as Hyx. unfold leq in Hyx. congruence.
Qed.

Lemma leq_less_trans x y z : leq x y → less y z = true → less x z = true.
Proof.
  intros Hxy Hyz. destruct (less x z) eqn:E; [done|].
  pose proof (leq_trans _ _ _ E Hxy) as Hzy. unfold leq in Hzy. congruence.
Qed.

#[global] Instance leq_reflexive : Reflexive (leq (A:=A)).
Proof. intros x. apply leq_refl. Qed.

#[global] Instance leq_transitive : Transitive (leq (A:=A)).
Proof. intros x y z. apply leq_trans. Qed.

#[global] Instance leq_total_inst : Total (leq (A:=A)).
Proof. intros x y. apply leq_total. Qed.

Lemma equiv_val_refl x : equiv_val x x.
Proof. split; apply leq_refl. Qed.

Lemma equiv_val_sym x y : equiv_val x y → equiv_val y x.
Proof. intros [??]; by split. Qed.

Lemma equiv_val_trans x y z : equiv_val x y → equiv_val y z → equiv_val x z.
Proof. intros [??] [??]; split; by eapply leq_trans. Qed.

(** An array is sorted when no cell is greater than the next one. *)
Lemma Sorted_get a :
  (∀ t x y, get a (t - 1) = Some x → get a t = Some y → leq x y) → Sorted leq a.
Proof.
  induction a as [|x a IH]; intros Hadj; [constructor|].
  constructor.
  - apply IH. intros t u v Hu Hv.
    pose proof (get_Some_bounds _ _ _ Hu).
    apply (Hadj (t + 1)).
    + rewrite get_cons_pos by lia. by replace (t + 1 - 1 - 1) with (t - 1) by lia.
    + rewrite get_cons_pos by lia. by replace (t + 1 - 1) with t by lia.
  - destruct a as [|y a']; constructor.
    by apply (Hadj 1).
Qed.

Lemma StronglySorted_get a i j x y :
  StronglySorted leq a → i ≤ j → get a i = Some x → get a j = Some y → leq x y.
Proof.
  intros Hs. revert i j. induction Hs as [|u a Hs IH Hall]; intros i j Hij Hi Hj.
  - apply get_Some_bounds in Hi. unfold len in Hi. simpl in Hi. lia.
  - pose proof (get_Some_bounds _ _ _ Hi).
    destruct (decide (i = 0)) as [->|].
    + simpl in Hi. injection Hi as ->.
      destruct (decide (j = 0)) as [->|].
      * injection Hj as ->. apply leq_refl.
      * rewrite get_cons_pos in Hj by lia.
        rewrite Forall_forall in Hall. apply Hall. by eapply get_elem_of.
    + rewrite get_cons_pos in Hi, Hj by lia. apply (IH (i - 1) (j - 1)); [lia|done..].
Qed.

Lemma sorted_on_Sorted a : sorted_on a 0 (len a) → Sorted leq a.
Proof.
  intros Hs. apply Sorted_get. intros t x y Hx Hy.
  pose proof (get_Some_bounds _ _ _ Hx). pose proof (get_Some_bounds _ _ _ Hy).
  apply (Hs (t - 1) t); try done; lia.
Qed.

Lemma Sorted_sorted_on a : Sorted leq a → sorted_on a 0 (len a).
Proof.
  intros Hs%(Sorted_StronglySorted _) i j x y ?????.
  by apply (StronglySorted_get a i j).
Qed.

(** ** Inversions *)

Lemma smaller_perm x l1 l2 : l1 ≡ₚ l2 → smaller x l1 = smaller x l2.
Proof. induction 1; simpl; lia. Qed.

Lemma smaller_le_length x l : (smaller x l ≤ length l)%nat.
Proof. induction l as [|y l IH]; simpl; [lia|]. destruct (less y x); lia. Qed.

Lemma inversions_bound l : (2 * inversions l ≤ length l * (length l - 1))%nat.
Proof.
  induction l as [|x l IH]; simpl; [lia|].
  pose proof (smaller_le_length x l). nia.
Qed.

Lemma inversions_swap_adjacent p x y s :
  less y x = true →
  (inversions (p ++ y :: x :: s) + 1 = inversions (p ++ x :: y :: s))%nat.
Proof.
  intros Hyx. pose proof (less_asym _ _ Hyx) as Hxy.
  induction p as [|h p IH]; simpl.
  - rewrite Hyx, Hxy. lia.
  - rewrite (smaller_perm h (p ++ y :: x :: s) (p ++ x :: y :: s)); [lia|].
    apply Permutation_app_head, Permutation_swap.
Qed.
End OrderFacts.

(** * bubbleSort *)

Section BubbleFacts.
Context `{Number A}.
Implicit Types (a array : list A) (moves extra : list (move A)).

Lemma get_adjacent_split a i x y :
  get a (i - 1) = Some x → get a i = Some y →
  ∃ p s, a = p ++ x :: y :: s ∧ len p = i - 1.
Proof.
  intros Hx Hy. pose proof (get_Some_bounds _ _ _ Hx) as Hb.
  unfold get in Hx, Hy. rewrite decide_True in Hx by lia. rewrite decide_True in Hy by lia.
  exists (take (Z.to_nat (i - 1)) a), (drop (S (Z.to_nat i)) a). split.
  - rewrite <- (take_drop_middle a (Z.to_nat (i - 1)) x Hx) at 1. f_equal. f_equal.
    replace (S (Z.to_nat (i - 1))) with (Z.to_nat i) by lia.
    by apply drop_S.
  - unfold len in *. rewrite length_take. lia.
Qed.

Lemma swap_adjacent (p : list A) x y s :
  swap (p ++ x :: y :: s) (len p) (len p + 1) = p ++ y :: x :: s.
Proof.
  pose proof (len_nonneg p) as Hp. unfold swap.
  rewrite !get_app_r by lia.
  replace (len p - len p) with 0 by lia. replace (len p + 1 - len p) with 1 by lia.
  simpl. rewrite (set_in (set _ _ _)) by (rewrite len_set, len_app, !len_cons; pose proof (len_nonneg s); lia).
  rewrite set_in by (rewrite len_app, !len_cons; pose proof (len_nonneg s); lia).
  unfold len. replace (Z.to_nat (Z.of_nat (length p) + 1)) with (length p + 1)%nat by lia.
  rewrite Nat2Z.id.
  rewrite <- (Nat.add_0_r (length p)) at 2. by rewrite !insert_app_r.
Qed.

Lemma inversions_swap array i x y :
  get array (i - 1) = Some x → get array i = Some y → less y x = true →
  (inversions (swap array (i - 1) i) + 1 = inversions array)%nat.
Proof.
  intros Hx Hy Hlt. destruct (get_adjacent_split _ _ _ _ Hx Hy) as (p & s & -> & Hp).
  rewrite <- Hp. replace (len p + 1 - 1) with (len p) by lia.
  replace i with (len p + 1) by lia.
  rewrite swap_adjacent. by apply inversions_swap_adjacent.
Qed.

(** What the [for] loop of a pass does, from any index on. *)
Lemma bubble_for_spec k i array moves sw :
  ∃ array' extra sw',
    bubble_for k i array moves sw = (array', moves ++ extra, sw') ∧
    replay extra array = array' ∧
    array' ≡ₚ array ∧
    Forall (λ m, is_swap m = true ∧ move_in_bounds (len array) m) extra ∧
    (length extra + inversions array' = inversions array)%nat ∧
    sw' = match extra with [] => sw | _ => true end ∧
    (sw' = false →
     ∀ t, i ≤ t < i + Z.of_nat k → lessO (get array t) (get array (t - 1)) = false).
Proof.
  revert i array moves sw. induction k as [|k IH]; intros i array moves sw.
  - exists array, [], sw. rewrite app_nil_r. repeat split; try done. intros; lia.
  - simpl. destruct (lessO (get array i) (get array (i - 1))) eqn:Hc.
    + destruct (get array i) as [y|] eqn:Hy; [|done].
      destruct (get array (i - 1)) as [x|] eqn:Hx; [|done]. simpl in Hc.
      destruct (IH (i + 1) (swap array (i - 1) i) (moves ++ [Swap (i - 1) i]) true)
        as (array' & extra & sw' & E & Hr & Hp & Hf & Hinv & Hsw & _).
      assert (sw' = true) as -> by (rewrite Hsw; by destruct extra).
      exists array', (Swap (i - 1) i :: extra), true.
      rewrite E, <- app_assoc. repeat split; try done.
      * by rewrite Hp, swap_perm.
      * constructor.
        -- split; [done|]. apply get_Some_bounds in Hx, Hy.
           repeat constructor; lia.
        -- by rewrite len_swap in Hf.
      * pose proof (inversions_swap _ _ _ _ Hx Hy Hc). simpl. lia.
    + destruct (IH (i + 1) array moves sw)
        as (array' & extra & sw' & E & Hr & Hp & Hf & Hinv & Hsw & Hns).
      exists array', extra, sw'. repeat split; try done.
      intros Hfalse t Ht. destruct (decide (t = i)) as [->|]; [done|].
      apply Hns; [done|lia].
Qed.

(** A pass that pushes no move leaves [swapped] false and has found the
    array sorted; a pass that pushes a move sets [swapped] and has strictly
    fewer inversions in its array afterwards. *)
Lemma bubble_pass_spec array moves :
  ∃ array' extra sw',
    bubble_pass array moves = (array', moves ++ extra, sw') ∧
    replay extra array = array' ∧
    array' ≡ₚ array ∧
    Forall (λ m, is_swap m = true ∧ move_in_bounds (len array) m) extra ∧
    (length extra + inversions array' = inversions array)%nat ∧
    (sw' = false → extra = [] ∧ Sorted leq array) ∧
    (sw' = true → (inversions array' < inversions array)%nat).
Proof.
  pose proof (len_nonneg array).
  destruct (bubble_for_spec (Z.to_nat (len array - 1)) 1 array moves false)
    as (array' & extra & sw' & E & Hr & Hp & Hf & Hinv & Hsw & Hns).
  exists array', extra, sw'. split_and!; try done.
  - intros ->. split; [by destruct extra|]. apply Sorted_get. intros t x y Hx Hy.
    pose proof (get_Some_bounds _ _ _ Hx). pose proof (get_Some_bounds _ _ _ Hy).
    specialize (Hns eq_refl t). rewrite Hx, Hy in Hns. apply Hns. lia.
  - intros ->. destruct extra; [done|]. simpl in Hinv. lia.
Qed.

(** The [do ... while] loop ends after at most [inversions array + 1]
    passes, on a sorted array. *)
Lemma bubble_loop_spec n array moves :
  (inversions array ≤ n)%nat →
  ∃ array' extra,
    (∀ fuel, (n < fuel)%nat → bubble_loop fuel array moves = Some (array', moves ++ extra)) ∧
    replay extra array = array' ∧
    array' ≡ₚ array ∧
    Sorted leq array' ∧
    Forall (λ m, is_swap m = true ∧ move_in_bounds (len array) m) extra ∧
    (length extra ≤ inversions array)%nat.
Proof.
  revert array moves. induction n as [n IH] using lt_wf_ind. intros array moves Hn.
  destruct (bubble_pass_spec array moves)
    as (array1 & extra1 & sw & E & Hr & Hp & Hf & Hinv & Hfalse & Htrue).
  destruct sw.
  - specialize (Htrue eq_refl).
    destruct (IH (n - 1)%nat ltac:(lia) array1 (moves ++ extra1) ltac:(lia))
      as (array' & extra & Hrun & Hr' & Hp' & Hs' & Hf' & Hlen).
    exists array', (extra1 ++ extra). repeat split.
    + intros [|fuel] Hfuel; [lia|]. simpl. rewrite E, app_assoc. apply Hrun. lia.
    + by rewrite replay_app, Hr.
    + by rewrite Hp'.
    + done.
    + apply Forall_app. split; [done|].
      assert (len array1 = len array) as <-; [|done].
      unfold len. by rewrite Hp.
    + rewrite length_app. lia.
  - destruct (Hfalse eq_refl) as [-> Hs]. simpl in Hr. subst array1.
    exists array, []. repeat split; try done; [|simpl; lia].
    intros [|fuel] Hfuel; [lia|]. simpl. by rewrite E.
Qed.
End BubbleFacts.

(** * insertionSort *)

Section InsertionFacts.
Context `{Number A}.
Implicit Types (a b array arr : list A) (moves extra : list (move A)).

Lemma adj_sorted_Sorted a hi : len a ≤ hi → adj_sorted a hi → Sorted leq a.
Proof.
  intros Hhi Hs. apply Sorted_get. intros t x y Hx Hy.
  pose proof (get_Some_bounds _ _ _ Hy). apply (Hs t); [lia|done..].
Qed.

Lemma ins_view_init a i key : get a i = Some key → ins_view a i (i - 1) key a.
Proof.
  intros Hk. unfold ins_view. split_and!; try done.
  - by replace (i - 1 + 1) with i by lia.
  - intros; lia.
  - intros; lia.
Qed.

Lemma ins_view_step a i j key b x :
  j < i → ins_view a i j key b → get b j = Some x → less key x = true →
  ins_view a i (j - 1) key (swap b (j + 1) j).
Proof.
  intros Hji (Hlen & Hperm & Hkey & Hlow & Hmid & Hhigh & Hgt) Hx Hlt.
  pose proof (get_Some_bounds _ _ _ Hx). pose proof (get_Some_bounds _ _ _ Hkey).
  unfold ins_view. split_and!.
  - by rewrite len_swap.
  - by rewrite swap_perm.
  - rewrite get_swap by lia. rewrite decide_True by lia. done.
  - intros t ?. rewrite get_swap by lia.
    rewrite !decide_False by lia. apply Hlow. lia.
  - intros t ?. rewrite get_swap by lia. rewrite decide_False by lia.
    case_decide; subst.
    + replace (j + 1 - 1) with j by lia. apply Hlow. lia.
    + apply Hmid. lia.
  - intros t ?. rewrite get_swap by lia. rewrite !decide_False by lia. by apply Hhigh.
  - intros t y ?. rewrite get_swap by lia. rewrite decide_False by lia.
    case_decide; subst.
    + rewrite Hx. by intros [= <-].
    + apply Hgt. lia.
Qed.

(** On leaving the inner loop the cells [0 .. i] are sorted. *)
Lemma ins_view_exit a i j key b :
  -1 ≤ j < i → adj_sorted a i → ins_view a i j key b →
  (∀ x, get b j = Some x → less key x = false) →
  adj_sorted b (i + 1).
Proof.
  intros Hj Hs (Hlen & Hperm & Hkey & Hlow & Hmid & Hhigh & Hgt) Hexit t x y Ht Hx Hy.
  destruct (decide (t ≤ j)).
  - rewrite Hlow in Hx, Hy by lia. apply (Hs t); [lia|done..].
  - destruct (decide (t = j + 1)) as [->|].
    + replace (j + 1 - 1) with j in Hx by lia. rewrite Hkey in Hy.
      injection Hy as <-. by apply Hexit.
    + destruct (decide (t = j + 2)) as [->|].
      * replace (j + 2 - 1) with (j + 1) in Hx by lia. rewrite Hkey in Hx.
        injection Hx as <-. apply less_leq, (Hgt (j + 2)); [lia|done].
      * rewrite Hmid in Hx, Hy by lia. apply (Hs (t - 1)); [lia|done..].
Qed.

(** The inner loop: the engine shifts where the replay swaps, and the two
    arrays differ in the cell [j + 1] only, where the engine writes the key
    last. *)
Lemma insertion_while_spec k j key a i arr moves :
  Z.of_nat k = j + 1 → j < i →
  ins_view a i j key (set arr (j + 1) key) → len arr = len a →
  ∃ j' arr' extra,
    insertion_while k j key arr moves = (j', arr', moves ++ extra) ∧
    -1 ≤ j' ≤ j ∧
    ins_view a i j' key (set arr' (j' + 1) key) ∧ len arr' = len a ∧
    replay extra (set arr (j + 1) key) = set arr' (j' + 1) key ∧
    (∀ x, get arr' j' = Some x → less key x = false) ∧
    Forall (λ m, is_swap m = true ∧ move_in_bounds (len a) m) extra ∧
    Z.of_nat (length extra) = j - j'.
Proof.
  revert j arr moves. induction k as [|k IH]; intros j arr moves Hk Hji Hv Hlen.
  - exists j, arr, []. simpl. rewrite app_nil_r. split_and!; try done; try lia.
    intros x Hx. apply get_Some_bounds in Hx. lia.
  - simpl. destruct (get arr j) as [x|] eqn:Hx.
    + pose proof (get_Some_bounds _ _ _ Hx) as Hb.
      rewrite bool_decide_eq_true_2 by lia. simpl.
      destruct (less key x) eqn:Hlt.
      * assert (swap (set arr (j + 1) key) (j + 1) j = set (set arr (j + 1) x) j key) as Hsw.
        { apply array_eq. intros t.
          pose proof (proj1 Hv) as Hl. rewrite len_set in Hl.
          assert (0 ≤ j + 1 < len arr).
          { destruct Hv as (_ & _ & Hkey%get_Some_bounds & _). rewrite len_set in Hkey. lia. }
          rewrite get_swap by (rewrite len_set; lia).
          rewrite !get_set, !len_set.
          repeat case_decide; try done; try lia. }
        assert (get (set arr (j + 1) key) j = Some x) as Hbx.
        { by rewrite get_set_ne by lia. }
        pose proof (ins_view_step _ _ _ _ _ _ Hji Hv Hbx Hlt) as Hv'.
        rewrite Hsw in Hv'. replace j with (j - 1 + 1) in Hv' at 3 by lia.
        destruct (IH (j - 1) (set arr (j + 1) x) (moves ++ [Swap (j + 1) j]))
          as (j' & arr' & extra & E & Hj' & Hv'' & Hlen' & Hr & Hexit & Hf & Hcount);
          [lia | lia | done | by rewrite len_set |].
        exists j', arr', (Swap (j + 1) j :: extra).
        rewrite E, <- app_assoc. split_and!; try done; try lia.
        -- simpl. fold (replay extra (swap (set arr (j + 1) key) (j + 1) j)).
           rewrite Hsw. by replace (j - 1 + 1) with j in Hr by lia.
        -- constructor; [|done]. split; [done|].
           destruct Hv as (Hl & _ & Hkey%get_Some_bounds & _).
           rewrite !len_set in *. repeat constructor; lia.
        -- simpl. lia.
      * exists j, arr, []. rewrite app_nil_r. split_and!; try done; try (simpl; lia).
        intros y. rewrite Hx. by intros [= <-].
    + exists j, arr, []. rewrite app_nil_r. split_and!; try done; try (simpl; lia).
      intros y. by rewrite Hx.
Qed.

(** The outer loop. *)
Lemma insertion_for_spec k i array moves :
  1 ≤ i → k = 0%nat ∨ i + Z.of_nat k ≤ len array → adj_sorted array i →
  ∃ array' extra,
    insertion_for k i array moves = (array', moves ++ extra) ∧
    replay extra array = array' ∧
    array' ≡ₚ array ∧
    adj_sorted array' (i + Z.of_nat k) ∧
    Forall (move_in_bounds (len array)) extra ∧
    2 * Z.of_nat (count_swaps extra) ≤ (i + Z.of_nat k) * (i + Z.of_nat k - 1) - i * (i - 1) ∧
    count_overwrites extra = k.
Proof.
  revert i array moves. induction k as [|k IH]; intros i array moves Hi Hk Hs.
  - exists array, []. simpl. rewrite app_nil_r. split_and!; try done.
    + by replace (i + Z.of_nat 0) with i by lia.
    + unfold count_swaps. simpl. lia.
  - destruct Hk as [|Hk]; [done|].
    destruct (get_is_Some array i) as [key Hkey]; [lia|].
    simpl. rewrite Hkey.
    destruct (insertion_while_spec (Z.to_nat i) (i - 1) key array i array moves)
      as (j' & arr' & extra1 & E & Hj' & Hv & Hlen & Hr & Hexit & Hf & Hcount).
    { lia. } { lia. }
    { replace (i - 1 + 1) with i by lia. rewrite (set_get_id _ _ _ Hkey).
      by apply ins_view_init. }
    { done. }
    rewrite E. set (b := set arr' (j' + 1) key) in *.
    replace (i - 1 + 1) with i in Hr by lia. rewrite (set_get_id _ _ _ Hkey) in Hr.
    assert (adj_sorted b (i + 1)) as Hs'.
    { apply (ins_view_exit array i j' key); [lia|done..|].
      intros x. unfold b. rewrite get_set_ne by lia. apply Hexit. }
    destruct Hv as (Hlenb & Hperm & Hkeyb & Hrest).
    destruct (IH (i + 1) b (moves ++ extra1 ++ [Overwrite (j' + 1) key]))
      as (array' & extra & E' & Hr' & Hp' & Hs'' & Hf' & Hsw' & How'); [lia| |done|].
    { destruct k; [by left|right]. rewrite Hlenb. lia. }
    exists array', (extra1 ++ [Overwrite (j' + 1) key] ++ extra).
    rewrite !app_assoc, <- (app_assoc moves). rewrite E'.
    destruct (count_all_swaps _ _ Hf) as [Hc1 Hc2].
    split_and!.
    + by rewrite <- !app_assoc.
    + rewrite <- app_assoc, replay_app, Hr, replay_app. simpl.
      by rewrite (set_get_id _ _ _ Hkeyb).
    + by rewrite Hp'.
    + by replace (i + Z.of_nat (S k)) with (i + 1 + Z.of_nat k) by lia.
    + rewrite Hlenb in Hf'. rewrite <- app_assoc.
      apply Forall_app. split.
      { eapply Forall_impl; [exact Hf|]. by intros m [_ ?]. }
      apply Forall_app. split; [|done].
      repeat constructor; lia.
    + rewrite !count_swaps_app. unfold count_swaps at 2. simpl. rewrite Hc1. nia.
    + rewrite !count_overwrites_app. unfold count_overwrites at 2. simpl.
      rewrite Hc2, How'. done.
Qed.

Lemma insertionSort_spec (a : list A) :
  let log := insertionSort a in
  Sorted leq (replay log a) ∧ replay log a ≡ₚ a ∧
  Forall (move_in_bounds (len a)) log ∧
  2 * Z.of_nat (count_swaps log) ≤ len a * (len a - 1) ∧
  Z.of_nat (count_overwrites log) ≤ len a.
Proof.
  pose proof (len_nonneg a) as Hn. unfold insertionSort.
  destruct (insertion_for_spec (Z.to_nat (len a - 1)) 1 a [])
    as (array' & extra & E & Hr & Hp & Hs & Hf & Hsw & How); [lia| lia | |].
  { intros t x y Ht Hx. apply get_Some_bounds in Hx. lia. }
  rewrite E. simpl. rewrite Hr. split_and!; try done.
  - apply (adj_sorted_Sorted array' (1 + Z.of_nat (Z.to_nat (len a - 1)))); [|done].
    unfold len in *. rewrite Hp. lia.
  - destruct (decide (len a = 0)) as [E0|]; [|nia].
    rewrite E0 in Hsw. simpl in Hsw. lia.
  - lia.
Qed.
End InsertionFacts.

(** * selectionSort *)

Section SelectionFacts.
Context `{Number A}.
Implicit Types (a array : list A) (moves extra : list (move A)).

Lemma selection_scan_spec k j array i m :
  i < j → is_min array i j m →
  is_min array i (j + Z.of_nat k) (selection_scan k j array m).
Proof.
  revert j m. induction k as [|k IH]; intros j m Hij (Hm1 & Hm2 & Hmin).
  - simpl. replace (j + Z.of_nat 0) with j by lia. done.
  - simpl. replace (j + Z.of_nat (S k)) with (j + 1 + Z.of_nat k) by lia.
    apply IH; [lia|].
    destruct (lessO (get array j) (get array m)) eqn:Hc.
    + destruct (get array j) as [u|] eqn:Hu; [|done].
      destruct (get array m) as [v|] eqn:Hv; [|done]. simpl in Hc.
      split_and!; [lia|lia|]. intros t x y Ht. rewrite Hu. intros [= <-] Hy.
      destruct (decide (t = j)) as [->|].
      * rewrite Hu in Hy. injection Hy as <-. apply leq_refl.
      * apply leq_trans with v; [by apply less_leq|]. apply (Hmin t); [lia|done..].
    + split_and!; [lia|lia|]. intros t x y Ht Hx Hy.
      destruct (decide (t = j)) as [->|]; [|apply (Hmin t); [lia|done..]].
      rewrite Hx, Hy in Hc. done.
Qed.

Lemma selection_for_spec k i array moves :
  0 ≤ i → k = 0%nat ∨ i + Z.of_nat k ≤ len array - 1 → prefix_sorted array i →
  ∃ array' extra,
    selection_for k i array moves = (array', moves ++ extra) ∧
    replay extra array = array' ∧
    array' ≡ₚ array ∧
    prefix_sorted array' (i + Z.of_nat k) ∧
    Forall (λ m, is_swap m = true ∧ move_in_bounds (len array) m) extra ∧
    (length extra ≤ k)%nat.
Proof.
  revert i array moves. induction k as [|k IH]; intros i array moves Hi Hk Hs.
  - exists array, []. simpl. rewrite app_nil_r. split_and!; try done.
    by replace (i + Z.of_nat 0) with i by lia.
  - destruct Hk as [|Hk]; [done|]. simpl.
    set (m := selection_scan _ _ _ _).
    assert (is_min array i (len array) m) as (Hm1 & Hm2 & Hmin).
    { replace (len array) with (i + 1 + Z.of_nat (Z.to_nat (len array - (i + 1)))) at 1 by lia.
      apply selection_scan_spec; [lia|]. split_and!; [lia|by left|].
      intros t x y Ht Hx Hy. replace t with i in Hy by lia.
      rewrite Hx in Hy. injection Hy as <-. apply leq_refl. }
    assert (k = 0%nat ∨ i + 1 + Z.of_nat k ≤ len array - 1) as Hk'.
    { destruct k; [by left|right; lia]. }
    replace (i + Z.of_nat (S k)) with (i + 1 + Z.of_nat k) by lia.
    case_decide as Hne.
    + assert (prefix_sorted (swap array i m) (i + 1)) as Hs'.
      { clearbody m. intros s t x y Hsi Hst. rewrite !get_swap by lia.
        rewrite (decide_False (P:=s = m)) by lia.
        intros Hx Hy.
        assert (∃ t', s ≤ t' ∧ get array t' = Some y) as (t' & Ht' & Hy').
        { destruct (decide (t = m)) as [->|];
            [exists i | destruct (decide (t = i)) as [->|]; [exists m | exists t]];
            split; done || lia. }
        pose proof (get_Some_bounds _ _ _ Hy') as Hb.
        destruct (decide (s = i)) as [->|].
        - apply (Hmin t'); [lia|done..].
        - apply (Hs s t'); [lia|lia|done..]. }
      destruct (IH (i + 1) (swap array i m) (moves ++ [Swap i m]))
        as (array' & extra & E & Hr & Hp & Hs'' & Hf & Hl);
        [lia | by rewrite len_swap | done |].
      exists array', (Swap i m :: extra). rewrite E, <- app_assoc.
      split_and!; try done.
      * by rewrite Hp, swap_perm.
      * rewrite len_swap in Hf. constructor; [|done].
        split; [done|]. repeat constructor; lia.
      * simpl. lia.
    + assert (m = i) as Hmi by lia.
      assert (prefix_sorted array (i + 1)) as Hs'.
      { intros s t x y Hsi Hst Hx Hy.
        destruct (decide (s = i)) as [->|].
        - rewrite Hmi in Hmin. apply (Hmin t); [|done..].
          apply get_Some_bounds in Hy. lia.
        - apply (Hs s t); [lia|lia|done..]. }
      destruct (IH (i + 1) array moves)
        as (array' & extra & E & Hr & Hp & Hs'' & Hf & Hl); [lia|done..|].
      exists array', extra. rewrite E. split_and!; try done. lia.
Qed.

Lemma selectionSort_spec (a : list A) :
  Sorted leq (replay (selectionSort a) a) ∧ replay (selectionSort a) a ≡ₚ a ∧
  Forall (λ m, is_swap m = true ∧ move_in_bounds (len a) m) (selectionSort a) ∧
  2 * Z.of_nat (length (selectionSort a)) ≤ len a * (len a - 1).
Proof.
  pose proof (len_nonneg a) as Hn. unfold selectionSort.
  destruct (selection_for_spec (Z.to_nat (len a - 1)) 0 a [])
    as (array' & extra & E & Hr & Hp & Hs & Hf & Hl); [lia|lia| |].
  { intros s t x y Hs Hst Hx. apply get_Some_bounds in Hx. lia. }
  rewrite E. simpl. rewrite Hr. split_and!; try done.
  - apply Sorted_get. intros t x y Hx Hy.
    pose proof (get_Some_bounds _ _ _ Hy) as Hb.
    assert (len array' = len a) as Hl' by (unfold len; by rewrite Hp).
    apply (Hs (t - 1) t); [lia|lia|done..].
  - nia.
Qed.
End SelectionFacts.

(** * quickSort *)

Section QuickFacts.
Context `{Number A}.
Implicit Types (a array : list A) (moves extra : list (move A)).

Lemma within_refl a lo hi : within a a lo hi.
Proof. unfold within. by split_and!. Qed.

Lemma within_trans a1 a2 a3 lo hi :
  within a1 a2 lo hi → within a2 a3 lo hi → within a1 a3 lo hi.
Proof.
  intros (Hl1 & Hp1 & Ho1 & Hi1) (Hl2 & Hp2 & Ho2 & Hi2). unfold within. split_conj.
  - congruence.
  - by rewrite Hp2.
  - intros t Ht. by rewrite Ho2, Ho1.
  - intros P HP. apply Hi2, Hi1, HP.
Qed.

Lemma within_mono a a' lo hi lo' hi' :
  lo' ≤ lo → hi ≤ hi' → within a a' lo hi → within a a' lo' hi'.
Proof.
  intros Hlo Hhi (Hl & Hp & Ho & Hi). unfold within. split_conj; try done.
  - intros t Ht. apply Ho. lia.
  - intros P HP t x Ht Hx. destruct (decide (lo ≤ t ≤ hi)) as [Hin|Hout].
    + apply (Hi P) with t; [|done..]. intros t' x' Ht'. apply HP. lia.
    + rewrite (Ho t Hout) in Hx. by apply (HP t).
Qed.

Lemma within_swap a lo hi i j :
  0 ≤ i < len a → 0 ≤ j < len a → lo ≤ i ≤ hi → lo ≤ j ≤ hi →
  within a (swap a i j) lo hi.
Proof.
  intros Hi Hj Hil Hjl. unfold within. split_conj.
  - apply len_swap.
  - apply swap_perm.
  - intros t Ht. apply get_swap_ne; lia.
  - intros P HP t x Ht. rewrite get_swap by done.
    repeat case_decide; by apply HP.
Qed.

(** The loop of [partition]: cells [low .. i] are below the pivot and
    cells [i + 1 .. j - 1] are not. *)
Lemma partition_for_spec k j p i array moves low high :
  0 ≤ low → high < len array → low - 1 ≤ i < j → j + Z.of_nat k = high →
  (∀ t x, low ≤ t ≤ i → get array t = Some x → less x p = true) →
  (∀ t x, i < t < j → get array t = Some x → less x p = false) →
  ∃ i' array' extra,
    partition_for k j (Some p) i array moves = (i', array', moves ++ extra) ∧
    low - 1 ≤ i' < high ∧
    replay extra array = array' ∧
    within array array' low (high - 1) ∧
    (∀ t x, low ≤ t ≤ i' → get array' t = Some x → less x p = true) ∧
    (∀ t x, i' < t < high → get array' t = Some x → less x p = false) ∧
    swaps_in_bounds (len array) extra.
Proof.
  revert j i array moves.
  induction k as [|k IH]; intros j i array moves Hlow Hhigh Hij Hk Hlt Hge.
  - exists i, array, []. simpl. rewrite app_nil_r.
    replace high with j by lia.
    split_conj; first [done | lia | apply within_refl | constructor].
  - simpl. destruct (get_is_Some array j) as [u Hu]; [lia|]. rewrite Hu. simpl.
    destruct (less u p) eqn:Hc.
    + destruct (IH (j + 1) (i + 1) (swap array (i + 1) j) (moves ++ [Swap (i + 1) j]))
        as (i' & array' & extra & E & Hi' & Hr & Hw & Hlt' & Hge' & Hf).
      { done. } { by rewrite len_swap. } { lia. } { lia. }
      { intros t x Ht. rewrite get_swap by lia.
        repeat case_decide; subst.
        - replace (i + 1) with j by lia. rewrite Hu. by intros [= <-].
        - rewrite Hu. by intros [= <-].
        - apply Hlt. lia. }
      { intros t x Ht. rewrite get_swap by lia.
        rewrite (decide_False (P:=t = i + 1)) by lia. case_decide; subst.
        - apply Hge. lia.
        - apply Hge. lia. }
      exists i', array', (Swap (i + 1) j :: extra). rewrite E, <- app_assoc.
      rewrite len_swap in Hf.
      split_conj; try done; try lia.
      * eapply within_trans; [|exact Hw]. apply within_swap; lia.
      * constructor; [|done]. split; [done|]. repeat constructor; lia.
    + destruct (IH (j + 1) i array moves)
        as (i' & array' & extra & E & Hi' & Hr & Hw & Hlt' & Hge' & Hf);
        [done|done|lia|lia|done| |].
      { intros t x Ht Hx. destruct (decide (t = j)) as [->|]; [congruence|].
        apply (Hge t); [lia|done]. }
      exists i', array', extra. rewrite E. split_conj; try done; try lia.
Qed.

(** [partition] puts the pivot at the index it returns, with the smaller
    cells before it and no smaller cell after it. *)
Lemma partition_spec array low high moves :
  0 ≤ low → low < high → high < len array →
  ∃ pivotIndex array' extra p,
    partition array low high moves = (pivotIndex, array', moves ++ extra) ∧
    low ≤ pivotIndex ≤ high ∧
    replay extra array = array' ∧
    within array array' low high ∧
    get array' pivotIndex = Some p ∧
    (∀ t x, low ≤ t < pivotIndex → get array' t = Some x → less x p = true) ∧
    (∀ t x, pivotIndex < t ≤ high → get array' t = Some x → less x p = false) ∧
    swaps_in_bounds (len array) extra.
Proof.
  intros Hlow Hlh Hhigh. unfold partition.
  destruct (get_is_Some array high) as [p Hp]; [lia|]. rewrite Hp.
  destruct (partition_for_spec (Z.to_nat (high - low)) low p (low - 1) array moves low high)
    as (i & array1 & extra & E & Hi & Hr & Hw & Hlt & Hge & Hf);
    [done|done|lia|lia|intros; lia|intros; lia|].
  rewrite E. destruct Hw as (Hl1 & Hp1 & Ho1 & Hi1).
  assert (get array1 high = Some p) as Hp' by (rewrite Ho1 by lia; done).
  exists (i + 1), (swap array1 (i + 1) high), (extra ++ [Swap (i + 1) high]), p.
  rewrite <- app_assoc. split_conj; try done; try lia.
  - by rewrite replay_snoc, Hr.
  - apply within_trans with array1.
    + apply within_mono with low (high - 1); [lia|lia|]. by unfold within.
    + apply within_swap; lia.
  - rewrite get_swap_l by lia. done.
  - intros t x Ht. rewrite get_swap_ne by lia. apply Hlt. lia.
  - intros t x Ht. rewrite get_swap by lia. case_decide; subst.
    + destruct (decide (i + 1 = high)) as [Heq|]; [lia|].
      apply Hge. lia.
    + rewrite decide_False by lia. apply Hge. lia.
  - apply Forall_app. split; [done|].
    repeat constructor; lia.
Qed.

Lemma swaps_in_bounds_app n extra1 extra2 :
  swaps_in_bounds n extra1 → swaps_in_bounds n extra2 → swaps_in_bounds n (extra1 ++ extra2).
Proof. intros. by apply Forall_app. Qed.

(** [quickSortHelper] returns when given more fuel than the range is long,
    with the range sorted and the rest of the array as it was. *)
Lemma quickSortHelper_spec n array low high moves :
  0 ≤ low → high < len array → high - low < Z.of_nat n →
  ∃ array' extra,
    (∀ fuel, (n < fuel)%nat →
       quickSortHelper fuel array low high moves = Some (array', moves ++ extra)) ∧
    replay extra array = array' ∧
    within array array' low high ∧
    sorted_on array' low (high + 1) ∧
    swaps_in_bounds (len array) extra.
Proof.
  revert array low high moves.
  induction n as [|n IH]; intros array low high moves Hlow Hhigh Hn;
    (destruct (decide (low < high)) as [Hlh|Hlh]; [|try clear IH]).
  - lia.
  - exists array, []. rewrite app_nil_r.
    split_conj; first [done | apply within_refl | by constructor | idtac].
    + intros [|fuel] ?; [lia|]. simpl. by rewrite decide_False.
    + intros s t x y ??? Hx Hy. replace t with s in Hy by lia.
      rewrite Hx in Hy. injection Hy as <-. apply leq_refl.
  - destruct (partition_spec array low high moves Hlow Hlh Hhigh)
      as (pI & array1 & extra1 & p & E & HpI & Hr1 & Hw1 & Hp & Hlt & Hge & Hf1).
    pose proof Hw1 as (Hl1 & _).
    destruct (IH array1 low (pI - 1) (moves ++ extra1))
      as (array2 & extra2 & Hrun2 & Hr2 & Hw2 & Hs2 & Hf2); [lia..|].
    pose proof Hw2 as (Hl2 & _ & Ho2 & Hi2).
    destruct (IH array2 (pI + 1) high (moves ++ extra1 ++ extra2))
      as (array3 & extra3 & Hrun3 & Hr3 & Hw3 & Hs3 & Hf3); [lia..|].
    pose proof Hw3 as (Hl3 & _ & Ho3 & Hi3).
    exists array3, (extra1 ++ extra2 ++ extra3). split_conj.
    + intros [|fuel] ?; [lia|]. simpl. rewrite decide_True by done. rewrite E.
      rewrite Hrun2 by lia. simpl. rewrite <- app_assoc, Hrun3 by lia.
      by rewrite <- !app_assoc.
    + by rewrite !replay_app, Hr1, Hr2.
    + apply within_trans with array1; [done|].
      apply within_trans with array2; eapply within_mono; try eassumption; lia.
    + assert (∀ t x, low ≤ t < pI → get array3 t = Some x → less x p = true) as Hlt3.
      { intros t x Ht. rewrite Ho3 by lia.
        apply (Hi2 (λ x, less x p = true)); [|lia]. intros t' x' Ht'. apply Hlt. lia. }
      assert (∀ t x, pI < t ≤ high → get array3 t = Some x → less x p = false) as Hge3.
      { intros t x Ht. apply (Hi3 (λ x, less x p = false)); [|lia].
        intros t' x' Ht'. rewrite Ho2 by lia. apply Hge. lia. }
      assert (get array3 pI = Some p) as Hp3.
      { rewrite Ho3 by lia. rewrite Ho2 by lia. done. }
      intros s t x y Hs Hst Ht Hx Hy.
      destruct (decide (t < pI)).
      { apply (Hs2 s t); [lia|lia|lia|..]; by rewrite <- Ho3 by lia. }
      destruct (decide (pI < s)).
      { apply (Hs3 s t); [lia|lia|lia|done..]. }
      assert (leq x p) as Hxp.
      { destruct (decide (s = pI)) as [->|].
        - rewrite Hp3 in Hx. injection Hx as <-. apply leq_refl.
        - apply less_leq, (Hlt3 s); [lia|done]. }
      assert (leq p y) as Hpy.
      { destruct (decide (t = pI)) as [->|].
        - rewrite Hp3 in Hy. injection Hy as <-. apply leq_refl.
        - apply (Hge3 t); [lia|done]. }
      by apply leq_trans with p.
    + rewrite Hl1 in Hf2. rewrite Hl2, Hl1 in Hf3.
      by repeat apply swaps_in_bounds_app.
  - exists array, []. rewrite app_nil_r.
    split_conj; first [done | apply within_refl | by constructor | idtac].
    + intros [|fuel] ?; [lia|]. simpl. by rewrite decide_False.
    + intros s t x y ??? Hx Hy. replace t with s in Hy by lia.
      rewrite Hx in Hy. injection Hy as <-. apply leq_refl.
Qed.

Lemma quickSort_spec (a : list A) :
  ∃ log,
    (∀ fuel, (length a < fuel)%nat → quickSort fuel a = Some log) ∧
    Sorted leq (replay log a) ∧ replay log a ≡ₚ a ∧
    swaps_in_bounds (len a) log.
Proof.
  pose proof (len_nonneg a).
  destruct (quickSortHelper_spec (length a) a 0 (len a - 1) [])
    as (array' & extra & Hrun & Hr & Hw & Hs & Hf); [lia|lia|unfold len; lia|].
  exists extra. destruct Hw as (Hl & Hp & _). split_conj; try done.
  - intros fuel Hfuel. unfold quickSort. by rewrite Hrun.
  - rewrite Hr. apply sorted_on_Sorted.
    intros i j x y ?????. apply (Hs i j); try done; lia.
  - by rewrite Hr.
Qed.
End QuickFacts.

(** * heapSort *)

Section HeapFacts.
Context `{Number A}.
Implicit Types (a array : list A) (moves extra : list (move A)).

(** The choice of [largest]: either the node dominates its children, or
    [largest] is a child that is greater than the node and dominates the
    other child. *)
Lemma heapify_largest_spec a i max v :
  0 ≤ i → max ≤ len a → get a i = Some v →
  let l := heapify_largest a i max in
  (l = i ∧ children_le a max i v) ∨
  (∃ w, l ≠ i ∧ (l = 2 * i + 1 ∨ l = 2 * i + 2) ∧ l < max ∧ get a l = Some w ∧
        less v w = true ∧ children_le a max i w).
Proof.
  intros Hi Hmax Hv. unfold heapify_largest. cbv zeta.
  destruct (decide (2 * i + 1 < max)) as [Hl|Hl].
  - destruct (get_is_Some a (2 * i + 1)) as [u Hu]; [lia|].
    rewrite (bool_decide_eq_true_2 _ Hl), Hv, Hu. simpl.
    destruct (less v u) eqn:Hvu.
    + destruct (decide (2 * i + 2 < max)) as [Hr|Hr].
      * destruct (get_is_Some a (2 * i + 2)) as [r Hr']; [lia|].
        rewrite (bool_decide_eq_true_2 _ Hr), Hu, Hr'. simpl.
        destruct (less u r) eqn:Hur.
        -- right. exists r. split_conj; [lia|by right|done|done| |].
           ++ by apply less_trans with u.
           ++ intros c x [->| ->] _ Hx; rewrite Hx in *; simplify_eq.
              ** by apply less_leq.
              ** apply leq_refl.
        -- right. exists u. split_conj; [lia|by left|done|done|done|].
           intros c x [->| ->] _ Hx; rewrite Hx in *; simplify_eq.
           ** apply leq_refl.
           ** done.
      * rewrite (bool_decide_eq_false_2 _ Hr). simpl.
        right. exists u. split_conj; [lia|by left|done|done|done|].
        intros c x [->| ->] ? Hx; [|lia]. rewrite Hx in *. simplify_eq. apply leq_refl.
    + destruct (decide (2 * i + 2 < max)) as [Hr|Hr].
      * destruct (get_is_Some a (2 * i + 2)) as [r Hr']; [lia|].
        rewrite (bool_decide_eq_true_2 _ Hr), Hv, Hr'. simpl.
        destruct (less v r) eqn:Hvr.
        -- right. exists r. split_conj; [lia|by right|done|done|done|].
           intros c x [->| ->] _ Hx; rewrite Hx in *; simplify_eq.
           ** apply leq_trans with v; [done|by apply less_leq].
           ** apply leq_refl.
        -- left. split; [done|].
           intros c x [->| ->] _ Hx; rewrite Hx in *; by simplify_eq.
      * rewrite (bool_decide_eq_false_2 _ Hr). simpl. left. split; [done|].
        intros c x [->| ->] ? Hx; [|lia]. rewrite Hx in *. by simplify_eq.
  - rewrite (bool_decide_eq_false_2 _ Hl). simpl.
    rewrite bool_decide_eq_false_2 by lia. simpl. left. split; [done|].
    intros c x [->| ->] ?; lia.
Qed.

(** Sift-down: if only node [i] may fail to dominate its children, and the
    children of [i] are dominated by the parent of [i], then [heapify]
    returns with a heap. *)
Lemma heapify_spec n array lo i max moves :
  0 ≤ lo ≤ i → i < max → max ≤ len array → max - i ≤ Z.of_nat n →
  (∀ q v, lo ≤ q → q ≠ i → get array q = Some v → children_le array max q v) →
  (∀ q v, lo ≤ q → i = 2 * q + 1 ∨ i = 2 * q + 2 → get array q = Some v →
          children_le array max i v) →
  ∃ array' extra,
    (∀ fuel, (n ≤ fuel)%nat →
       heapify fuel array i max moves = Some (array', moves ++ extra)) ∧
    replay extra array = array' ∧
    within array array' i (max - 1) ∧
    heap_from array' lo max ∧
    swaps_in_bounds (len array) extra.
Proof.
  revert array i moves.
  induction n as [|n IH]; intros array i moves Hlo Hi Hmax Hn H1 H2; [lia|].
  destruct (get_is_Some array i) as [v Hv]; [lia|].
  destruct (heapify_largest_spec array i max v) as [[Hl Hc]|(w & Hl & Hchild & Hlmax & Hw & Hvw & Hc)];
    [lia|done|done|..].
  - exists array, []. rewrite app_nil_r.
    split_conj; first [done | apply within_refl | by constructor | idtac].
    + intros [|fuel] ?; [lia|]. simpl. rewrite Hl. by rewrite decide_False by auto.
    + intros q u Hq Hu. destruct (decide (q = i)) as [->|]; [|by apply H1].
      rewrite Hv in Hu. by injection Hu as <-.
  - set (l := heapify_largest array i max) in *.
    assert (i < l) as Hil by lia.
    destruct (IH (swap array i l) l (moves ++ [Swap i l]))
      as (array' & extra & Hrun & Hr & Hw' & Hheap & Hf).
    { lia. } { lia. } { by rewrite len_swap. } { lia. }
    { intros q u Hq Hql Hu c x Hcq Hcmax Hx.
      rewrite get_swap in Hu by lia. rewrite get_swap in Hx by lia.
      rewrite (decide_False (P:=q = l)) in Hu by done.
      destruct (decide (q = i)) as [->|Hqi].
      - rewrite Hw in Hu. injection Hu as <-.
        destruct (decide (c = l)) as [->|Hcl].
        + rewrite Hv in Hx. injection Hx as <-. by apply less_leq.
        + rewrite decide_False in Hx by lia. by apply (Hc c).
      - rewrite decide_False in Hx by lia.
        destruct (decide (c = i)) as [->|Hci].
        + rewrite Hw in Hx. injection Hx as <-.
          by apply (H2 q u Hq Hcq Hu l w Hchild Hlmax).
        + by apply (H1 q u Hq Hqi Hu c x). }
    { intros q u Hq Hql Hu c x Hcl Hcmax.
      assert (q = i) as -> by lia.
      rewrite get_swap_l in Hu by lia. rewrite Hw in Hu. injection Hu as <-.
      rewrite get_swap_ne by lia. apply (H1 l w); [lia|lia|done..]. }
    exists array', (Swap i l :: extra). rewrite len_swap in Hf.
    split_conj; try done.
    + intros [|fuel] ?; [lia|]. simpl. fold l. rewrite decide_True by done.
      rewrite Hrun by lia. by rewrite <- app_assoc.
    + apply within_trans with (swap array i l).
      * apply within_swap; lia.
      * eapply within_mono; [| |exact Hw']; lia.
    + constructor; [|done]. split; [done|]. repeat constructor; lia.
Qed.

(** The root of a heap holds a greatest value. *)
Lemma heap_root_max a max t x r :
  heap_from a 0 max → 0 ≤ t < max → get a t = Some x → get a 0 = Some r → leq x r.
Proof.
  intros Hheap Ht Hx Hr. assert (0 ≤ t) as Ht0 by lia. revert x Ht Hx.
  pattern t. apply Z_lt_induction; [|done]. clear t Ht0. intros t IH x Ht Hx.
  destruct (decide (t = 0)) as [->|].
  - rewrite Hr in Hx. injection Hx as <-. apply leq_refl.
  - pose proof (get_Some_bounds _ _ _ Hx).
    destruct (get_is_Some a ((t - 1) / 2)) as [u Hu].
    { split; [apply Z.div_pos; lia|]. assert ((t - 1) / 2 ≤ t - 1); [|lia].
      apply Z.div_le_upper_bound; lia. }
    assert (t = 2 * ((t - 1) / 2) + 1 ∨ t = 2 * ((t - 1) / 2) + 2) as Hpar.
    { pose proof (Z.div_mod (t - 1) 2 ltac:(lia)).
      pose proof (Z.mod_pos_bound (t - 1) 2 ltac:(lia)). lia. }
    apply leq_trans with u.
    + apply (Hheap ((t - 1) / 2) u ltac:(lia) Hu t x); [done|lia|done].
    + apply (IH ((t - 1) / 2)); [lia|lia|done].
Qed.

Lemma within_len a a' lo hi : within a a' lo hi → len a' = len a.
Proof. by intros (? & _). Qed.

Lemma within_perm a a' lo hi : within a a' lo hi → a' ≡ₚ a.
Proof. by intros (_ & ? & _). Qed.

Lemma buildMaxHeap_for_spec k i array moves :
  Z.of_nat k = i + 1 → i < len array → heap_from array (i + 1) (len array) →
  ∃ array' extra,
    (∀ fuel, (length array ≤ fuel)%nat →
       buildMaxHeap_for fuel k i array moves = Some (array', moves ++ extra)) ∧
    replay extra array = array' ∧
    array' ≡ₚ array ∧
    heap_from array' 0 (len array) ∧
    swaps_in_bounds (len array) extra.
Proof.
  revert i array moves. induction k as [|k IH]; intros i array moves Hk Hi Hheap.
  - exists array, []. rewrite app_nil_r.
    split_conj; first [done | by constructor | idtac].
    by replace 0 with (i + 1) by lia.
  - destruct (heapify_spec (length array) array i i (len array) moves)
      as (array1 & extra1 & Hrun1 & Hr1 & Hw1 & Hheap1 & Hf1).
    { lia. } { lia. } { lia. } { unfold len. lia. }
    { intros q v Hq Hqi. apply Hheap. lia. }
    { intros q v Hq Hqi. lia. }
    pose proof (within_len _ _ _ _ Hw1) as Hl1.
    pose proof (within_perm _ _ _ _ Hw1) as Hp1.
    destruct (IH (i - 1) array1 (moves ++ extra1))
      as (array' & extra & Hrun & Hr & Hp & Hheap' & Hf).
    { lia. } { lia. }
    { rewrite Hl1. by replace (i - 1 + 1) with i by lia. }
    exists array', (extra1 ++ extra). rewrite Hl1 in *.
    split_conj; try done.
    + intros fuel Hfuel. simpl. rewrite Hrun1 by done. simpl.
      rewrite Hrun by (rewrite Hp1; done). by rewrite app_assoc.
    + by rewrite replay_app, Hr1.
    + by rewrite Hp.
    + by apply swaps_in_bounds_app.
Qed.

Lemma buildMaxHeap_spec array moves :
  ∃ array' extra,
    (∀ fuel, (length array ≤ fuel)%nat →
       buildMaxHeap fuel array moves = Some (array', moves ++ extra)) ∧
    replay extra array = array' ∧
    array' ≡ₚ array ∧
    heap_from array' 0 (len array) ∧
    swaps_in_bounds (len array) extra.
Proof.
  pose proof (len_nonneg array) as Hn. unfold buildMaxHeap.
  assert (0 ≤ len array / 2) by (apply Z.div_pos; lia).
  assert (len array / 2 ≤ len array) by (apply Z.div_le_upper_bound; lia).
  assert (len array < 2 * (len array / 2) + 2).
  { pose proof (Z.div_mod (len array) 2 ltac:(lia)).
    pose proof (Z.mod_pos_bound (len array) 2 ltac:(lia)). lia. }
  destruct (decide (len array = 0)) as [E0|].
  - rewrite E0. simpl. exists array, []. rewrite app_nil_r.
    split_conj; first [done | by constructor | idtac].
    intros q v _ Hv. apply get_Some_bounds in Hv. lia.
  - apply buildMaxHeap_for_spec; [lia|lia|].
    intros q v Hq Hv c x Hc Hcmax. lia.
Qed.

(** The extraction loop: a heap on the cells [0 .. end], the cells after
    [end] sorted and not below any cell of the heap. *)
Lemma heapSort_for_spec k end_ array moves :
  Z.of_nat k = end_ → end_ < len array →
  heap_from array 0 (end_ + 1) →
  sorted_on array (end_ + 1) (len array) →
  (∀ s t x y, s ≤ end_ < t → get array s = Some x → get array t = Some y → leq x y) →
  ∃ array' extra,
    (∀ fuel, (length array ≤ fuel)%nat →
       heapSort_for fuel k end_ array moves = Some (array', moves ++ extra)) ∧
    replay extra array = array' ∧
    array' ≡ₚ array ∧
    sorted_on array' 0 (len array) ∧
    swaps_in_bounds (len array) extra.
Proof.
  revert end_ array moves.
  induction k as [|k IH]; intros e array moves Hk He Hheap Hsorted Hsplit.
  - exists array, []. rewrite app_nil_r.
    split_conj; first [done | by constructor | idtac].
    intros s t x y Hs Hst Ht Hx Hy.
    destruct (decide (t = 0)) as [->|].
    + replace s with 0 in Hx by lia. rewrite Hx in Hy. injection Hy as <-. apply leq_refl.
    + destruct (decide (s = 0)) as [->|].
      * apply (Hsplit 0 t); [lia|done..].
      * apply (Hsorted s t); [lia|lia|lia|done..].
  - destruct (get_is_Some array 0) as [r Hr0]; [lia|].
    set (a1 := swap array 0 e).
    assert (len a1 = len array) as Hl1 by apply len_swap.
    destruct (heapify_spec (length array) a1 0 0 e (moves ++ [Swap 0 e]))
      as (a2 & extra2 & Hrun2 & Hr2 & Hw2 & Hheap2 & Hf2).
    { lia. } { lia. } { lia. } { unfold len in *. lia. }
    { intros q v Hq Hq0 Hv c x Hc Hcmax Hx. unfold a1 in Hv, Hx.
      rewrite get_swap_ne in Hv by lia. rewrite get_swap_ne in Hx by lia.
      apply (Hheap q v ltac:(lia) Hv c x); [done|lia|done]. }
    { intros q v Hq Hq0. lia. }
    pose proof Hw2 as (Hl2 & Hp2 & Ho2 & Hi2).
    assert (∀ t x, 0 ≤ t ≤ e → get array t = Some x → leq x r) as Hmax.
    { intros t x Ht Hx. apply (heap_root_max array (e + 1) t); [done|lia|done..]. }
    destruct (IH (e - 1) a2 (moves ++ [Swap 0 e] ++ extra2))
      as (array' & extra & Hrun & Hr & Hp & Hs & Hf).
    { lia. } { lia. }
    { by replace (e - 1 + 1) with e by lia. }
    { replace (e - 1 + 1) with e by lia. intros s t x y Hs Hst Ht.
      rewrite !Ho2 by lia. unfold a1. rewrite !get_swap by lia.
      rewrite (decide_False (P:=s = 0)) by lia. rewrite (decide_False (P:=t = 0)) by lia.
      intros Hx Hy. destruct (decide (t = e)) as [->|].
      - rewrite decide_True in Hx by lia. rewrite Hx in Hy. injection Hy as <-. apply leq_refl.
      - destruct (decide (s = e)) as [->|].
        + apply (Hsplit 0 t); [lia|done..].
        + apply (Hsorted s t); [lia|lia|lia|done..]. }
    { intros s t x y Hst Hx. pose proof (get_Some_bounds _ _ _ Hx).
      rewrite Ho2 by lia. unfold a1. rewrite get_swap by lia.
      rewrite (decide_False (P:=t = 0)) by lia. intros Hy. revert Hx.
      apply (Hi2 (λ x, leq x y)); [|lia].
      intros t' x' Ht'. unfold a1. rewrite get_swap by lia. intros Hx'.
      assert (∃ t'', 0 ≤ t'' ≤ e ∧ get array t'' = Some x') as (t'' & Ht'' & Hx'').
      { destruct (decide (t' = e)) as [->|];
          [exists 0 | destruct (decide (t' = 0)) as [->|]; [exists e | exists t']];
          split; done || lia. }
      clear Hx'. destruct (decide (t = e)) as [->|].
      - rewrite Hr0 in Hy. injection Hy as <-. by apply (Hmax t'').
      - apply (Hsplit t'' t); [lia|done..]. }
    exists array', (Swap 0 e :: extra2 ++ extra).
    rewrite Hl2, Hl1 in *. split_conj; try done.
    + intros fuel Hfuel. simpl. fold a1. rewrite Hrun2 by done. simpl.
      rewrite <- app_assoc, Hrun; [|unfold len in *; lia]. by rewrite <- !app_assoc.
    + change (replay (extra2 ++ extra) a1 = array'). by rewrite replay_app, Hr2.
    + rewrite Hp, Hp2. apply swap_perm.
    + constructor; [split; [done|]; repeat constructor; lia|].
      by apply swaps_in_bounds_app.
Qed.

Lemma heapSort_spec (a : list A) :
  ∃ log,
    (∀ fuel, (length a ≤ fuel)%nat → heapSort fuel a = Some log) ∧
    Sorted leq (replay log a) ∧ replay log a ≡ₚ a ∧
    swaps_in_bounds (len a) log.
Proof.
  pose proof (len_nonneg a) as Hn.
  destruct (buildMaxHeap_spec a []) as (a1 & extra1 & Hrun1 & Hr1 & Hp1 & Hheap1 & Hf1).
  assert (len a1 = len a) as Hl1 by (unfold len; by rewrite Hp1).
  destruct (decide (len a = 0)) as [E0|].
  - exists extra1. split_conj; try done.
    + intros fuel Hfuel. unfold heapSort. rewrite Hrun1 by done. simpl.
      rewrite Hl1, E0. done.
    + rewrite Hr1. apply sorted_on_Sorted. intros i j x y ??? Hx.
      apply get_Some_bounds in Hx. lia.
    + by rewrite Hr1.
  - destruct (heapSort_for_spec (Z.to_nat (len a1 - 1)) (len a1 - 1) a1 extra1)
      as (a2 & extra2 & Hrun2 & Hr2 & Hp2 & Hs2 & Hf2).
    { lia. } { lia. }
    { replace (len a1 - 1 + 1) with (len a1) by lia. by rewrite Hl1. }
    { intros i j x y ??? Hx Hy. apply get_Some_bounds in Hy. lia. }
    { intros s t x y ? Hx Hy. apply get_Some_bounds in Hy. lia. }
    exists (extra1 ++ extra2). rewrite Hl1 in *. split_conj.
    + intros fuel Hfuel. unfold heapSort. rewrite Hrun1 by done. simpl.
      rewrite Hl1, Hrun2; [done|]. by rewrite Hp1.
    + rewrite replay_app, Hr1, Hr2. apply sorted_on_Sorted.
      assert (len a2 = len a) as -> by (unfold len; by rewrite Hp2, Hp1). done.
    + by rewrite replay_app, Hr1, Hr2, Hp2.
    + by apply swaps_in_bounds_app.
Qed.
(** [largest] is the node itself or one of its two children below [max]; a
    child is chosen only when a comparison of two cells of the array came
    out true, so both the node and the child are cells of the array. *)
Lemma heapify_largest_cases array i max :
  heapify_largest array i max = i ∨
  ((heapify_largest array i max = 2 * i + 1 ∨ heapify_largest array i max = 2 * i + 2) ∧
   heapify_largest array i max < max ∧
   is_Some (get array i) ∧ is_Some (get array (heapify_largest array i max))).
Proof.
  unfold heapify_largest. cbv zeta.
  destruct (decide (2 * i + 1 < max)) as [Hl|Hl];
    [rewrite (bool_decide_eq_true_2 _ Hl)|rewrite (bool_decide_eq_false_2 _ Hl)];
    (destruct (decide (2 * i + 2 < max)) as [Hr|Hr];
     [rewrite (bool_decide_eq_true_2 _ Hr)|rewrite (bool_decide_eq_false_2 _ Hr)]);
    simpl; try lia; try (by left).
  - destruct (lessO (get array i) (get array (2 * i + 1))) eqn:E1.
    + assert (is_Some (get array i) ∧ is_Some (get array (2 * i + 1))) as [? ?].
      { destruct (get array i), (get array (2 * i + 1)); by eauto. }
      destruct (lessO (get array (2 * i + 1)) (get array (2 * i + 2))) eqn:E2.
      * right. split_conj; [by right|done|done|].
        destruct (get array (2 * i + 1)), (get array (2 * i + 2)); by eauto.
      * right. by split_conj; [left|..].
    + destruct (lessO (get array i) (get array (2 * i + 2))) eqn:E2; [|by left].
      right. split_conj; [by right|done|..];
        destruct (get array i), (get array (2 * i + 2)); by eauto.
  - destruct (lessO (get array i) (get array (2 * i + 1))) eqn:E1; [|by left].
    right. split_conj; [by left|done|..];
      destruct (get array i), (get array (2 * i + 1)); by eauto.
Qed.

(** [heapify] returns on every array, heap or not: where the recursion
    goes on, [largest] is a child of the node, so the node index grows and
    stays below [max].  The cells it changes are the node and cells from
    its left child on. *)
Lemma heapify_returns n array i max moves :
  0 ≤ i → max - i ≤ Z.of_nat n →
  ∃ array' extra,
    (∀ fuel, (n < fuel)%nat →
       heapify fuel array i max moves = Some (array', moves ++ extra)) ∧
    replay extra array = array' ∧
    (∀ t, t ≠ i → t < 2 * i + 1 → get array' t = get array t).
Proof.
  revert array i moves. induction n as [|n IH]; intros array i moves Hi Hn.
  - exists array, []. rewrite app_nil_r. split_conj; [|done..].
    intros [|fuel] ?; [lia|]. simpl.
    destruct (heapify_largest_cases array i max) as [Hl|(Hc & Hmax & _)]; [|lia].
    rewrite Hl. by rewrite decide_False by auto.
  - destruct (heapify_largest_cases array i max) as [Hl|(Hc & Hmax & Hsi & Hsl)].
    + exists array, []. rewrite app_nil_r. split_conj; [|done..].
      intros [|fuel] ?; [lia|]. simpl. rewrite Hl. by rewrite decide_False by auto.
    + set (l := heapify_largest array i max) in *.
      destruct (IH (swap array i l) l (moves ++ [Swap i l]))
        as (array' & extra & Hrun & Hr & Hsame); [lia|lia|].
      exists array', (Swap i l :: extra). split_conj.
      * intros [|fuel] ?; [lia|]. simpl. fold l. rewrite decide_True by lia.
        rewrite Hrun by lia. by rewrite <- app_assoc.
      * done.
      * intros t Hti Ht. rewrite Hsame by lia. apply get_swap_ne; lia.
Qed.
End HeapFacts.

(** * mergeSort *)

Section MergeFacts.
Context `{Number A}.
Implicit Types (a array left right side vals : list A).
Implicit Types (moves extra : list (move A)).

Lemma overwrites_from_app oi vals1 vals2 :
  overwrites_from oi (vals1 ++ vals2) =
  overwrites_from oi vals1 ++ overwrites_from (oi + len vals1) vals2.
Proof.
  revert oi. induction vals1 as [|v vals1 IH]; intros oi; simpl.
  - f_equal. unfold len. simpl. lia.
  - rewrite IH. do 3 f_equal. rewrite len_cons. lia.
Qed.

Lemma get_drop_cons side index v :
  get side index = Some v →
  drop (Z.to_nat index) side = v :: drop (Z.to_nat (index + 1)) side.
Proof.
  intros Hv. pose proof (get_Some_bounds _ _ _ Hv).
  unfold get in Hv. rewrite decide_True in Hv by lia.
  replace (Z.to_nat (index + 1)) with (S (Z.to_nat index)) by lia.
  by apply drop_S.
Qed.

Lemma get_none_drop side index :
  0 ≤ index → get side index = None → drop (Z.to_nat index) side = [].
Proof.
  intros Hi Hn. apply drop_ge.
  destruct (decide (index < len side)) as [Hlt|Hge]; [|unfold len in *; lia].
  destruct (get_is_Some side index) as [? E]; [lia|congruence].
Qed.

(** A copy loop writes what is left of its side. *)
Lemma merge_rest_spec k side index oi orig moves :
  0 ≤ index → len side - index ≤ Z.of_nat k →
  let rest := drop (Z.to_nat index) side in
  merge_rest k side index oi orig moves =
    (oi + len rest, replay (overwrites_from oi rest) orig,
     moves ++ overwrites_from oi rest).
Proof.
  revert index oi orig moves.
  induction k as [|k IH]; intros index oi orig moves Hi Hk; simpl.
  - rewrite drop_ge by (unfold len in *; lia). simpl.
    rewrite app_nil_r. do 2 f_equal. unfold len. simpl. lia.
  - destruct (get side index) as [v|] eqn:Hv.
    + rewrite (get_drop_cons _ _ _ Hv). rewrite IH by lia. simpl.
      rewrite len_cons, <- app_assoc. simpl. do 2 f_equal. lia.
    + rewrite (get_none_drop _ _ Hi Hv). simpl.
      rewrite app_nil_r. do 2 f_equal. unfold len. simpl. lia.
Qed.

(** The first loop stops because its condition fails, not for lack of [k]:
    on leaving it one of the two sides is used up. *)
Lemma merge_both_exit k left right leftIndex rightIndex oi orig moves :
  0 ≤ leftIndex ≤ len left → 0 ≤ rightIndex ≤ len right →
  (len left - leftIndex) + (len right - rightIndex) ≤ Z.of_nat k →
  let '(leftIndex', rightIndex', _, _, _) :=
    merge_both k left right leftIndex rightIndex oi orig moves in
  ¬ (leftIndex' < len left ∧ rightIndex' < len right).
Proof.
  revert leftIndex rightIndex oi orig moves.
  induction k as [|k IH]; intros li ri oi orig moves Hli Hri Hk; simpl; [lia|].
  destruct (get left li) as [l|] eqn:Hl.
  - destruct (get right ri) as [r|] eqn:Hr.
    + apply get_Some_bounds in Hl, Hr.
      destruct (less l r); apply IH; lia.
    + intros [_ ?]. destruct (get_is_Some right ri) as [? E]; [lia|congruence].
  - intros [? _]. destruct (get_is_Some left li) as [? E]; [lia|congruence].
Qed.

(** The three loops of [merge] together write [merge_vals]. *)
Lemma merge_loops_spec k left right leftIndex rightIndex oi orig moves :
  0 ≤ leftIndex → 0 ≤ rightIndex →
  let vals := merge_vals k (drop (Z.to_nat leftIndex) left)
                (drop (Z.to_nat rightIndex) right) in
  let '(leftIndex', rightIndex', oi1, array1, moves1) :=
    merge_both k left right leftIndex rightIndex oi orig moves in
  let '(oi2, array2, moves2) :=
    merge_rest (length left) left leftIndex' oi1 array1 moves1 in
  let '(oi3, array3, moves3) :=
    merge_rest (length right) right rightIndex' oi2 array2 moves2 in
  (array3, moves3) =
    (replay (overwrites_from oi vals) orig, moves ++ overwrites_from oi vals).
Proof.
  revert leftIndex rightIndex oi orig moves.
  assert (∀ k leftIndex rightIndex oi orig moves,
    0 ≤ leftIndex → 0 ≤ rightIndex →
    merge_vals k (drop (Z.to_nat leftIndex) left) (drop (Z.to_nat rightIndex) right) =
      drop (Z.to_nat leftIndex) left ++ drop (Z.to_nat rightIndex) right →
    let '(oi2, array2, moves2) :=
      merge_rest (length left) left leftIndex oi orig moves in
    let '(oi3, array3, moves3) :=
      merge_rest (length right) right rightIndex oi2 array2 moves2 in
    (array3, moves3) =
      (replay (overwrites_from oi
         (merge_vals k (drop (Z.to_nat leftIndex) left) (drop (Z.to_nat rightIndex) right)))
         orig,
       moves ++ overwrites_from oi
         (merge_vals k (drop (Z.to_nat leftIndex) left) (drop (Z.to_nat rightIndex) right))))
    as Hrest.
  { clear k. intros k li ri oi orig moves Hli Hri ->.
    rewrite merge_rest_spec by (unfold len; lia).
    rewrite merge_rest_spec by (unfold len; lia).
    by rewrite overwrites_from_app, replay_app, app_assoc. }
  induction k as [|k IH]; intros li ri oi orig moves Hli Hri.
  - simpl. by apply (Hrest 0%nat).
  - simpl. destruct (get left li) as [l|] eqn:Hl.
    + destruct (get right ri) as [r|] eqn:Hr.
      * rewrite (get_drop_cons _ _ _ Hl), (get_drop_cons _ _ _ Hr).
        destruct (less l r) eqn:Hlr.
        -- specialize (IH (li + 1) ri (oi + 1) (set orig oi l) (moves ++ [Overwrite oi l])
                         ltac:(lia) Hri).
           rewrite (get_drop_cons _ _ _ Hr) in IH.
           destruct (merge_both _ _ _ _ _ _ _ _) as [[[[li' ri'] oi1] array1] moves1].
           destruct (merge_rest _ _ _ _ _ _) as [[oi2 array2] moves2].
           destruct (merge_rest _ _ _ _ _ _) as [[oi3 array3] moves3].
           rewrite IH. simpl. by rewrite <- app_assoc.
        -- specialize (IH li (ri + 1) (oi + 1) (set orig oi r) (moves ++ [Overwrite oi r])
                         Hli ltac:(lia)).
           rewrite (get_drop_cons _ _ _ Hl) in IH.
           destruct (merge_both _ _ _ _ _ _ _ _) as [[[[li' ri'] oi1] array1] moves1].
           destruct (merge_rest _ _ _ _ _ _) as [[oi2 array2] moves2].
           destruct (merge_rest _ _ _ _ _ _) as [[oi3 array3] moves3].
           rewrite IH. simpl. by rewrite <- app_assoc.
      * apply (Hrest (S k)); [done..|].
        rewrite (get_none_drop _ _ Hri Hr). by destruct (drop _ left).
    + apply (Hrest (S k)); [done..|].
      by rewrite (get_none_drop _ _ Hli Hl).
Qed.

Lemma merge_spec left right originalArray moves :
  let vals := merge_vals (length left + length right) left right in
  merge left right originalArray moves =
    (replay (overwrites_from 0 vals) originalArray, moves ++ overwrites_from 0 vals).
Proof.
  unfold merge.
  pose proof (merge_loops_spec (length left + length right) left right 0 0 0
                originalArray moves ltac:(done) ltac:(done)) as Hm.
  simpl in Hm.
  destruct (merge_both _ _ _ _ _ _ _ _) as [[[[li' ri'] oi1] array1] moves1].
  destruct (merge_rest _ _ _ _ _ _) as [[oi2 array2] moves2].
  destruct (merge_rest _ _ _ _ _ _) as [[oi3 array3] moves3].
  exact Hm.
Qed.

Lemma merge_vals_perm k l r : merge_vals k l r ≡ₚ l ++ r.
Proof.
  revert l r. induction k as [|k IH]; intros l r; [by destruct l, r|].
  destruct l as [|x l]; [done|]. destruct r as [|y r]; [done|]. simpl.
  destruct (less x y).
  - by rewrite IH.
  - rewrite IH. by rewrite (Permutation_middle (x :: l) r y).
Qed.

Lemma merge_vals_sorted k l r :
  (length l + length r ≤ k)%nat →
  StronglySorted leq l → StronglySorted leq r → StronglySorted leq (merge_vals k l r).
Proof.
  revert l r. induction k as [|k IH]; intros l r Hk Hl Hr.
  { destruct l, r; simpl in *; try lia. constructor. }
  destruct l as [|x l]; [done|].
  destruct r as [|y r]; [simpl; by rewrite app_nil_r|]. simpl.
  pose proof (StronglySorted_inv Hl) as [Hl' Hxl].
  pose proof (StronglySorted_inv Hr) as [Hr' Hyr].
  destruct (less x y) eqn:Hxy.
  - constructor; [apply IH; simpl in *; [lia|done..]|].
    rewrite merge_vals_perm. apply Forall_app. split; [done|].
    assert (leq x y) as Hle by (by apply less_leq).
    constructor; [done|]. eapply Forall_impl; [exact Hyr|].
    intros z Hz. by apply leq_trans with y.
  - constructor; [apply IH; simpl in *; [lia|done..]|].
    rewrite merge_vals_perm. apply Forall_app. split; [|done].
    constructor; [done|]. eapply Forall_impl; [exact Hxl|].
    intros z Hz. by apply leq_trans with x.
Qed.

Lemma get_replay_overwrites oi vals b t :
  0 ≤ oi → oi + len vals ≤ len b →
  get (replay (overwrites_from oi vals) b) t =
    if decide (oi ≤ t < oi + len vals) then get vals (t - oi) else get b t.
Proof.
  revert oi b. induction vals as [|v vals IH]; intros oi b Hoi Hlen.
  - simpl. rewrite decide_False; [done|]. unfold len. simpl. lia.
  - rewrite len_cons in *. simpl.
    change (get (replay (overwrites_from (oi + 1) vals) (set b oi v)) t =
            if decide (oi ≤ t < oi + (len vals + 1)) then get (v :: vals) (t - oi)
            else get b t).
    pose proof (len_nonneg vals).
    rewrite IH by (rewrite ?len_set; lia).
    destruct (decide (t = oi)) as [->|].
    + rewrite decide_False by lia. rewrite decide_True by lia.
      rewrite get_set_eq by lia. by replace (oi - oi) with 0 by lia.
    + rewrite get_set_ne by done. repeat case_decide; try lia; [|done].
      rewrite get_cons_pos by lia. f_equal. lia.
Qed.

(** Overwriting every cell leaves exactly the values written. *)
Lemma replay_overwrites_all vals b :
  len b = len vals → replay (overwrites_from 0 vals) b = vals.
Proof.
  intros Hlen. apply array_eq. intros t.
  rewrite get_replay_overwrites by lia. case_decide as Ht.
  - f_equal. lia.
  - rewrite !get_None; [done|lia|lia].
Qed.

Lemma overwrites_in_bounds oi vals n :
  0 ≤ oi → oi + len vals ≤ n → Forall (move_in_bounds n) (overwrites_from oi vals).
Proof.
  revert oi. induction vals as [|v vals IH]; intros oi Hoi Hn; [constructor|].
  rewrite len_cons in Hn. pose proof (len_nonneg vals). simpl. constructor.
  - repeat constructor; lia.
  - apply IH; lia.
Qed.

Lemma move_in_bounds_mono (n n' : Z) (log : list (move A)) :
  n ≤ n' → Forall (move_in_bounds n) log → Forall (move_in_bounds n') log.
Proof.
  intros Hn Hf. eapply Forall_impl; [exact Hf|]. intros m Hm.
  unfold move_in_bounds in *. eapply Forall_impl; [exact Hm|]. intros; simpl in *; lia.
Qed.

Lemma len_perm a b : a ≡ₚ b → len a = len b.
Proof. intros Hp. unfold len. by rewrite Hp. Qed.

(** [mergeSort] returns the sorted array; the log it has pushed, replayed
    on the array it was given, ends with the overwrites of the last merge,
    which write every cell. *)
Lemma mergeSort_spec n array moves :
  (length array ≤ n)%nat →
  ∃ sorted extra,
    (∀ fuel, (n < fuel)%nat → mergeSort fuel array moves = Some (sorted, moves ++ extra)) ∧
    StronglySorted leq sorted ∧
    sorted ≡ₚ array ∧
    replay extra array = sorted ∧
    Forall (move_in_bounds (len array)) extra ∧
    count_swaps extra = 0%nat.
Proof.
  revert array moves. induction n as [|n IH]; intros array moves Hn;
    (destruct (decide (len array ≤ 1)) as [Hle|Hgt]; [try clear IH|]).
  - exists array, []. rewrite app_nil_r. split_conj; try done.
    + intros [|fuel] ?; [lia|]. simpl. by rewrite decide_True.
    + destruct array as [|x [|y array]]; [constructor|repeat constructor|].
      rewrite !len_cons in Hle. pose proof (len_nonneg array). lia.
  - unfold len in Hgt. lia.
  - exists array, []. rewrite app_nil_r. split_conj; try done.
    + intros [|fuel] ?; [lia|]. simpl. by rewrite decide_True.
    + destruct array as [|x [|y array]]; [constructor|repeat constructor|].
      rewrite !len_cons in Hle. pose proof (len_nonneg array). lia.
  - set (mid := len array / 2).
    assert (0 < mid < len array) as Hmid.
    { unfold mid. split.
      - apply Z.div_str_pos. lia.
      - apply Z.div_lt_upper_bound; lia. }
    assert (slice array 0 mid = take (Z.to_nat mid) array) as Eleft.
    { unfold slice. by replace (mid - 0) with mid by lia. }
    assert (slice array mid (len array) = drop (Z.to_nat mid) array) as Eright.
    { unfold slice. apply take_ge. rewrite length_drop. unfold len in *. lia. }
    destruct (IH (slice array 0 mid) moves)
      as (l & extra1 & Hrun1 & Hs1 & Hp1 & _ & Hf1 & Hc1).
    { rewrite Eleft, length_take. unfold len in *. lia. }
    destruct (IH (slice array mid (len array)) (moves ++ extra1))
      as (r & extra2 & Hrun2 & Hs2 & Hp2 & _ & Hf2 & Hc2).
    { rewrite Eright, length_drop. unfold len in *. lia. }
    set (vals := merge_vals (length l + length r) l r).
    assert (vals ≡ₚ array) as Hperm.
    { unfold vals. rewrite merge_vals_perm, Hp1, Hp2, Eleft, Eright.
      by rewrite take_drop. }
    exists vals, (extra1 ++ extra2 ++ overwrites_from 0 vals). split_conj.
    + intros [|fuel] ?; [lia|]. simpl. rewrite decide_False by done.
      fold mid. rewrite Hrun1 by lia. simpl. rewrite Hrun2 by lia. simpl.
      rewrite merge_spec. fold vals. rewrite <- !app_assoc.
      rewrite replay_overwrites_all; [done|]. symmetry. by apply len_perm.
    + by apply merge_vals_sorted.
    + done.
    + rewrite !app_assoc, replay_app. apply replay_overwrites_all.
      rewrite len_replay. symmetry. by apply len_perm.
    + apply Forall_app. split; [|apply Forall_app; split].
      * eapply move_in_bounds_mono; [|exact Hf1].
        rewrite Eleft. unfold len. rewrite length_take. lia.
      * eapply move_in_bounds_mono; [|exact Hf2].
        rewrite Eright. unfold len. rewrite length_drop. lia.
      * apply overwrites_in_bounds; [done|]. rewrite (len_perm _ _ Hperm). lia.
    + rewrite !count_swaps_app, Hc1, Hc2. simpl.
      clear. generalize 0. induction vals as [|v vals IHv]; intros oi; [done|].
      simpl. unfold count_swaps in *. simpl. apply IHv.
Qed.

(** Once its condition fails the first loop stays where it is, so running
    it for [k1 + k2] iterations is running it for [k1] and then for [k2]. *)
Lemma merge_both_plus k1 k2 left right leftIndex rightIndex oi orig moves :
  merge_both (k1 + k2) left right leftIndex rightIndex oi orig moves =
  let '(leftIndex', rightIndex', oi', orig', moves') :=
    merge_both k1 left right leftIndex rightIndex oi orig moves in
  merge_both k2 left right leftIndex' rightIndex' oi' orig' moves'.
Proof.
  revert leftIndex rightIndex oi orig moves.
  induction k1 as [|k1 IH]; intros li ri oi orig moves; [done|]. simpl.
  destruct (get left li) as [l|] eqn:Hl.
  - destruct (get right ri) as [r|] eqn:Hr.
    + destruct (less l r); apply IH.
    + destruct k2; simpl; [done|]. by rewrite Hl, Hr.
  - destruct k2; simpl; [done|]. by rewrite Hl.
Qed.

(** With the right half sorted, the entries equal in value come out with
    those of the right half before those of the left half. *)
Lemma merge_vals_equals k l r x :
  (length l + length r ≤ k)%nat → StronglySorted leq r →
  equals_of x (merge_vals k l r) = equals_of x r ++ equals_of x l.
Proof.
  revert l r. induction k as [|k IH]; intros l r Hk Hr.
  - destruct l, r; simpl in Hk; try lia. done.
  - destruct l as [|a l]; [simpl; by rewrite app_nil_r|].
    destruct r as [|b r]; [simpl; by rewrite app_nil_r|].
    simpl in Hk. simpl. destruct (less a b) eqn:Hab.
    + unfold equals_of in *. rewrite !(filter_cons _ a).
      rewrite IH by (simpl; first [lia | done]).
      destruct (decide (equiv_val x a)) as [Hxa|]; [|done].
      assert (filter (equiv_val x) (b :: r) = []) as ->; [|done].
      apply StronglySorted_inv in Hr as [_ Hbr].
      assert (Forall (λ z, less a z = true) (b :: r)) as Hall.
      { constructor; [done|]. eapply Forall_impl; [exact Hbr|].
        intros z Hz. by apply less_leq_trans with b. }
      induction Hall as [|z zs Hz _ IHz]; [done|].
      rewrite filter_cons, decide_False; [done|].
      intros [_ Hzx]. destruct Hxa as [Hxa _].
      pose proof (leq_trans z x a Hzx Hxa) as Hza. unfold leq in Hza. congruence.
    + unfold equals_of in *. rewrite !(filter_cons _ b).
      apply StronglySorted_inv in Hr as [Hr _].
      rewrite IH by (simpl; first [lia | done]).
      by destruct (decide (equiv_val x b)).
Qed.
End MergeFacts.

(** * Two sorted arrangements of the same values agree cell by cell *)

Section SortedUnique.
Context `{Number A}.
Implicit Types (x y z : A) (l : list A).

Lemma not_greater_perm x l1 l2 : l1 ≡ₚ l2 → not_greater x l1 = not_greater x l2.
Proof. induction 1; simpl; lia. Qed.

Lemma not_greater_app x l1 l2 :
  not_greater x (l1 ++ l2) = (not_greater x l1 + not_greater x l2)%nat.
Proof. induction l1; simpl; lia. Qed.

Lemma smaller_app x l1 l2 : smaller x (l1 ++ l2) = (smaller x l1 + smaller x l2)%nat.
Proof. induction l1; simpl; lia. Qed.

Lemma not_greater_all x l : Forall (λ z, leq z x) l → not_greater x l = length l.
Proof. induction 1 as [|z l Hz _ IH]; simpl; [done|]. unfold leq in Hz. by rewrite Hz, IH. Qed.

Lemma smaller_none x l : Forall (leq x) l → smaller x l = 0%nat.
Proof. induction 1 as [|z l Hz _ IH]; simpl; [done|]. unfold leq in Hz. by rewrite Hz, IH. Qed.

Lemma not_greater_le_smaller x y l :
  less x y = true → (not_greater x l ≤ smaller y l)%nat.
Proof.
  intros Hxy. induction l as [|z l IH]; simpl; [lia|].
  destruct (less x z) eqn:Hxz; [lia|].
  rewrite (leq_less_trans z x y Hxz Hxy). lia.
Qed.

(** In a sorted list the entry at position [i] has at most [i] entries
    below it and more than [i] entries not above it. *)
Lemma sorted_rank l (i : nat) x :
  StronglySorted leq l → l !! i = Some x →
  (smaller x l ≤ i ∧ i < not_greater x l)%nat.
Proof.
  intros Hs Hx. pose proof (lookup_lt_Some _ _ _ Hx) as Hi.
  rewrite <- (take_drop_middle l i x Hx) in Hs |- *.
  apply StronglySorted_app in Hs as (Hcross & _ & Hs2).
  apply StronglySorted_cons in Hs2 as [Hafter _].
  assert (Forall (λ z, leq z x) (take i l)) as Hbefore.
  { apply Forall_forall. intros z Hz. apply Hcross; [done|]. by left. }
  rewrite smaller_app, not_greater_app. simpl. rewrite less_irrefl.
  rewrite (smaller_none _ _ Hafter), (not_greater_all _ _ Hbefore).
  pose proof (smaller_le_length x (take i l)).
  rewrite length_take in *. lia.
Qed.

Lemma sorted_perm_leq l1 l2 (i : nat) x y :
  StronglySorted leq l1 → StronglySorted leq l2 → l1 ≡ₚ l2 →
  l1 !! i = Some x → l2 !! i = Some y → leq x y.
Proof.
  intros Hs1 Hs2 Hp Hx Hy. unfold leq. destruct (less y x) eqn:Hyx; [|done].
  pose proof (sorted_rank _ _ _ Hs1 Hx) as [Hx1 _].
  pose proof (sorted_rank _ _ _ Hs2 Hy) as [_ Hy2].
  pose proof (not_greater_le_smaller y x l2 Hyx).
  rewrite (smaller_perm x l1 l2 Hp) in Hx1. lia.
Qed.

Lemma sorted_perm_equiv l1 l2 :
  Sorted leq l1 → Sorted leq l2 → l1 ≡ₚ l2 → Forall2 equiv_val l1 l2.
Proof.
  intros Hs1%(Sorted_StronglySorted _) Hs2%(Sorted_StronglySorted _) Hp.
  apply Forall2_same_length_lookup. split; [by rewrite Hp|].
  intros i x y Hx Hy. split.
  - by apply (sorted_perm_leq l1 l2 i).
  - by apply (sorted_perm_leq l2 l1 i).
Qed.
End SortedUnique.

(** * The engines: what every log does *)

Section EngineTheorems.
Context `{Number A}.
Implicit Types (a : list A) (e : engine).

Lemma swaps_in_bounds_weaken n (log : list (move A)) :
  swaps_in_bounds n log → Forall (move_in_bounds n) log.
Proof. intros Hf. eapply Forall_impl; [exact Hf|]. by intros m [_ ?]. Qed.

Lemma square_bounds (n : nat) : (n ≤ n * n ∧ n * (n - 1) ≤ 2 * (n * n))%nat.
Proof. split; nia. Qed.

(** Every engine returns a log within [length a * length a] units of fuel;
    the log replayed on the input gives a sorted rearrangement of it, and
    every index of the log is an index of the input. *)
Lemma engine_spec e a :
  ∃ log,
    returns_above (length a * length a) (λ fuel, sortingMoves fuel (engine_name e) a) log ∧
    Sorted leq (replay log a) ∧
    replay log a ≡ₚ a ∧
    Forall (move_in_bounds (len a)) log.
Proof.
  pose proof (square_bounds (length a)) as [Hsq1 Hsq2].
  destruct e; unfold sortingMoves; simpl.
  - destruct (bubble_loop_spec (inversions a) a []) as (a' & log & Hrun & Hr & Hp & Hs & Hf & _);
      [done|].
    exists log. split_conj.
    + intros fuel Hfuel. unfold bubbleSort. rewrite Hrun; [done|].
      pose proof (inversions_bound a). nia.
    + by rewrite Hr.
    + by rewrite Hr.
    + by apply swaps_in_bounds_weaken.
  - destruct (insertionSort_spec a) as (Hs & Hp & Hf & _).
    exists (insertionSort a). by split_conj.
  - destruct (selectionSort_spec a) as (Hs & Hp & Hf & _).
    exists (selectionSort a). split_conj; try done.
    by apply swaps_in_bounds_weaken.
  - destruct (heapSort_spec a) as (log & Hrun & Hs & Hp & Hf).
    exists log. split_conj; try done; [|by apply swaps_in_bounds_weaken].
    intros fuel Hfuel. apply Hrun. lia.
  - destruct (quickSort_spec a) as (log & Hrun & Hs & Hp & Hf).
    exists log. split_conj; try done; [|by apply swaps_in_bounds_weaken].
    intros fuel Hfuel. apply Hrun. lia.
  - destruct (mergeSort_spec (length a) a []) as (sorted & log & Hrun & Hs & Hp & Hr & Hf & _);
      [done|].
    exists log. split_conj; try done.
    + intros fuel Hfuel. rewrite Hrun by lia. done.
    + rewrite Hr. by apply StronglySorted_Sorted.
    + by rewrite Hr.
Qed.

(** C1. For each of the six engines and every input array (of any length,
    so for the lengths 0 to 100 too), the engine returns a log, and
    replaying that log on the original array, move by move in log order,
    gives an array that is sorted in non-decreasing order, has the length of
    the input and holds the same values with the same multiplicities. *)
Theorem replay_sorts_input e a :
  ∃ log,
    returns_above (length a * length a) (λ fuel, sortingMoves fuel (engine_name e) a) log ∧
    Sorted leq (replay log a) ∧
    length (replay log a) = length a ∧
    replay log a ≡ₚ a.
Proof.
  destruct (engine_spec e a) as (log & Hrun & Hs & Hp & _).
  exists log. split_conj; try done. by rewrite Hp.
Qed.

(** C5. For each of the six engines and every input array that is already
    sorted in non-decreasing order, replaying the log the engine returns
    leaves, at every position, a value equal to the one that was there; where
    equal values are the same value, as for numbers, the array is left as it
    was. *)
Theorem sorted_input_unchanged e a :
  Sorted leq a →
  ∃ log,
    returns_above (length a * length a) (λ fuel, sortingMoves fuel (engine_name e) a) log ∧
    Forall2 equiv_val (replay log a) a ∧
    ((∀ x y : A, equiv_val x y → x = y) → replay log a = a).
Proof.
  intros Hsorted. destruct (engine_spec e a) as (log & Hrun & Hs & Hp & _).
  pose proof (sorted_perm_equiv _ _ Hs Hsorted Hp) as Hequiv.
  exists log. split_conj; [done..|].
  intros Hanti. apply list_eq_Forall2.
  eapply Forall2_impl; [exact Hequiv|]. exact Hanti.
Qed.

(** C6. For each of the six engines and every input array of length [n],
    every index of every move of the returned log is at least 0 and less
    than [n]. *)
Theorem log_indices_in_bounds e a :
  ∃ log,
    returns_above (length a * length a) (λ fuel, sortingMoves fuel (engine_name e) a) log ∧
    ∀ m i, m ∈ log → i ∈ move_indices m → 0 ≤ i < len a.
Proof.
  destruct (engine_spec e a) as (log & Hrun & _ & _ & Hf).
  exists log. split; [done|]. intros m i Hm Hi.
  rewrite Forall_forall in Hf. specialize (Hf m Hm).
  unfold move_in_bounds in Hf. rewrite Forall_forall in Hf. by apply Hf.
Qed.

(** C7. On an input of length [n], [bubbleSort] and [selectionSort] each
    push at most [n (n - 1) / 2] swaps, and [insertionSort] pushes at most
    [n] overwrites and at most [n (n - 1) / 2] swaps. *)
Theorem move_count_bounds a :
  let n := length a in
  (∃ log, returns_above (inversions a) (λ fuel, bubbleSort fuel a) log ∧
          count_swaps log ≤ n * (n - 1) / 2)%nat ∧
  (count_swaps (selectionSort a) ≤ n * (n - 1) / 2)%nat ∧
  (count_overwrites (insertionSort a) ≤ n)%nat ∧
  (count_swaps (insertionSort a) ≤ n * (n - 1) / 2)%nat.
Proof.
  intros n. assert (∀ c : nat, (2 * c ≤ n * (n - 1) → c ≤ n * (n - 1) / 2)%nat) as Hhalf.
  { intros c Hc. apply Nat.div_le_lower_bound; lia. }
  split_conj.
  - destruct (bubble_loop_spec (inversions a) a []) as (a' & log & Hrun & _ & _ & _ & Hf & Hl);
      [done|].
    exists log. split.
    + intros fuel Hfuel. unfold bubbleSort. by rewrite Hrun.
    + destruct (count_all_swaps _ _ Hf) as [-> _].
      apply Hhalf. pose proof (inversions_bound a). subst n. lia.
  - destruct (selectionSort_spec a) as (_ & _ & Hf & Hl).
    destruct (count_all_swaps _ _ Hf) as [-> _].
    apply Hhalf. subst n. unfold len in Hl. nia.
  - destruct (insertionSort_spec a) as (_ & _ & _ & _ & How).
    subst n. unfold len in How. lia.
  - destruct (insertionSort_spec a) as (_ & _ & _ & Hsw & _).
    apply Hhalf. subst n. unfold len in Hsw. nia.
Qed.

(** C8. In [heapify], when the left and the right child of node [i] are
    both below [max], hold equal values and both exceed the value of the
    node, [largest] is the left child.  The call returns, heap or not; the
    move it pushes first is the swap of [i] with its left child, which
    exchanges the two cells and leaves the right child alone, and the
    sift-down goes on from the left child: in the array returned node [i]
    holds the value the left child had, and the right child holds its
    own. *)
Theorem heapify_prefers_left array i max moves v l r :
  get array i = Some v → get array (2 * i + 1) = Some l → get array (2 * i + 2) = Some r →
  2 * i + 2 < max →
  equiv_val l r → less v l = true → less v r = true →
  heapify_largest array i max = 2 * i + 1 ∧
  (∀ fuel, heapify (S fuel) array i max moves =
     heapify fuel (swap array i (2 * i + 1)) (2 * i + 1) max
       (moves ++ [Swap i (2 * i + 1)])) ∧
  ∃ array' rest,
    returns_above (Z.to_nat (max - i)) (λ fuel, heapify fuel array i max moves)
      (array', moves ++ Swap i (2 * i + 1) :: rest) ∧
    get (swap array i (2 * i + 1)) i = Some l ∧
    get (swap array i (2 * i + 1)) (2 * i + 1) = Some v ∧
    get (swap array i (2 * i + 1)) (2 * i + 2) = Some r ∧
    replay rest (swap array i (2 * i + 1)) = array' ∧
    get array' i = Some l ∧
    get array' (2 * i + 2) = Some r.
Proof.
  intros Hv Hl Hr Hmax [_ Hrl] Hvl Hvr.
  assert (heapify_largest array i max = 2 * i + 1) as Hlargest.
  { unfold heapify_largest. cbv zeta.
    rewrite (bool_decide_eq_true_2 (2 * i + 1 < max)) by lia.
    rewrite Hv, Hl. simpl. rewrite Hvl.
    rewrite (bool_decide_eq_true_2 (2 * i + 2 < max)) by lia.
    rewrite Hl, Hr. simpl. unfold leq in Hrl. by rewrite Hrl. }
  pose proof (get_Some_bounds _ _ _ Hv) as Hi.
  pose proof (get_Some_bounds _ _ _ Hl) as Hc.
  assert (∀ fuel, heapify (S fuel) array i max moves =
     heapify fuel (swap array i (2 * i + 1)) (2 * i + 1) max
       (moves ++ [Swap i (2 * i + 1)])) as Hstep.
  { intros fuel. simpl. rewrite Hlargest. by rewrite decide_True by lia. }
  split; [done|]. split; [done|].
  destruct (heapify_returns (Z.to_nat (max - (2 * i + 1))) (swap array i (2 * i + 1))
              (2 * i + 1) max (moves ++ [Swap i (2 * i + 1)]))
    as (array' & rest & Hrun & Hreplay & Hsame); [lia|lia|].
  assert (get (swap array i (2 * i + 1)) i = Some l) as Hi'
    by (by rewrite get_swap_l).
  assert (get (swap array i (2 * i + 1)) (2 * i + 2) = Some r) as Hr'
    by (by rewrite get_swap_ne by lia).
  exists array', rest. split_conj; try done.
  - intros [|fuel] Hfuel; [lia|]. rewrite Hstep, Hrun by lia. by rewrite <- app_assoc.
  - by rewrite get_swap_r.
  - by rewrite Hsame by lia.
  - by rewrite Hsame by lia.
Qed.

(** C10. [bubbleSort] terminates on every array: a pass that pushes a swap
    sets [swapped] and leaves strictly fewer inversions in the working array,
    a pass that pushes none (no comparison succeeded) leaves [swapped] false
    and ends the loop, so the loop makes at most [inversions a + 1] passes. *)
Theorem bubbleSort_terminates a :
  (∃ log, returns_above (inversions a) (λ fuel, bubbleSort fuel a) log) ∧
  (∀ array moves,
     ∃ array' extra swapped,
       bubble_pass array moves = (array', moves ++ extra, swapped) ∧
       (extra ≠ [] → swapped = true ∧ (inversions array' < inversions array)%nat) ∧
       (extra = [] → swapped = false ∧
          ∀ fuel, bubble_loop (S fuel) array moves = Some (array', moves))).
Proof.
  split.
  - destruct (bubble_loop_spec (inversions a) a []) as (a' & log & Hrun & _); [done|].
    exists log. intros fuel Hfuel. unfold bubbleSort. by rewrite Hrun.
  - intros array moves.
    destruct (bubble_pass_spec array moves)
      as (array' & extra & sw & E & _ & _ & _ & _ & Hfalse & Htrue).
    exists array', extra, sw. split; [done|]. split.
    + intros Hne. destruct sw; [by split; [|apply Htrue]|].
      by destruct (Hfalse eq_refl) as [? _].
    + intros ->. destruct sw.
      * specialize (Htrue eq_refl).
        destruct (bubble_pass_spec array moves)
          as (a2 & extra2 & sw2 & E2 & _ & _ & _ & Hinv & _).
        rewrite E in E2. rewrite app_nil_r in E2. injection E2 as -> Hm ->.
        assert (extra2 = []) as -> by (by apply (app_inv_head moves); rewrite app_nil_r).
        simpl in Hinv. lia.
      * split; [done|]. intros fuel. simpl. by rewrite E, app_nil_r.
Qed.
End EngineTheorems.

(** * The merge step on ties *)

Section MergeTheorems.
Context `{Number A}.

(** C2, as the code has it. At every comparison of the first loop of
    [merge], after any number [k] of its iterations and with [l] and [r]
    the two front elements, the value written and pushed is [l] only when
    [left[leftIndex] < right[rightIndex]] holds strictly, and [r] otherwise:
    on a tie it is the one of the right half.  The overwrite stays in the
    log [merge] returns.  So, the right half being sorted, [merge] leaves
    the entries of equal value with those of the right half before those of
    the left half. *)
Theorem merge_tie_takes_right (left right originalArray : list A) (moves : list (move A)) :
  (∀ k leftIndex rightIndex originalIndex array1 moves1 l r,
     merge_both k left right 0 0 0 originalArray moves =
       (leftIndex, rightIndex, originalIndex, array1, moves1) →
     get left leftIndex = Some l → get right rightIndex = Some r →
     let taken := if less l r then l else r in
     (equiv_val l r → taken = r) ∧
     merge_both (S k) left right 0 0 0 originalArray moves =
       (if less l r then leftIndex + 1 else leftIndex,
        if less l r then rightIndex else rightIndex + 1,
        originalIndex + 1, set array1 originalIndex taken,
        moves1 ++ [Overwrite originalIndex taken]) ∧
     ∃ rest, snd (merge left right originalArray moves) =
               moves1 ++ Overwrite originalIndex taken :: rest) ∧
  (Sorted leq right → length originalArray = (length left + length right)%nat →
   ∀ x, equals_of x (fst (merge left right originalArray moves)) =
          equals_of x right ++ equals_of x left).
Proof.
  split.
  - intros k li ri oi array1 moves1 l r Hreach Hl Hr taken.
    assert (merge_both (S k) left right 0 0 0 originalArray moves =
       (if less l r then li + 1 else li, if less l r then ri else ri + 1,
        oi + 1, set array1 oi taken, moves1 ++ [Overwrite oi taken])) as Hstep.
    { replace (S k) with (k + 1)%nat by lia.
      rewrite merge_both_plus, Hreach. simpl. rewrite Hl, Hr.
      unfold taken. by destruct (less l r). }
    split_conj; [|done|].
    { intros [_ Hrl]. unfold leq in Hrl. unfold taken. by rewrite Hrl. }
    pose proof (get_Some_bounds _ _ _ Hl) as Hli.
    pose proof (get_Some_bounds _ _ _ Hr) as Hri.
    set (K := (length left + length right)%nat).
    assert (S k ≤ K)%nat as HkK.
    { destruct (decide (S k ≤ K)%nat) as [|Hgt]; [done|exfalso].
      pose proof (merge_both_exit K left right 0 0 0 originalArray moves) as Hexit.
      pose proof (merge_both_plus K (k - K) left right 0 0 0 originalArray moves) as Hplus.
      replace (K + (k - K))%nat with k in Hplus by lia. rewrite Hreach in Hplus.
      destruct (merge_both K left right 0 0 0 originalArray moves)
        as [[[[li' ri'] oi1] array1'] moves1'].
      assert (¬ (li' < len left ∧ ri' < len right)) as Hno.
      { apply Hexit; unfold len, K; lia. }
      destruct (k - K)%nat as [|d]; simpl in Hplus.
      - injection Hplus as -> -> _ _ _. lia.
      - destruct (get left li') as [l'|] eqn:Hl'; [destruct (get right ri') as [r'|] eqn:Hr'|].
        + apply get_Some_bounds in Hl', Hr'. lia.
        + injection Hplus as -> -> _ _ _. congruence.
        + injection Hplus as -> -> _ _ _. congruence. }
    unfold merge. fold K.
    pose proof (merge_both_plus (S k) (K - S k) left right 0 0 0 originalArray moves) as Hplus.
    replace (S k + (K - S k))%nat with K in Hplus by lia.
    rewrite Hstep in Hplus. rewrite Hplus.
    pose proof (merge_loops_spec (K - S k) left right
                  (if less l r then li + 1 else li) (if less l r then ri else ri + 1)
                  (oi + 1) (set array1 oi taken) (moves1 ++ [Overwrite oi taken])) as Hm.
    destruct (merge_both (K - S k) _ _ _ _ _ _ _) as [[[[li' ri'] oi1] array1'] moves1'].
    destruct (merge_rest _ _ _ _ _ _) as [[oi2 array2] moves2].
    destruct (merge_rest _ _ _ _ _ _) as [[oi3 array3] moves3].
    rewrite Hm by (destruct (less l r); lia). simpl.
    eexists. by rewrite <- app_assoc.
  - intros Hsorted%(Sorted_StronglySorted _) Hlen x.
    rewrite merge_spec. simpl.
    rewrite replay_overwrites_all.
    + by apply merge_vals_equals.
    + unfold len. by rewrite merge_vals_perm, length_app, Hlen.
Qed.
End MergeTheorems.

(** C2 witness: the last merge of the example, [0.5a] with [0.3, 0.5b].
    The tie is at the second comparison, and 0.5b is written before
    0.5a. *)
Lemma merge_tie_takes_right_witness :
  let left_ := [(1#2, "a")]%Q in
  let right_ := [(3#10, ""); (1#2, "b")]%Q in
  let moves := [Overwrite 0 (3#10, ""); Overwrite 1 (1#2, "b")]%Q in
  merge_both 1 left_ right_ 0 0 0 tagged_input moves =
    (0, 1, 1, [(3#10, ""); (3#10, ""); (1#2, "b")]%Q, moves ++ [Overwrite 0 (3#10, "")%Q]) ∧
  merge_both 2 left_ right_ 0 0 0 tagged_input moves =
    (0, 2, 2, [(3#10, ""); (1#2, "b"); (1#2, "b")]%Q,
     (moves ++ [Overwrite 0 (3#10, "")%Q]) ++ [Overwrite 1 (1#2, "b")%Q]) ∧
  (∃ rest, snd (merge left_ right_ tagged_input moves) =
             (moves ++ [Overwrite 0 (3#10, "")%Q]) ++ Overwrite 1 (1#2, "b")%Q :: rest) ∧
  equals_of (1#2, "a")%Q (fst (merge left_ right_ tagged_input moves)) =
    [(1#2, "b"); (1#2, "a")]%Q.
Proof.
  intros left_ right_ moves.
  destruct (merge_tie_takes_right left_ right_ tagged_input moves) as [Hcmp Hequals].
  destruct (Hcmp 1%nat 0 1 1 [(3#10, ""); (3#10, ""); (1#2, "b")]%Q
              (moves ++ [Overwrite 0 (3#10, "")%Q]) (1#2, "a")%Q (1#2, "b")%Q)
    as (_ & Hstep & Hrest); [reflexivity..|].
  split_conj; [reflexivity|exact Hstep|exact Hrest|].
  rewrite Hequals; [reflexivity| |reflexivity].
  repeat constructor.
Defined.

(** C2 fails as stated: on [0.5a, 0.3, 0.5b] the log of [mergeSort] replays
    to [0.3, 0.5b, 0.5a], with the two equal entries in the opposite
    order. *)
Lemma merge_sort_not_stable :
  ∃ log,
    snd <$> mergeSort 4 tagged_input [] = Some log ∧
    replay log tagged_input = [(3#10, ""); (1#2, "b"); (1#2, "a")]%Q ∧
    ¬ keeps_order_of_equals tagged_input (replay log tagged_input).
Proof.
  eexists. split; [vm_compute; reflexivity|]. split; [vm_compute; reflexivity|].
  intros Hkeep. specialize (Hkeep (1#2, "a")%Q). vm_compute in Hkeep. discriminate.
Qed.

(** * Playback *)

Section PlaybackTheorems.
Context `{Number A, Arith A}.
Implicit Types (s : state A) (ref : nat) (moves rest : list (move A)).
Implicit Types (ts : list (nat * list (move A))).

Lemma arrays_emit e s : arrays (emit e s) = arrays s.
Proof. done. Qed.

Lemma arrays_animate_cons ref move rest s :
  arrays (animate ref (move :: rest) s) =
    <[ref := apply_move (deref s ref) move]> (arrays s) ++ [apply_move (deref s ref) move].
Proof. unfold animate, playNote, showBars. destruct move; simpl; by destruct (audioCtx s). Qed.

Lemma timers_animate_cons ref move rest s :
  timers (animate ref (move :: rest) s) = timers s ++ [(ref, rest)].
Proof. unfold animate, playNote, showBars. destruct move; simpl; by destruct (audioCtx s). Qed.

Lemma array_animate_cons ref move rest s :
  array (animate ref (move :: rest) s) = length (arrays s).
Proof. unfold animate, playNote, showBars. destruct move; simpl; by destruct (audioCtx s). Qed.

Lemma deref_lookup s ref a : arrays s !! ref = Some a → deref s ref = a.
Proof. unfold deref. intros Ha. by rewrite (list_lookup_total_correct _ _ _ Ha). Qed.

Lemma pending_work_app ts ts' :
  pending_work (ts ++ ts') = (pending_work ts + pending_work ts')%nat.
Proof. induction ts as [|[? ?] ts IH]; simpl; lia. Qed.

(** Playbacks on separate arrays do not disturb each other: once the timers
    have run dry, each has applied all of its remaining moves to its own
    array, and the other arrays are as they were. *)
Lemma ticks_drain n s :
  (pending_work (timers s) ≤ n)%nat → separate_playbacks s →
  timers (ticks n s) = [] ∧
  (∀ ref moves a, (ref, moves) ∈ timers s → arrays s !! ref = Some a →
     arrays (ticks n s) !! ref = Some (replay moves a)) ∧
  (∀ ref a, ref ∉ (timers s).*1 → arrays s !! ref = Some a →
     arrays (ticks n s) !! ref = Some a).
Proof.
  revert s. induction n as [|n IH]; intros s Hwork [Hnodup Hbound].
  - destruct (timers s) as [|[ref moves] pending] eqn:E; [|simpl in Hwork; lia].
    simpl. rewrite E. split_conj; [done| |done]. intros ??? Hin. by apply elem_of_nil in Hin.
  - simpl. unfold tick. destruct (timers s) as [|[ref moves] pending] eqn:E.
    { destruct (IH s) as (Ht & _ & Hother); [rewrite E; simpl; lia|by split; rewrite E|].
      split_conj; [done| |].
      - intros ??? Hin. by apply elem_of_nil in Hin.
      - intros ref a _. apply Hother. rewrite E. apply not_elem_of_nil. }
    simpl in Hwork, Hnodup. apply NoDup_cons in Hnodup as [Hfresh Hnodup].
    apply Forall_cons in Hbound as [Href Hbound]. simpl in Href.
    set (s1 := State (arrays s) (array s) (audioCtx s) pending (effects s)).
    destruct moves as [|move rest].
    + destruct (IH (animate ref [] s1)) as (Ht & Hmine & Hother).
      { simpl. lia. } { by split. }
      split_conj; [done| |].
      * intros r m a [[= -> ->]|Hin]%elem_of_cons Ha.
        -- simpl. by apply Hother.
        -- by apply Hmine.
      * intros r a Hr Ha. apply Hother; [|done]. simpl.
        intros Hin. apply Hr. simpl. by right.
    + set (s2 := animate ref (move :: rest) s1).
      assert (arrays s2 !! ref = Some (apply_move (deref s ref) move)) as Href2.
      { unfold s2. rewrite arrays_animate_cons. simpl.
        rewrite lookup_app_l by (by rewrite length_insert).
        by apply list_lookup_insert_eq. }
      assert (∀ r a, r ≠ ref → arrays s !! r = Some a → arrays s2 !! r = Some a) as Hkeep.
      { intros r a Hr Ha. unfold s2. rewrite arrays_animate_cons. simpl.
        pose proof (lookup_lt_Some _ _ _ Ha).
        rewrite lookup_app_l by (by rewrite length_insert).
        by rewrite list_lookup_insert_ne. }
      assert (timers s2 = pending ++ [(ref, rest)]) as Et2.
      { unfold s2. by rewrite timers_animate_cons. }
      destruct (IH s2) as (Ht & Hmine & Hother).
      { rewrite Et2, pending_work_app. simpl in Hwork |- *. lia. }
      { split; rewrite Et2.
        - rewrite fmap_app. simpl. apply NoDup_app. split_conj; [done| |apply NoDup_singleton].
          intros r Hr ->%list_elem_of_singleton. done.
        - apply Forall_app. unfold s2. rewrite arrays_animate_cons, length_app, length_insert.
          simpl. split.
          + eapply Forall_impl; [exact Hbound|]. intros; simpl in *; lia.
          + repeat constructor; simpl; lia. }
      split_conj; [done| |].
      * intros r m a [[= -> ->]|Hin]%elem_of_cons Ha.
        -- rewrite (deref_lookup _ _ _ Ha) in Href2.
           apply (Hmine ref rest); [|done]. rewrite Et2. apply elem_of_app. right. by left.
        -- assert (r ≠ ref) as Hr.
           { intros ->. apply Hfresh. apply list_elem_of_fmap. by exists (ref, m). }
           apply Hmine; [|by apply Hkeep]. rewrite Et2. apply elem_of_app. by left.
      * intros r a Hr Ha. simpl in Hr. apply not_elem_of_cons in Hr as [Hr1 Hr2].
        apply Hother; [|by apply Hkeep]. rewrite Et2, fmap_app. simpl.
        intros [Hin|Hin%list_elem_of_singleton]%elem_of_app; done.
Qed.

(** C9. Each step of [animate] plays, when there is an audio context, one
    note per affected index at the frequency [200 + 500 × v], [v] being the
    value at that index after the move has been applied: for a swap of [i]
    and [j] the note of the new value at [i] and then the note of the new
    value at [j], for an overwrite of [i] the single note of the value
    written.  Without an audio context no note is played. *)
Theorem notes_follow_new_values s ref move rest :
  (ref < length (arrays s))%nat → move_in_bounds (len (deref s ref)) move →
  let array' := apply_move (deref s ref) move in
  let s' := animate ref (move :: rest) s in
  let note (v : A) := Some (add (number 200) (mul (number 500) v)) in
  deref s' ref = array' ∧
  ∃ new,
    effects s' = effects s ++ new ∧
    match move with
    | Swap i j =>
        ∃ vi vj, get array' i = Some vi ∧ get array' j = Some vj ∧
                 notes new = if audioCtx s then [note vi; note vj] else []
    | Overwrite i value =>
        get array' i = Some value ∧
        notes new = if audioCtx s then [note value] else []
    end.
Proof.
  intros Href Hbounds array' s' note. split.
  { unfold deref, s'. rewrite arrays_animate_cons.
    apply list_lookup_total_correct.
    rewrite lookup_app_l by (by rewrite length_insert).
    by apply list_lookup_insert_eq. }
  unfold move_in_bounds in Hbounds. unfold s', animate, playNote, showBars, emit.
  destruct move as [i j|i value]; simpl in *.
  - apply Forall_cons in Hbounds as [Hi Hj%Forall_cons_1]. destruct Hj as [Hj _].
    destruct (get_is_Some array' i) as [vi Hvi]; [unfold array'; by rewrite len_swap|].
    destruct (get_is_Some array' j) as [vj Hvj]; [unfold array'; by rewrite len_swap|].
    fold array'. rewrite Hvi, Hvj. simpl.
    destruct (audioCtx s); simpl; eexists; (split; [by rewrite <- !app_assoc|]);
      exists vi, vj; split_conj; try done.
    unfold notes, note. simpl. by rewrite !(mul_comm (number 500)).
  - apply Forall_cons in Hbounds as [Hi _].
    assert (get array' i = Some value) as Hv by (by apply get_set_eq).
    fold array'. rewrite Hv. simpl.
    destruct (audioCtx s); simpl; eexists; (split; [by rewrite <- !app_assoc|]);
      split; try done.
    unfold notes, note. simpl. by rewrite !(mul_comm (number 500)).
Qed.

(** C4, as the code has it. For an algorithm name that is none of the six,
    [sortAndAnimate] throws nothing: the switch leaves the move log empty,
    [animate] draws the array as it is, and no array, no timer and no state
    changes. *)
Theorem unknown_algorithm_animates_nothing fuel algorithm s :
  (∀ e, algorithm ≠ engine_name e) →
  sortingMoves fuel algorithm (deref s (array s)) = Some [] ∧
  ∃ s',
    sortAndAnimate fuel algorithm s = Some (Normal s') ∧
    arrays s' = arrays s ∧ array s' = array s ∧ timers s' = timers s ∧
    effects s' = effects s ++ [ShowBars (deref s (array s))].
Proof.
  intros Hunknown.
  assert (∀ copy : list A, sortingMoves fuel algorithm copy = Some []) as Hmoves.
  { intros copy. unfold sortingMoves.
    pose proof (Hunknown Bubble). pose proof (Hunknown Merge). pose proof (Hunknown Heap).
    pose proof (Hunknown Quick). pose proof (Hunknown Insertion).
    pose proof (Hunknown Selection). simpl in *.
    by rewrite !decide_False by done. }
  split; [done|]. eexists. unfold sortAndAnimate. rewrite Hmoves. simpl.
  by split_conj.
Qed.

(** A sort requested while one playback is in flight. *)
Lemma in_flight_new_sort fuel (B : engine) s refA restA (published : list A) :
  in_flight s refA restA published →
  (length published * length published < fuel)%nat →
  ∃ logB s1,
    sortingMoves fuel (engine_name B) published = Some logB ∧
    sortAndAnimate fuel (engine_name B) s = Some (Normal s1) ∧
    head (timers s1) = Some (refA, restA) ∧
    ∀ n, (length restA + length logB + 2 ≤ n)%nat →
      timers (ticks n s1) = [] ∧
      arrays (ticks n s1) !! refA = Some (replay restA published) ∧
      arrays (ticks n s1) !! array s = Some (replay logB published).
Proof.
  intros (Etimers & Hne & HrefA & Harray) Hfuel.
  destruct (engine_spec B published) as (logB & Hrun & _).
  specialize (Hrun fuel Hfuel). simpl in Hrun.
  pose proof (lookup_lt_Some _ _ _ HrefA) as HltA.
  pose proof (lookup_lt_Some _ _ _ Harray) as Hlt.
  exists logB, (animate (array s) logB s). split_conj.
  - done.
  - unfold sortAndAnimate. rewrite (deref_lookup _ _ _ Harray), Hrun. done.
  - destruct logB; [simpl; by rewrite Etimers|].
    by rewrite timers_animate_cons, Etimers.
  - intros n Hn. destruct logB as [|move rest].
    + destruct (ticks_drain n (animate (array s) [] s)) as (Ht & Hmine & Hother).
      { simpl. rewrite Etimers. simpl in *. lia. }
      { split; simpl; rewrite Etimers; simpl.
        - apply NoDup_singleton.
        - by repeat constructor. }
      split_conj; [done| |].
      * apply Hmine; [|done]. simpl. rewrite Etimers. by left.
      * apply Hother; [|done]. simpl. rewrite Etimers. simpl.
        intros ?%list_elem_of_singleton. done.
    + set (s1 := animate (array s) (move :: rest) s).
      assert (timers s1 = [(refA, restA); (array s, rest)]) as Et1.
      { unfold s1. by rewrite timers_animate_cons, Etimers. }
      assert (arrays s1 !! refA = Some published) as HA1.
      { unfold s1. rewrite arrays_animate_cons.
        rewrite lookup_app_l by (by rewrite length_insert).
        by rewrite list_lookup_insert_ne. }
      assert (arrays s1 !! array s = Some (apply_move published move)) as HB1.
      { unfold s1. rewrite arrays_animate_cons.
        rewrite lookup_app_l by (by rewrite length_insert).
        rewrite (deref_lookup _ _ _ Harray). by apply list_lookup_insert_eq. }
      destruct (ticks_drain n s1) as (Ht & Hmine & _).
      { rewrite Et1. simpl in *. lia. }
      { split; rewrite Et1.
        - simpl. apply NoDup_cons. split; [|apply NoDup_singleton].
          intros ?%list_elem_of_singleton. done.
        - unfold s1. rewrite arrays_animate_cons, length_app, length_insert.
          repeat constructor; simpl; lia. }
      split_conj; [done| |].
      * apply Hmine; [|done]. rewrite Et1. by left.
      * apply (Hmine (array s) rest); [|done]. rewrite Et1. right. by left.
Qed.

(** [animate] on a non-empty log, from rest or from its own tick, applies
    the first move, publishes a copy and leaves one tick pending. *)
Lemma animate_in_flight s ref move rest a :
  timers s = [] → arrays s !! ref = Some a →
  in_flight (animate ref (move :: rest) s) ref rest (apply_move a move).
Proof.
  intros Et Ha. pose proof (lookup_lt_Some _ _ _ Ha) as Hlt.
  unfold in_flight.
  rewrite timers_animate_cons, arrays_animate_cons, array_animate_cons, Et.
  rewrite (deref_lookup _ _ _ Ha). split_conj.
  - done.
  - lia.
  - rewrite lookup_app_l by (by rewrite length_insert). by apply list_lookup_insert_eq.
  - rewrite lookup_app_r by (by rewrite length_insert).
    by rewrite length_insert, Nat.sub_diag.
Qed.

Lemma in_flight_tick s ref move rest published :
  in_flight s ref (move :: rest) published →
  in_flight (tick s) ref rest (apply_move published move).
Proof.
  intros (Et & _ & Href & _). unfold tick. rewrite Et.
  by apply animate_in_flight.
Qed.

Lemma in_flight_ticks j s ref moves published :
  in_flight s ref moves published → (j ≤ length moves)%nat →
  in_flight (ticks j s) ref (drop j moves) (replay (take j moves) published).
Proof.
  revert s moves published. induction j as [|j IH]; intros s moves published Hs Hj.
  - by rewrite drop_0, take_0.
  - destruct moves as [|move rest]; [simpl in Hj; lia|]. simpl.
    apply IH; [by apply in_flight_tick|simpl in Hj; lia].
Qed.

(** C3, as the code has it. Requesting a sort while a playback is advancing
    cancels nothing.  Start at rest on the array [a0]; request algorithm A,
    whose log has [m] moves, and let its playback apply [k] of them (the
    request applies the first, each tick one more).  Then the array A's
    playback holds and the copy React holds both stand at the state after
    those [k] moves.  Request algorithm B now: its log is the engine's log
    for that state and its playback applies it to the copy; the pending tick
    of A stays scheduled, first in line, and once the timers have run dry
    all [m] moves of A have been applied to the array A's playback holds. *)
Theorem new_sort_does_not_cancel fuel (A_ B : engine) (s0 : state A) a0 logA (k : nat) :
  timers s0 = [] → arrays s0 !! array s0 = Some a0 →
  (length a0 * length a0 < fuel)%nat →
  sortingMoves fuel (engine_name A_) a0 = Some logA →
  (0 < k ≤ length logA)%nat →
  ∃ sA logB sB,
    let s := ticks (k - 1) sA in
    let state_k := replay (take k logA) a0 in
    sortAndAnimate fuel (engine_name A_) s0 = Some (Normal sA) ∧
    arrays s !! array s0 = Some state_k ∧
    arrays s !! array s = Some state_k ∧
    sortingMoves fuel (engine_name B) state_k = Some logB ∧
    sortAndAnimate fuel (engine_name B) s = Some (Normal sB) ∧
    head (timers sB) = Some (array s0, drop k logA) ∧
    ∀ n, (length logA - k + length logB + 2 ≤ n)%nat →
      timers (ticks n sB) = [] ∧
      arrays (ticks n sB) !! array s0 = Some (replay logA a0) ∧
      arrays (ticks n sB) !! array s = Some (replay logB state_k).
Proof.
  intros Et Ha0 Hfuel HlogA Hk.
  destruct logA as [|move rest]; [simpl in Hk; lia|].
  set (sA := animate (array s0) (move :: rest) s0).
  pose proof (animate_in_flight s0 (array s0) move rest a0 Et Ha0) as HsA. fold sA in HsA.
  pose proof (in_flight_ticks (k - 1) sA _ _ _ HsA ltac:(simpl in Hk; lia)) as Hs.
  set (s := ticks (k - 1) sA) in *.
  assert (replay (take (k - 1) rest) (apply_move a0 move) =
          replay (take k (move :: rest)) a0) as Estate.
  { destruct k as [|k]; [lia|]. simpl. by rewrite Nat.sub_0_r. }
  assert (drop (k - 1) rest = drop k (move :: rest)) as Edrop.
  { destruct k as [|k]; [lia|]. simpl. by rewrite Nat.sub_0_r. }
  rewrite Estate, Edrop in Hs.
  set (state_k := replay (take k (move :: rest)) a0) in *.
  destruct (in_flight_new_sort fuel B s (array s0) (drop k (move :: rest)) state_k Hs)
    as (logB & sB & HlogB & HsB & Hhead & Hdrain).
  { unfold state_k. by rewrite length_replay. }
  exists sA, logB, sB. cbv zeta. fold s state_k.
  destruct Hs as (_ & _ & HrefA & Hpub). split_conj; try done.
  - unfold sortAndAnimate. rewrite (deref_lookup _ _ _ Ha0), HlogA. done.
  - intros n Hn. destruct (Hdrain n) as (Ht & HA & HB).
    { rewrite length_drop. lia. }
    split_conj; try done. rewrite HA. f_equal. unfold state_k.
    by rewrite <- replay_app, take_drop.
Qed.
End PlaybackTheorems.

(** * Concrete runs *)

Example bubble_click :
  sortAndAnimate 10 "bubble" at_rest = Some (Normal bubble_in_flight).
Proof. vm_compute. reflexivity. Qed.

(** The logs of the six engines on [unsorted3], traced by hand from the
    source. *)
Example bubbleSort_unsorted3 : bubbleSort 3 unsorted3 = Some [Swap 0 1; Swap 1 2].
Proof. vm_compute. reflexivity. Qed.

Example insertionSort_unsorted3 :
  insertionSort unsorted3 =
    [Swap 1 0; Overwrite 0 (1#10); Swap 2 1; Overwrite 1 (2#10)]%Q.
Proof. vm_compute. reflexivity. Qed.

Example selectionSort_unsorted3 : selectionSort unsorted3 = [Swap 0 1; Swap 1 2].
Proof. vm_compute. reflexivity. Qed.

Example heapSort_unsorted3 : heapSort 3 unsorted3 = Some [Swap 0 2; Swap 0 1].
Proof. vm_compute. reflexivity. Qed.

Example quickSort_unsorted3 : quickSort 3 unsorted3 = Some [Swap 0 1; Swap 1 2].
Proof. vm_compute. reflexivity. Qed.

Example mergeSort_unsorted3 :
  snd <$> mergeSort 4 unsorted3 [] =
    Some [Overwrite 0 (1#10); Overwrite 1 (2#10);
          Overwrite 0 (1#10); Overwrite 1 (2#10); Overwrite 2 (3#10)]%Q.
Proof. vm_compute. reflexivity. Qed.

(** C3 fails as stated: with bubble sort (2 moves) in flight after its first
    move, a click on Selection Sort leaves the pending tick of bubble sort
    scheduled, and the next tick applies bubble sort's second move to the
    array bubble sort is animating and draws it. *)
Lemma stale_playback_keeps_running :
  ∃ s1,
    sortAndAnimate 10 "selection" bubble_in_flight = Some (Normal s1) ∧
    head (timers s1) = Some (0%nat, [Swap 1 2]) ∧
    arrays s1 !! 0%nat = Some [1#10; 3#10; 2#10]%Q ∧
    arrays (tick s1) !! 0%nat = Some [1#10; 2#10; 3#10]%Q ∧
    last (effects (tick s1)) = Some (ShowBars [1#10; 2#10; 3#10]%Q).
Proof. eexists. split; [vm_compute; reflexivity|]. by vm_compute. Qed.

(** C3 witness: bubble sort on [unsorted3] with the first of its two moves
    applied, then a click on Selection Sort. *)
Lemma new_sort_does_not_cancel_witness :
  ∃ sA logB sB,
    let s := ticks (1 - 1) sA in
    let state_k := replay (take 1 [Swap 0 1; Swap 1 2]) unsorted3 in
    sortAndAnimate 10 (engine_name Bubble) at_rest = Some (Normal sA) ∧
    arrays s !! array at_rest = Some state_k ∧
    arrays s !! array s = Some state_k ∧
    sortingMoves 10 (engine_name Selection) state_k = Some logB ∧
    sortAndAnimate 10 (engine_name Selection) s = Some (Normal sB) ∧
    head (timers sB) = Some (array at_rest, drop 1 [Swap 0 1; Swap 1 2]) ∧
    ∀ n, (length [Swap (A:=Q) 0 1; Swap 1 2] - 1 + length logB + 2 ≤ n)%nat →
      timers (ticks n sB) = [] ∧
      arrays (ticks n sB) !! array at_rest = Some (replay [Swap 0 1; Swap 1 2] unsorted3) ∧
      arrays (ticks n sB) !! array s = Some (replay logB state_k).
Proof.
  apply (new_sort_does_not_cancel 10 Bubble Selection at_rest unsorted3
           [Swap 0 1; Swap 1 2] 1).
  - reflexivity.
  - reflexivity.
  - simpl. lia.
  - vm_compute. reflexivity.
  - simpl. lia.
Defined.

(** C4 fails as stated: the name "shell" is none of the six, and the call
    completes normally with the array drawn again. *)
Lemma unknown_algorithm_no_error :
  sortAndAnimate 0 "shell" at_rest =
    Some (Normal (State [unsorted3] 0 true [] [ShowBars unsorted3])) ∧
  sortAndAnimate 0 "shell" at_rest ≠ Some (Throw "InvalidAlgorithm").
Proof. split; [vm_compute; reflexivity|]. vm_compute. discriminate. Qed.

(** C4 witness: the name "shell". *)
Lemma unknown_algorithm_animates_nothing_witness :
  sortingMoves 0 "shell" (deref at_rest (array at_rest)) = Some [] ∧
  ∃ s',
    sortAndAnimate 0 "shell" at_rest = Some (Normal s') ∧
    arrays s' = arrays at_rest ∧ array s' = array at_rest ∧ timers s' = timers at_rest ∧
    effects s' = effects at_rest ++ [ShowBars (deref at_rest (array at_rest))].
Proof.
  apply (unknown_algorithm_animates_nothing 0 "shell" at_rest).
  intros e. destruct e; simpl; discriminate.
Defined.

(** C5 witness: a sorted array with a repeated value, under heap sort. *)
Lemma sorted_input_unchanged_witness :
  ∃ log,
    returns_above (length [1#10; 2#10; 2#10; 5#10]%Q * length [1#10; 2#10; 2#10; 5#10]%Q)
      (λ fuel, sortingMoves fuel (engine_name Heap) [1#10; 2#10; 2#10; 5#10]%Q) log ∧
    Forall2 equiv_val (replay log [1#10; 2#10; 2#10; 5#10]%Q) [1#10; 2#10; 2#10; 5#10]%Q ∧
    ((∀ x y : Q, equiv_val x y → x = y) →
     replay log [1#10; 2#10; 2#10; 5#10]%Q = [1#10; 2#10; 2#10; 5#10]%Q).
Proof.
  apply (sorted_input_unchanged Heap [1#10; 2#10; 2#10; 5#10]%Q).
  repeat constructor.
Defined.

(** C8 witness: a root 0.1 with two children 0.5, tagged by where they
    stand. *)
Lemma heapify_prefers_left_witness :
  let array := [(1#10, "p"); (5#10, "l"); (5#10, "r")]%Q in
  heapify_largest array 0 3 = 2 * 0 + 1 ∧
  (∀ fuel, heapify (S fuel) array 0 3 [] =
     heapify fuel (swap array 0 (2 * 0 + 1)) (2 * 0 + 1) 3 ([] ++ [Swap 0 (2 * 0 + 1)])) ∧
  ∃ array' rest,
    returns_above (Z.to_nat (3 - 0)) (λ fuel, heapify fuel array 0 3 [])
      (array', [] ++ Swap 0 (2 * 0 + 1) :: rest) ∧
    get (swap array 0 (2 * 0 + 1)) 0 = Some (5#10, "l")%Q ∧
    get (swap array 0 (2 * 0 + 1)) (2 * 0 + 1) = Some (1#10, "p")%Q ∧
    get (swap array 0 (2 * 0 + 1)) (2 * 0 + 2) = Some (5#10, "r")%Q ∧
    replay rest (swap array 0 (2 * 0 + 1)) = array' ∧
    get array' 0 = Some (5#10, "l")%Q ∧
    get array' (2 * 0 + 2) = Some (5#10, "r")%Q.
Proof.
  apply (heapify_prefers_left [(1#10, "p"); (5#10, "l"); (5#10, "r")]%Q 0 3 []
           (1#10, "p")%Q (5#10, "l")%Q (5#10, "r")%Q); try reflexivity.
  by split.
Defined.

(** The run of that call: the root and the left child exchanged. *)
Lemma heapify_tie_run :
  heapify 2 [(1#10, "p"); (5#10, "l"); (5#10, "r")]%Q 0 3 [] =
    Some ([(5#10, "l"); (1#10, "p"); (5#10, "r")]%Q, [Swap 0 1]).
Proof. vm_compute. reflexivity. Qed.

(** C9 witness: the first step of the playback of bubble sort on
    [unsorted3]. *)
Lemma notes_follow_new_values_witness :
  let array' := apply_move (deref at_rest 0%nat) (Swap 0 1) in
  let s' := animate 0%nat [Swap 0 1; Swap 1 2] at_rest in
  let note (v : Q) := Some (add (number 200) (mul (number 500) v)) in
  deref s' 0%nat = array' ∧
  ∃ new,
    effects s' = effects at_rest ++ new ∧
    ∃ vi vj, get array' 0 = Some vi ∧ get array' 1 = Some vj ∧
             notes new = if audioCtx at_rest then [note vi; note vj] else [].
Proof.
  apply (notes_follow_new_values at_rest 0%nat (Swap 0 1) [Swap 1 2]).
  - simpl. lia.
  - repeat constructor; vm_compute; done.
Defined.

(** C1 witness: quick sort on [unsorted3]. *)
Lemma replay_sorts_input_witness :
  ∃ log,
    returns_above (length unsorted3 * length unsorted3)
      (λ fuel, sortingMoves fuel (engine_name Quick) unsorted3) log ∧
    Sorted leq (replay log unsorted3) ∧
    length (replay log unsorted3) = length unsorted3 ∧
    replay log unsorted3 ≡ₚ unsorted3.
Proof. apply (replay_sorts_input Quick unsorted3). Defined.

(** C6 witness: merge sort on [unsorted3]. *)
Lemma log_indices_in_bounds_witness :
  ∃ log,
    returns_above (length unsorted3 * length unsorted3)
      (λ fuel, sortingMoves fuel (engine_name Merge) unsorted3) log ∧
    ∀ m i, m ∈ log → i ∈ move_indices m → 0 ≤ i < len unsorted3.
Proof. apply (log_indices_in_bounds Merge unsorted3). Defined.

(** C7 witness: the three quadratic engines on [unsorted3]. *)
Lemma move_count_bounds_witness :
  let n := length unsorted3 in
  (∃ log, returns_above (inversions unsorted3) (λ fuel, bubbleSort fuel unsorted3) log ∧
          count_swaps log ≤ n * (n - 1) / 2)%nat ∧
  (count_swaps (selectionSort unsorted3) ≤ n * (n - 1) / 2)%nat ∧
  (count_overwrites (insertionSort unsorted3) ≤ n)%nat ∧
  (count_swaps (insertionSort unsorted3) ≤ n * (n - 1) / 2)%nat.
Proof. apply (move_count_bounds unsorted3). Defined.

(** C10 witness: bubble sort on [unsorted3], which has two inversions. *)
Lemma bubbleSort_terminates_witness :
  (∃ log, returns_above (inversions unsorted3) (λ fuel, bubbleSort fuel unsorted3) log) ∧
  (∀ array moves,
     ∃ array' extra swapped,
       bubble_pass (A:=Q) array moves = (array', moves ++ extra, swapped) ∧
       (extra ≠ [] → swapped = true ∧ (inversions array' < inversions array)%nat) ∧
       (extra = [] → swapped = false ∧
          ∀ fuel, bubble_loop (S fuel) array moves = Some (array', moves))).
Proof. apply (bubbleSort_terminates unsorted3). Defined.

(** * Further properties of the engines *)

Section SmallAndSortedInputs.
Context `{Number A}.
Implicit Types (a array arr : list A) (moves extra : list (move A)) (e : engine).

(** X1. On an empty array and on an array of one element every engine
    returns the empty log: no loop body runs and no recursion starts. *)
Theorem small_input_empty_log e a :
  (length a ≤ 1)%nat →
  returns_above 0 (λ fuel, sortingMoves fuel (engine_name e) a) [].
Proof.
  intros Hlen [|fuel] Hfuel; [lia|].
  destruct a as [|x [|y a]]; [| |simpl in Hlen; lia]; by destruct e.
Qed.

Lemma inversions_sorted a : Sorted leq a → inversions a = 0%nat.
Proof.
  intros Hs%(Sorted_StronglySorted _).
  induction Hs as [|x a _ IH Hall]; [done|].
  simpl. by rewrite (smaller_none x a Hall), IH.
Qed.

Lemma swap_sym a i j : swap a i j = swap a j i.
Proof.
  destruct (decide (0 ≤ i < len a)) as [Hi|Hi]; [destruct (decide (0 ≤ j < len a)) as [Hj|Hj]|].
  - apply array_eq. intros t. rewrite !get_swap by done. by repeat case_decide; subst.
  - unfold swap. rewrite (get_None a j Hj). by destruct (get a i).
  - unfold swap. rewrite (get_None a i Hi). by destruct (get a j).
Qed.

(** Swapping two neighbours that are out of order moves no entry past an
    entry of equal value. *)
Lemma equals_of_swap_adjacent array i x y z :
  get array (i - 1) = Some x → get array i = Some y → less y x = true →
  equals_of z (swap array (i - 1) i) = equals_of z array.
Proof.
  intros Hx Hy Hlt. destruct (get_adjacent_split _ _ _ _ Hx Hy) as (p & s & -> & Hp).
  rewrite <- Hp. replace i with (len p + 1) by lia.
  replace (len p + 1 - 1) with (len p) by lia. rewrite swap_adjacent.
  unfold equals_of. rewrite !filter_app, !filter_cons.
  destruct (decide (equiv_val z x)) as [Hzx|]; [|done].
  destruct (decide (equiv_val z y)) as [Hzy|]; [|done].
  pose proof (equiv_val_trans _ _ _ (equiv_val_sym _ _ Hzx) Hzy) as [Hxy _].
  unfold leq in Hxy. congruence.
Qed.

(** *** bubbleSort *)

Lemma bubble_for_equals k i array moves sw z :
  equals_of z (bubble_for k i array moves sw).1.1 = equals_of z array.
Proof.
  revert i array moves sw. induction k as [|k IH]; intros i array moves sw; [done|].
  simpl. destruct (lessO (get array i) (get array (i - 1))) eqn:Hc; [|apply IH].
  destruct (get array i) as [y|] eqn:Hy; [|done].
  destruct (get array (i - 1)) as [x|] eqn:Hx; [|done]. simpl in Hc.
  rewrite IH. by apply (equals_of_swap_adjacent array i x y).
Qed.

(** The loop of [bubbleSort], with the count of its swaps and the order of
    equal values. *)
Lemma bubble_loop_exact n array moves :
  (inversions array ≤ n)%nat →
  ∃ array' extra,
    returns_above n (λ fuel, bubble_loop fuel array moves) (array', moves ++ extra) ∧
    replay extra array = array' ∧
    Sorted leq array' ∧
    length extra = inversions array ∧
    count_overwrites extra = 0%nat ∧
    keeps_order_of_equals array array'.
Proof.
  revert array moves. induction n as [n IH] using lt_wf_ind. intros array moves Hn.
  destruct (bubble_pass_spec array moves)
    as (array1 & extra1 & sw & E & Hr & Hp & Hf & Hinv & Hfalse & Htrue).
  assert (∀ z, equals_of z array1 = equals_of z array) as Heq1.
  { intros z. pose proof (bubble_for_equals (Z.to_nat (len array - 1)) 1 array moves false z) as Hz.
    fold (bubble_pass array moves) in Hz. by rewrite E in Hz. }
  destruct (count_all_swaps _ _ Hf) as [_ How1].
  destruct sw.
  - specialize (Htrue eq_refl).
    destruct (IH (n - 1)%nat ltac:(lia) array1 (moves ++ extra1) ltac:(lia))
      as (array' & extra & Hrun & Hr' & Hs' & Hlen & How & Heq).
    exists array', (extra1 ++ extra). split_conj.
    + intros [|fuel] Hfuel; [lia|]. simpl. rewrite E, app_assoc. apply Hrun. lia.
    + by rewrite replay_app, Hr.
    + done.
    + rewrite length_app. lia.
    + by rewrite count_overwrites_app, How1, How.
    + intros z. by rewrite Heq, Heq1.
  - destruct (Hfalse eq_refl) as [-> Hs]. simpl in Hr. subst array1.
    exists array, []. split_conj; try done.
    + intros [|fuel] Hfuel; [lia|]. simpl. by rewrite E.
    + simpl in Hinv. by rewrite (inversions_sorted _ Hs).
Qed.

(** X2. [bubbleSort] pushes exactly as many swaps as its input has
    inversions, and nothing but swaps. *)
Theorem bubbleSort_counts_inversions a :
  ∃ log,
    returns_above (inversions a) (λ fuel, bubbleSort fuel a) log ∧
    count_swaps log = inversions a ∧ count_overwrites log = 0%nat ∧
    length log = inversions a.
Proof.
  destruct (bubble_loop_exact (inversions a) a []) as (a' & log & Hrun & _ & _ & Hlen & How & _);
    [done|].
  exists log. split_conj; try done.
  - intros fuel Hfuel. unfold bubbleSort. by rewrite Hrun.
  - unfold count_swaps, count_overwrites in *.
    assert (length (filter is_swap log) + length (filter is_overwrite log) = length log)%nat.
    { clear. induction log as [|[] log IH]; simpl; [done|..];
        rewrite !filter_cons; simpl; lia. }
    lia.
Qed.

(** X3. [bubbleSort] is stable: replaying its log leaves entries of equal
    value in the order the input has them. *)
Theorem bubbleSort_stable a :
  ∃ log,
    returns_above (inversions a) (λ fuel, bubbleSort fuel a) log ∧
    keeps_order_of_equals a (replay log a).
Proof.
  destruct (bubble_loop_exact (inversions a) a []) as (a' & log & Hrun & Hr & _ & _ & _ & Heq);
    [done|].
  exists log. split; [|by rewrite Hr].
  intros fuel Hfuel. unfold bubbleSort. by rewrite Hrun.
Qed.
End SmallAndSortedInputs.

Section InsertionExact.
Context `{Number A}.
Implicit Types (a array arr : list A) (moves extra : list (move A)).

(** The shift the engine makes and the swap the log records, seen on the
    array with the key in place: two neighbours out of order change places. *)
Lemma shift_is_adjacent_swap arr j key x :
  0 ≤ j → j + 1 < len arr → get arr j = Some x →
  swap (set arr (j + 1) key) (j + 1 - 1) (j + 1) = set (set arr (j + 1) x) j key.
Proof.
  intros Hj Hlen Hx. apply array_eq. intros t.
  rewrite get_swap by (rewrite len_set; lia).
  rewrite !get_set, !len_set.
  repeat case_decide; try done; try lia.
  by replace (j + 1 - 1) with j by lia.
Qed.

Lemma insertion_while_exact k j key arr moves :
  Z.of_nat k = j + 1 → j + 1 < len arr →
  let r := insertion_while k j key arr moves in
  Z.of_nat (inversions (set r.1.2 (r.1.1 + 1) key)) + (j - r.1.1) =
    Z.of_nat (inversions (set arr (j + 1) key)) ∧
  ∀ z, equals_of z (set r.1.2 (r.1.1 + 1) key) = equals_of z (set arr (j + 1) key).
Proof.
  revert j arr moves. induction k as [|k IH]; intros j arr moves Hk Hlen; simpl.
  { split; [lia|done]. }
  destruct (get arr j) as [x|] eqn:Hx; [|simpl; split; [lia|done]].
  rewrite bool_decide_eq_true_2 by lia. simpl.
  destruct (less key x) eqn:Hlt; [|simpl; split; [lia|done]].
  destruct (IH (j - 1) (set arr (j + 1) x) (moves ++ [Swap (j + 1) j]))
    as [Hinv Heq]; [lia | rewrite len_set; lia |].
  replace (j - 1 + 1) with j in Hinv, Heq by lia.
  set (b := set arr (j + 1) key).
  assert (get b (j + 1 - 1) = Some x) as Hbx.
  { unfold b. rewrite get_set_ne by lia. by replace (j + 1 - 1) with j by lia. }
  assert (get b (j + 1) = Some key) as Hbk by (unfold b; apply get_set_eq; lia).
  pose proof (shift_is_adjacent_swap arr j key x ltac:(lia) Hlen Hx) as Hsw. fold b in Hsw.
  pose proof (inversions_swap b (j + 1) x key Hbx Hbk Hlt) as Hstep.
  rewrite Hsw in Hstep. split.
  - lia.
  - intros z. rewrite Heq, <- Hsw. by apply (equals_of_swap_adjacent b (j + 1) x key).
Qed.

Lemma insertion_for_exact k i array moves :
  1 ≤ i → k = 0%nat ∨ i + Z.of_nat k ≤ len array →
  let r := insertion_for k i array moves in
  (inversions r.1 + count_swaps r.2 = inversions array + count_swaps moves)%nat ∧
  (count_overwrites r.2 = count_overwrites moves + k)%nat ∧
  ∀ z, equals_of z r.1 = equals_of z array.
Proof.
  revert i array moves. induction k as [|k IH]; intros i array moves Hi Hk.
  { simpl. split_conj; [done|lia|done]. }
  destruct Hk as [|Hk]; [done|].
  destruct (get_is_Some array i) as [key Hkey]; [lia|].
  simpl. rewrite Hkey.
  destruct (insertion_while_spec (Z.to_nat i) (i - 1) key array i array moves)
    as (j' & arr' & extra1 & E & Hj' & Hv & Hlen & _ & _ & Hf & Hcount).
  { lia. } { lia. }
  { replace (i - 1 + 1) with i by lia. rewrite (set_get_id _ _ _ Hkey).
    by apply ins_view_init. }
  { done. }
  destruct (insertion_while_exact (Z.to_nat i) (i - 1) key array moves) as [Hinv Heq];
    [lia|lia|].
  rewrite E in Hinv, Heq |- *. simpl in Hinv, Heq.
  replace (i - 1 + 1) with i in Hinv, Heq by lia.
  rewrite (set_get_id _ _ _ Hkey) in Hinv, Heq.
  destruct (count_all_swaps _ _ Hf) as [Hc1 Hc2].
  destruct (IH (i + 1) (set arr' (j' + 1) key) ((moves ++ extra1) ++ [Overwrite (j' + 1) key]))
    as (Hinv' & How' & Heq').
  { lia. } { destruct k; [by left|right]. rewrite len_set. lia. }
  split_conj.
  - rewrite !count_swaps_app in Hinv'.
    change (count_swaps [Overwrite (j' + 1) key]) with 0%nat in Hinv'. lia.
  - rewrite How', !count_overwrites_app, Hc2.
    change (count_overwrites [Overwrite (j' + 1) key]) with 1%nat. lia.
  - intros z. by rewrite Heq', Heq.
Qed.

(** The whole run of the outer loop: the swaps pushed are as many as the
    inversions of the input. *)
Lemma insertion_run_exact a :
  let r := insertion_for (Z.to_nat (len a - 1)) 1 a [] in
  count_swaps r.2 = inversions a ∧
  count_overwrites r.2 = Z.to_nat (len a - 1).
Proof.
  pose proof (len_nonneg a) as Hn.
  destruct (insertion_for_spec (Z.to_nat (len a - 1)) 1 a [])
    as (array' & extra & E & Hr & Hp & Hs & _); [lia| lia | |].
  { intros t x y Ht Hx. apply get_Some_bounds in Hx. lia. }
  destruct (insertion_for_exact (Z.to_nat (len a - 1)) 1 a []) as (Hinv & How & _); [lia|lia|].
  rewrite E in Hinv, How |- *. simpl in *.
  assert (Sorted leq array') as Hsorted.
  { apply (adj_sorted_Sorted array' (1 + Z.of_nat (Z.to_nat (len a - 1)))); [|done].
    unfold len in *. rewrite Hp. lia. }
  rewrite (inversions_sorted _ Hsorted) in Hinv.
  unfold count_swaps, count_overwrites in *. simpl in *.
  split; [lia|done].
Qed.

(** X4. [insertionSort] pushes exactly as many swaps as its input has
    inversions, and one overwrite for each position from 1 on. *)
Theorem insertionSort_counts_inversions a :
  count_swaps (insertionSort a) = inversions a ∧
  count_overwrites (insertionSort a) = (length a - 1)%nat.
Proof.
  destruct (insertion_run_exact a) as [Hsw How]. unfold insertionSort.
  split; [done|]. rewrite How. unfold len. lia.
Qed.

(** X5. [insertionSort] is stable: replaying its log leaves entries of
    equal value in the order the input has them. *)
Theorem insertionSort_stable a :
  keeps_order_of_equals a (replay (insertionSort a) a).
Proof.
  pose proof (len_nonneg a) as Hn. unfold insertionSort.
  destruct (insertion_for_spec (Z.to_nat (len a - 1)) 1 a [])
    as (array' & extra & E & Hr & _); [lia| lia | |].
  { intros t x y Ht Hx. apply get_Some_bounds in Hx. lia. }
  destruct (insertion_for_exact (Z.to_nat (len a - 1)) 1 a []) as (_ & _ & Heq); [lia|lia|].
  rewrite E in Heq |- *. simpl in *. by rewrite Hr.
Qed.
End InsertionExact.

Section SortedInputs.
Context `{Number A}.
Implicit Types (a array : list A) (moves : list (move A)).

(** On a sorted array the scan of [selectionSort] never finds a smaller
    cell and keeps [minIndex] where it started. *)
Lemma selection_scan_sorted k j array i :
  Sorted leq array → i ≤ j →
  selection_scan k j array i = i.
Proof.
  intros Hs%Sorted_sorted_on. revert j. induction k as [|k IH]; intros j Hij; [done|].
  simpl. destruct (lessO (get array j) (get array i)) eqn:Hc; [|apply IH; lia].
  destruct (get array j) as [y|] eqn:Hy; [|done].
  destruct (get array i) as [x|] eqn:Hx; [|done]. simpl in Hc.
  pose proof (get_Some_bounds _ _ _ Hx). pose proof (get_Some_bounds _ _ _ Hy).
  assert (leq x y) as Hle by (apply (Hs i j); [lia|lia|lia|done..]).
  unfold leq in Hle. congruence.
Qed.

Lemma selection_for_sorted k i array moves :
  Sorted leq array → selection_for k i array moves = (array, moves).
Proof.
  intros Hs. revert i. induction k as [|k IH]; intros i; [done|].
  simpl. rewrite selection_scan_sorted by (done || lia).
  by rewrite decide_False by auto.
Qed.

(** X6. On an input that is already sorted, [bubbleSort] and
    [selectionSort] return the empty log, and [insertionSort] pushes no swap,
    only its one overwrite per position from 1 on. *)
Theorem sorted_input_logs a :
  Sorted leq a →
  returns_above 0 (λ fuel, bubbleSort fuel a) [] ∧
  selectionSort a = [] ∧
  count_swaps (insertionSort a) = 0%nat ∧
  count_overwrites (insertionSort a) = (length a - 1)%nat.
Proof.
  intros Hs. pose proof (inversions_sorted a Hs) as Hinv. split_conj.
  - destruct (bubble_loop_exact 0 a []) as (a' & log & Hrun & _ & _ & Hlen & _); [lia|].
    rewrite Hinv in Hlen. apply nil_length_inv in Hlen. subst log.
    intros fuel Hfuel. unfold bubbleSort. by rewrite Hrun.
  - unfold selectionSort. by rewrite selection_for_sorted.
  - destruct (insertion_run_exact a) as [Hsw _]. unfold insertionSort. by rewrite Hsw.
  - destruct (insertion_run_exact a) as [_ How]. unfold insertionSort.
    rewrite How. unfold len. lia.
Qed.
End SortedInputs.

Section EngineParts.
Context `{Number A}.
Implicit Types (a array left right : list A) (moves extra : list (move A)) (e : engine).

(** X7. [selectionSort] pushes at most one swap for each position but the
    last, [n - 1] in all, and no overwrite. *)
Theorem selectionSort_few_swaps a :
  (count_swaps (selectionSort a) ≤ length a - 1)%nat ∧
  count_overwrites (selectionSort a) = 0%nat.
Proof.
  pose proof (len_nonneg a) as Hn. unfold selectionSort.
  destruct (selection_for_spec (Z.to_nat (len a - 1)) 0 a [])
    as (array' & extra & E & _ & _ & _ & Hf & Hl); [lia|lia| |].
  { intros s t x y Hs Hst Hx. apply get_Some_bounds in Hx. lia. }
  rewrite E. simpl. destruct (count_all_swaps _ _ Hf) as [-> ->].
  split; [|done]. unfold len in *. lia.
Qed.

(** X8. The logs of [bubbleSort], [selectionSort], [heapSort] and
    [quickSort] hold swaps only, and the log of [mergeSort] holds overwrites
    only. *)
Theorem log_move_kinds e a :
  e ≠ Insertion →
  ∃ log,
    returns_above (length a * length a) (λ fuel, sortingMoves fuel (engine_name e) a) log ∧
    match e with
    | Merge => count_swaps log = 0%nat
    | _ => count_overwrites log = 0%nat
    end.
Proof.
  intros He. pose proof (square_bounds (length a)) as [Hsq1 Hsq2].
  destruct e; [| done | | | |]; unfold sortingMoves; simpl.
  - destruct (bubble_loop_spec (inversions a) a []) as (a' & log & Hrun & _ & _ & _ & Hf & _);
      [done|].
    exists log. split; [|by destruct (count_all_swaps _ _ Hf)].
    intros fuel Hfuel. unfold bubbleSort. rewrite Hrun; [done|].
    pose proof (inversions_bound a). nia.
  - destruct (selectionSort_spec a) as (_ & _ & Hf & _).
    exists (selectionSort a). split; [done|by destruct (count_all_swaps _ _ Hf)].
  - destruct (heapSort_spec a) as (log & Hrun & _ & _ & Hf).
    exists log. split; [|by destruct (count_all_swaps _ _ Hf)].
    intros fuel Hfuel. apply Hrun. lia.
  - destruct (quickSort_spec a) as (log & Hrun & _ & _ & Hf).
    exists log. split; [|by destruct (count_all_swaps _ _ Hf)].
    intros fuel Hfuel. apply Hrun. lia.
  - destruct (mergeSort_spec (length a) a []) as (sorted & log & Hrun & _ & _ & _ & _ & Hc);
      [done|].
    exists log. split; [|done]. intros fuel Hfuel. rewrite Hrun by lia. done.
Qed.

(** X9. [partition] on a range [low .. high] inside the array moves the
    value of the last cell of the range, the pivot, to the index it returns:
    the cells of the range before that index are less than the pivot, the
    cells of the range after it are not, the cells outside the range stay as
    they were, and the swaps pushed are the mutations made. *)
Theorem partition_places_pivot array low high moves pivot :
  0 ≤ low → low < high → high < len array → get array high = Some pivot →
  ∃ pivotIndex array' extra,
    partition array low high moves = (pivotIndex, array', moves ++ extra) ∧
    low ≤ pivotIndex ≤ high ∧
    get array' pivotIndex = Some pivot ∧
    (∀ t x, low ≤ t < pivotIndex → get array' t = Some x → less x pivot = true) ∧
    (∀ t x, pivotIndex < t ≤ high → get array' t = Some x → less x pivot = false) ∧
    (∀ t, ¬ (low ≤ t ≤ high) → get array' t = get array t) ∧
    array' ≡ₚ array ∧
    replay extra array = array' ∧
    count_overwrites extra = 0%nat.
Proof.
  intros Hlow Hlh Hhigh Hp. unfold partition. rewrite Hp.
  destruct (partition_for_spec (Z.to_nat (high - low)) low pivot (low - 1) array moves low high)
    as (i & array1 & extra & E & Hi & Hr & Hw & Hlt & Hge & Hf);
    [done|done|lia|lia|intros; lia|intros; lia|].
  rewrite E. destruct Hw as (Hl1 & Hp1 & Ho1 & Hi1).
  assert (get array1 high = Some pivot) as Hp' by (rewrite Ho1 by lia; done).
  exists (i + 1), (swap array1 (i + 1) high), (extra ++ [Swap (i + 1) high]).
  rewrite <- app_assoc. split_conj; try done; try lia.
  - rewrite get_swap_l by lia. done.
  - intros t x Ht. rewrite get_swap_ne by lia. apply Hlt. lia.
  - intros t x Ht. rewrite get_swap by lia. case_decide; subst.
    + destruct (decide (i + 1 = high)) as [Heq|]; [lia|]. apply Hge. lia.
    + rewrite decide_False by lia. apply Hge. lia.
  - intros t Ht. rewrite get_swap_ne by lia. apply Ho1. lia.
  - by rewrite swap_perm.
  - by rewrite replay_snoc, Hr.
  - rewrite count_overwrites_app. by destruct (count_all_swaps _ _ Hf) as [_ ->].
Qed.

(** X10. [quickSortHelper] on a range [low .. high] inside the array
    returns, within the length of the range in fuel, with that range sorted
    and the cells outside it as they were; the swaps pushed are the
    mutations made. *)
Theorem quickSortHelper_sorts_range array low high moves :
  0 ≤ low → high < len array →
  ∃ array' extra,
    returns_above (Z.to_nat (high - low + 1))
      (λ fuel, quickSortHelper fuel array low high moves) (array', moves ++ extra) ∧
    sorted_on array' low (high + 1) ∧
    (∀ t, ¬ (low ≤ t ≤ high) → get array' t = get array t) ∧
    array' ≡ₚ array ∧
    replay extra array = array'.
Proof.
  intros Hlow Hhigh.
  destruct (quickSortHelper_spec (Z.to_nat (high - low + 1)) array low high moves)
    as (array' & extra & Hrun & Hr & (_ & Hp & Ho & _) & Hs & _); [done|done|lia|].
  exists array', extra. by split_conj.
Qed.

(** X11. [buildMaxHeap] returns with a max-heap: no cell is below either of
    its children, so the first cell holds a greatest value; the array is a
    rearrangement of the input and the swaps pushed are the mutations
    made. *)
Theorem buildMaxHeap_makes_heap array moves :
  ∃ array' extra,
    (∀ fuel, (length array ≤ fuel)%nat →
       buildMaxHeap fuel array moves = Some (array', moves ++ extra)) ∧
    (∀ q c v x, c = 2 * q + 1 ∨ c = 2 * q + 2 →
       get array' q = Some v → get array' c = Some x → leq x v) ∧
    (∀ t x r, get array' t = Some x → get array' 0 = Some r → leq x r) ∧
    array' ≡ₚ array ∧
    replay extra array = array'.
Proof.
  destruct (buildMaxHeap_spec array moves) as (array' & extra & Hrun & Hr & Hp & Hheap & _).
  assert (len array' = len array) as Hlen by (by apply len_perm).
  exists array', extra. split_conj; try done.
  - intros q c v x Hc Hv Hx. pose proof (get_Some_bounds _ _ _ Hv).
    pose proof (get_Some_bounds _ _ _ Hx).
    apply (Hheap q v ltac:(lia) Hv c x Hc); [lia|done].
  - intros t x r Hx Hr0. pose proof (get_Some_bounds _ _ _ Hx).
    apply (heap_root_max array' (len array) t x r); [done|lia|done..].
Qed.

(** X12. [heapify] at a node whose descendants already form heaps sifts the
    node down: it returns, within [max - i] units of fuel, with the heap
    property from that node on, and touches no cell before [i] or from [max]
    on. *)
Theorem heapify_restores_heap array i max moves :
  0 ≤ i → i < max → max ≤ len array →
  heap_from array (i + 1) max →
  ∃ array' extra,
    (∀ fuel, max - i ≤ Z.of_nat fuel →
       heapify fuel array i max moves = Some (array', moves ++ extra)) ∧
    heap_from array' i max ∧
    (∀ t, ¬ (i ≤ t < max) → get array' t = get array t) ∧
    array' ≡ₚ array ∧
    replay extra array = array'.
Proof.
  intros Hi Himax Hmax Hheap.
  destruct (heapify_spec (Z.to_nat (max - i)) array i i max moves)
    as (array' & extra & Hrun & Hr & (_ & Hp & Ho & _) & Hheap' & _).
  { lia. } { lia. } { lia. } { lia. }
  { intros q v Hq Hqi. apply Hheap. lia. }
  { intros q v Hq Hqi. lia. }
  exists array', extra. split_conj; try done.
  - intros fuel Hfuel. apply Hrun. lia.
  - intros t Ht. apply Ho. lia.
Qed.

(** X13. [merge] of two sorted halves into an array as long as the two
    together leaves that array sorted and holding the values of both; it
    pushes one overwrite per cell, in index order from 0, and the overwrites
    are the mutations made. *)
Theorem merge_sorted_halves left right originalArray moves :
  Sorted leq left → Sorted leq right →
  length originalArray = (length left + length right)%nat →
  ∃ array' extra,
    merge left right originalArray moves = (array', moves ++ extra) ∧
    Sorted leq array' ∧
    array' ≡ₚ left ++ right ∧
    replay extra originalArray = array' ∧
    extra = overwrites_from 0 array'.
Proof.
  intros Hl%(Sorted_StronglySorted _) Hr%(Sorted_StronglySorted _) Hlen.
  set (vals := merge_vals (length left + length right) left right).
  assert (vals ≡ₚ left ++ right) as Hperm by apply merge_vals_perm.
  assert (replay (overwrites_from 0 vals) originalArray = vals) as Hreplay.
  { apply replay_overwrites_all. unfold len. by rewrite Hperm, length_app, Hlen. }
  exists vals, (overwrites_from 0 vals). split_conj; try done.
  - rewrite merge_spec. fold vals. by rewrite Hreplay.
  - apply StronglySorted_Sorted. by apply merge_vals_sorted.
Qed.

(** X14. On an array of two or more cells, [mergeSort] returns the sorted
    array, and its log ends with the overwrites of the last merge, which
    write every cell: replayed on any array of the same length, whatever it
    holds, the log leaves the sorted values of the input. *)
Theorem mergeSort_log_overwrites_all a :
  (2 ≤ length a)%nat →
  ∃ sorted log,
    returns_above (length a) (λ fuel, mergeSort fuel a []) (sorted, log) ∧
    Sorted leq sorted ∧ sorted ≡ₚ a ∧
    ∀ b : list A, length b = length a → replay log b = sorted.
Proof.
  intros Hlen. set (mid := len a / 2).
  assert (1 < len a) as Hgt by (unfold len; lia).
  assert (0 < mid < len a) as Hmid.
  { unfold mid. split; [apply Z.div_str_pos; lia | apply Z.div_lt_upper_bound; lia]. }
  assert (slice a 0 mid = take (Z.to_nat mid) a) as Eleft.
  { unfold slice. by replace (mid - 0) with mid by lia. }
  assert (slice a mid (len a) = drop (Z.to_nat mid) a) as Eright.
  { unfold slice. apply take_ge. rewrite length_drop. unfold len in *. lia. }
  destruct (mergeSort_spec (length a - 1) (slice a 0 mid) [])
    as (l & extra1 & Hrun1 & Hs1 & Hp1 & _).
  { rewrite Eleft, length_take. unfold len in *. lia. }
  destruct (mergeSort_spec (length a - 1) (slice a mid (len a)) ([] ++ extra1))
    as (r & extra2 & Hrun2 & Hs2 & Hp2 & _).
  { rewrite Eright, length_drop. unfold len in *. lia. }
  set (vals := merge_vals (length l + length r) l r).
  assert (vals ≡ₚ a) as Hperm.
  { unfold vals. rewrite merge_vals_perm, Hp1, Hp2, Eleft, Eright. by rewrite take_drop. }
  exists vals, (([] ++ extra1) ++ extra2 ++ overwrites_from 0 vals). split_conj.
  - intros [|fuel] Hfuel; [lia|]. simpl. rewrite decide_False by lia.
    fold mid. rewrite Hrun1 by lia. simpl. rewrite Hrun2 by lia. simpl.
    rewrite merge_spec. fold vals. rewrite <- !app_assoc.
    rewrite replay_overwrites_all; [done|]. symmetry. by apply len_perm.
  - apply StronglySorted_Sorted. by apply merge_vals_sorted.
  - done.
  - intros b Hb. rewrite !app_assoc, replay_app. apply replay_overwrites_all.
    rewrite len_replay. unfold len. by rewrite Hb, Hperm.
Qed.
End EngineParts.

Section EngineCopies.
Context `{Number A}.
Implicit Types (a : list A).

(** X15. The log is a faithful record of what an engine does to its own
    copy: when [bubbleSort], [insertionSort], [selectionSort] and [heapSort]
    are done, the copy they worked on is sorted and is what replaying the log
    on the input gives.  This holds for [insertionSort] too, which shifts
    cells up where its log records swaps. *)
Theorem working_copy_is_replay a :
  (∃ array' log,
     returns_above (inversions a) (λ fuel, bubble_loop fuel a []) (array', log) ∧
     array' = replay log a ∧ Sorted leq array') ∧
  (let r := insertion_for (Z.to_nat (len a - 1)) 1 a [] in
   r.1 = replay r.2 a ∧ Sorted leq r.1) ∧
  (let r := selection_for (Z.to_nat (len a - 1)) 0 a [] in
   r.1 = replay r.2 a ∧ Sorted leq r.1) ∧
  (∃ array' log,
     returns_above (length a)
       (λ fuel, '(array1, moves1) ← buildMaxHeap fuel a [];
                heapSort_for fuel (Z.to_nat (len array1 - 1)) (len array1 - 1) array1 moves1)
       (array', log) ∧
     array' = replay log a ∧ Sorted leq array').
Proof.
  pose proof (len_nonneg a) as Hn. split_conj.
  - destruct (bubble_loop_spec (inversions a) a []) as (a' & log & Hrun & Hr & _ & Hs & _);
      [done|].
    by exists a', log.
  - destruct (insertion_for_spec (Z.to_nat (len a - 1)) 1 a [])
      as (array' & extra & E & Hr & Hp & Hs & _); [lia| lia | |].
    { intros t x y Ht Hx. apply get_Some_bounds in Hx. lia. }
    rewrite E. simpl. split; [done|].
    apply (adj_sorted_Sorted array' (1 + Z.of_nat (Z.to_nat (len a - 1)))); [|done].
    rewrite (len_perm _ _ Hp). lia.
  - destruct (selection_for_spec (Z.to_nat (len a - 1)) 0 a [])
      as (array' & extra & E & Hr & Hp & Hs & _); [lia|lia| |].
    { intros s t x y Hs Hst Hx. apply get_Some_bounds in Hx. lia. }
    rewrite E. simpl. split; [done|].
    apply Sorted_get. intros t x y Hx Hy. pose proof (get_Some_bounds _ _ _ Hy) as Hb.
    rewrite (len_perm _ _ Hp) in Hb. apply (Hs (t - 1) t); [lia|lia|done..].
  - destruct (buildMaxHeap_spec a []) as (a1 & extra1 & Hrun1 & Hr1 & Hp1 & Hheap1 & _).
    pose proof (len_perm _ _ Hp1) as Hl1.
    destruct (decide (len a = 0)) as [E0|].
    + exists a1, extra1. split_conj; try done.
      * intros fuel Hfuel. rewrite Hrun1 by lia. simpl. by rewrite Hl1, E0.
      * apply sorted_on_Sorted. intros i j x y ??? Hx. apply get_Some_bounds in Hx. lia.
    + destruct (heapSort_for_spec (Z.to_nat (len a1 - 1)) (len a1 - 1) a1 extra1)
        as (a2 & extra2 & Hrun2 & Hr2 & Hp2 & Hs2 & _).
      { lia. } { lia. }
      { replace (len a1 - 1 + 1) with (len a1) by lia. by rewrite Hl1. }
      { intros i j x y ??? Hx Hy. apply get_Some_bounds in Hy. lia. }
      { intros s t x y ? Hx Hy. apply get_Some_bounds in Hy. lia. }
      exists a2, (extra1 ++ extra2). split_conj.
      * intros fuel Hfuel. rewrite Hrun1 by lia. simpl. apply Hrun2. rewrite Hp1. lia.
      * by rewrite replay_app, Hr1, Hr2.
      * apply sorted_on_Sorted. by rewrite (len_perm _ _ Hp2).
Qed.
End EngineCopies.

(** * Further properties of the playback *)

Section PlaybackRuns.
Context `{Number A, Arith A}.
Implicit Types (s : state A) (ref : nat) (moves rest log : list (move A)) (a p : list A).

Lemma frames_app (es es' : list (effect A)) : frames (es ++ es') = frames es ++ frames es'.
Proof. unfold frames. apply omap_app. Qed.

Lemma notes_app (es es' : list (effect A)) : notes (es ++ es') = notes es ++ notes es'.
Proof. unfold notes. apply omap_app. Qed.

(** What one step of [animate] adds to the effects. *)
Lemma effects_animate_cons ref move rest s :
  ∃ sounds,
    effects (animate ref (move :: rest) s) =
      effects s ++ sounds ++ [ShowBars (apply_move (deref s ref) move)] ∧
    frames sounds = [] ∧
    (audioCtx s = false → notes sounds = []).
Proof.
  unfold animate, playNote, showBars, emit.
  destruct move as [i j|i v]; simpl; destruct (audioCtx s); simpl;
    [eexists [_; _] | eexists [_; _] | eexists [_] | eexists [_]];
    (split; [by rewrite <- !app_assoc|]); by split.
Qed.

Lemma audioCtx_animate ref moves s : audioCtx (animate ref moves s) = audioCtx s.
Proof.
  unfold animate, playNote, showBars, emit.
  destruct moves as [|[] rest]; simpl; by destruct (audioCtx s).
Qed.

(** A playback in flight runs to its end: one tick per move left and one
    more to find the log empty. *)
Lemma playback_run s ref moves p :
  in_flight s ref moves p →
  let s' := ticks (S (length moves)) s in
  timers s' = [] ∧
  arrays s' !! ref = Some (replay moves p) ∧
  arrays s' !! array s' = Some (replay moves p) ∧
  frames (effects s') = frames (effects s) ++ snapshots p moves ++ [replay moves p] ∧
  last (effects s') = Some (ShowBars (replay moves p)).
Proof.
  revert s p. induction moves as [|move rest IH]; intros s p Hs.
  - destruct Hs as (Et & _ & Href & Harray). simpl. unfold tick. rewrite Et. simpl.
    unfold deref. simpl. rewrite (list_lookup_total_correct _ _ _ Href).
    split_conj; try done.
    + by rewrite frames_app.
    + by rewrite last_snoc.
  - pose proof (in_flight_tick _ _ _ _ _ Hs) as Hs'.
    destruct (IH (tick s) (apply_move p move) Hs') as (Ht & Href & Harray & Hframes & Hlast).
    cbv zeta in *.
    change (ticks (S (length (move :: rest))) s) with (ticks (S (length rest)) (tick s)).
    split_conj; try done.
    rewrite Hframes. destruct Hs as (Et & _ & Hp & _).
    unfold tick. rewrite Et.
    destruct (effects_animate_cons ref move rest
                (State (arrays s) (array s) (audioCtx s) [] (effects s)))
      as (sounds & -> & Hsounds & _).
    simpl. unfold deref. simpl. rewrite (list_lookup_total_correct _ _ _ Hp).
    rewrite !frames_app, Hsounds. simpl. by rewrite <- !app_assoc.
Qed.

(** X16. A sort requested at rest plays to its end.  After as many ticks as
    the log has moves no timer is pending; the array the playback worked on
    and the array React holds both hold the input sorted; and the last thing
    drawn is that sorted array. *)
Theorem playback_ends_sorted fuel (e : engine) s a :
  timers s = [] → arrays s !! array s = Some a →
  (length a * length a < fuel)%nat →
  ∃ log s1,
    sortingMoves fuel (engine_name e) a = Some log ∧
    sortAndAnimate fuel (engine_name e) s = Some (Normal s1) ∧
    let s' := ticks (length log) s1 in
    let sorted := replay log a in
    Sorted leq sorted ∧ sorted ≡ₚ a ∧
    timers s' = [] ∧
    arrays s' !! array s = Some sorted ∧
    arrays s' !! array s' = Some sorted ∧
    last (effects s') = Some (ShowBars sorted).
Proof.
  intros Et Ha Hfuel.
  destruct (engine_spec e a) as (log & Hrun & Hsorted & Hperm & _).
  specialize (Hrun fuel Hfuel). simpl in Hrun.
  exists log, (animate (array s) log s). cbv zeta.
  split; [done|]. split.
  { unfold sortAndAnimate. by rewrite (deref_lookup _ _ _ Ha), Hrun. }
  split; [done|]. split; [done|].
  destruct log as [|move rest].
  - simpl. unfold showBars, emit. simpl. rewrite Et, Ha, last_snoc.
    by rewrite (deref_lookup _ _ _ Ha).
  - pose proof (animate_in_flight s (array s) move rest a Et Ha) as Hs.
    destruct (playback_run _ _ _ _ Hs) as (Ht & Href & Harray & _ & Hlast).
    change (length (move :: rest)) with (S (length rest)). by split_conj.
Qed.

(** X17. The frames of a playback are the states of the replay: a sort
    requested at rest draws the array after each move of the log, in log
    order, one frame per move, and then the final array once more. *)
Theorem playback_frames fuel algorithm s a log s1 :
  timers s = [] → arrays s !! array s = Some a →
  sortingMoves fuel algorithm a = Some log →
  sortAndAnimate fuel algorithm s = Some (Normal s1) →
  frames (effects (ticks (length log) s1)) =
    frames (effects s) ++ snapshots a log ++ [replay log a].
Proof.
  intros Et Ha Hlog Hs1. unfold sortAndAnimate in Hs1.
  rewrite (deref_lookup _ _ _ Ha), Hlog in Hs1. simpl in Hs1. injection Hs1 as <-.
  destruct log as [|move rest].
  - simpl. unfold showBars. simpl. by rewrite frames_app, (deref_lookup _ _ _ Ha).
  - pose proof (animate_in_flight s (array s) move rest a Et Ha) as Hs.
    destruct (playback_run _ _ _ _ Hs) as (_ & _ & _ & Hframes & _).
    change (length (move :: rest)) with (S (length rest)). rewrite Hframes.
    destruct (effects_animate_cons (array s) move rest s) as (sounds & -> & Hsounds & _).
    rewrite (deref_lookup _ _ _ Ha), !frames_app, Hsounds. simpl.
    by rewrite <- !app_assoc.
Qed.
End PlaybackRuns.

Section PlaybackSound.
Context `{Number A, Arith A}.
Implicit Types (s : state A) (ref : nat) (moves rest log : list (move A)) (a p : list A).

Lemma visible_animate ref moves s1 s2 :
  visible s1 = visible s2 → visible (animate ref moves s1) = visible (animate ref moves s2).
Proof.
  unfold visible. intros [= Harrays Harray Htimers Hframes].
  assert (deref s1 ref = deref s2 ref) as Hderef by (unfold deref; by rewrite Harrays).
  destruct moves as [|move rest].
  - simpl. unfold showBars, emit. simpl. rewrite !frames_app. congruence.
  - rewrite !arrays_animate_cons, !array_animate_cons, !timers_animate_cons.
    destruct (effects_animate_cons ref move rest s1) as (sounds1 & -> & Hs1 & _).
    destruct (effects_animate_cons ref move rest s2) as (sounds2 & -> & Hs2 & _).
    rewrite !frames_app, Hs1, Hs2. congruence.
Qed.

Lemma visible_ticks n s1 s2 :
  visible s1 = visible s2 → visible (ticks n s1) = visible (ticks n s2).
Proof.
  revert s1 s2. induction n as [|n IH]; intros s1 s2 Hv; [done|].
  simpl. apply IH. unfold tick.
  pose proof Hv as [= Harrays Harray Htimers Hframes]. rewrite Htimers.
  destruct (timers s2) as [|[ref moves] pending]; [done|].
  apply visible_animate. unfold visible. simpl. congruence.
Qed.

Lemma notes_animate_silent ref moves s :
  audioCtx s = false → notes (effects (animate ref moves s)) = notes (effects s).
Proof.
  intros Hsilent. destruct moves as [|move rest].
  - simpl. unfold showBars, emit. simpl. rewrite notes_app. simpl. by rewrite app_nil_r.
  - destruct (effects_animate_cons ref move rest s) as (sounds & -> & _ & Hn).
    rewrite !notes_app, (Hn Hsilent). simpl. by rewrite app_nil_r.
Qed.

Lemma notes_ticks_silent n s :
  audioCtx s = false → notes (effects (ticks n s)) = notes (effects s).
Proof.
  revert s. induction n as [|n IH]; intros s Hsilent; [done|].
  simpl. unfold tick. destruct (timers s) as [|[ref moves] pending]; [by apply IH|].
  rewrite IH by (by rewrite audioCtx_animate).
  by rewrite notes_animate_silent.
Qed.

(** X18. Without an audio context the playback goes on as with one: for the
    same request, after any number of ticks, the arrays, the array React
    holds, the pending timers and the frames drawn are the same; only no
    note has been played. *)
Theorem silent_playback_same_frames fuel algorithm s with_sound n :
  sortAndAnimate fuel algorithm (with_audio true s) = Some (Normal with_sound) →
  ∃ silent,
    sortAndAnimate fuel algorithm (with_audio false s) = Some (Normal silent) ∧
    visible (ticks n silent) = visible (ticks n with_sound) ∧
    notes (effects (ticks n silent)) = notes (effects s).
Proof.
  unfold sortAndAnimate. simpl.
  change (deref (with_audio true s) (array s)) with (deref s (array s)).
  change (deref (with_audio false s) (array s)) with (deref s (array s)).
  destruct (sortingMoves fuel algorithm (deref s (array s))) as [log|]; [|done].
  simpl. intros [= <-]. eexists. split; [done|]. split.
  - by apply visible_ticks, visible_animate.
  - rewrite notes_ticks_silent by (by rewrite audioCtx_animate).
    by rewrite notes_animate_silent.
Qed.

(** The notes of one step, with an audio context: two for a swap, one for an
    overwrite. *)
Lemma notes_animate_cons ref move rest s :
  audioCtx s = true →
  length (notes (effects (animate ref (move :: rest) s))) =
    (length (notes (effects s)) + if is_swap move then 2 else 1)%nat.
Proof.
  intros Haudio. unfold animate, playNote, showBars, emit.
  destruct move as [i j|i v]; simpl; rewrite Haudio; simpl;
    rewrite !notes_app, !length_app; simpl; lia.
Qed.

Lemma notes_playback_run s ref moves p :
  in_flight s ref moves p → audioCtx s = true →
  length (notes (effects (ticks (S (length moves)) s))) =
    (length (notes (effects s)) + 2 * count_swaps moves + count_overwrites moves)%nat.
Proof.
  revert s p. induction moves as [|move rest IH]; intros s p Hs Haudio.
  - destruct Hs as (Et & _). simpl. unfold tick. rewrite Et. simpl.
    unfold showBars, emit. simpl. rewrite notes_app. simpl.
    rewrite app_nil_r. unfold count_swaps, count_overwrites. simpl. lia.
  - pose proof (in_flight_tick _ _ _ _ _ Hs) as Hs'.
    change (ticks (S (length (move :: rest))) s) with (ticks (S (length rest)) (tick s)).
    assert (audioCtx (tick s) = true) as Haudio'.
    { destruct Hs as (Et & _). unfold tick. rewrite Et. by rewrite audioCtx_animate. }
    rewrite (IH (tick s) _ Hs' Haudio').
    destruct Hs as (Et & _). unfold tick. rewrite Et.
    rewrite notes_animate_cons by done. simpl.
    change (move :: rest) with ([move] ++ rest).
    rewrite count_swaps_app, count_overwrites_app.
    unfold count_swaps, count_overwrites. destruct move; simpl; lia.
Qed.

(** X19. With an audio context, a playback started at rest plays, over its
    whole run, two notes for every swap of the log and one for every
    overwrite. *)
Theorem playback_note_count fuel algorithm s a log s1 :
  timers s = [] → arrays s !! array s = Some a → audioCtx s = true →
  sortingMoves fuel algorithm a = Some log →
  sortAndAnimate fuel algorithm s = Some (Normal s1) →
  length (notes (effects (ticks (length log) s1))) =
    (length (notes (effects s)) + 2 * count_swaps log + count_overwrites log)%nat.
Proof.
  intros Et Ha Haudio Hlog Hs1. unfold sortAndAnimate in Hs1.
  rewrite (deref_lookup _ _ _ Ha), Hlog in Hs1. simpl in Hs1. injection Hs1 as <-.
  destruct log as [|move rest].
  - simpl. unfold showBars, emit. simpl. rewrite notes_app. simpl.
    rewrite app_nil_r. unfold count_swaps, count_overwrites. simpl. lia.
  - pose proof (animate_in_flight s (array s) move rest a Et Ha) as Hs.
    change (length (move :: rest)) with (S (length rest)).
    rewrite (notes_playback_run _ _ _ _ Hs) by (by rewrite audioCtx_animate).
    rewrite notes_animate_cons by done.
    change (move :: rest) with ([move] ++ rest).
    rewrite count_swaps_app, count_overwrites_app.
    unfold count_swaps, count_overwrites. destruct move; simpl; lia.
Qed.

(** X20. [resetArray] stops no playback.  It makes React hold a new array of
    [NUMBER_OF_ARRAY_BARS] cells and draws it, but the tick of a playback in
    flight stays pending; when it fires, the playback applies its next move
    to its own array, hands React a copy of that array in place of the new
    one, and draws it. *)
Theorem reset_does_not_stop_playback random s ref move rest p :
  in_flight s ref (move :: rest) p →
  let s1 := resetArray random s in
  let s2 := tick s1 in
  arrays s1 !! array s1 = Some (randomArray random) ∧
  length (randomArray random) = NUMBER_OF_ARRAY_BARS ∧
  last (effects s1) = Some (ShowBars (randomArray random)) ∧
  timers s1 = [(ref, move :: rest)] ∧
  in_flight s2 ref rest (apply_move p move) ∧
  last (effects s2) = Some (ShowBars (apply_move p move)).
Proof.
  intros (Et & Hne & Href & Harray). pose proof (lookup_lt_Some _ _ _ Href) as Hlt.
  assert (length (randomArray random) = NUMBER_OF_ARRAY_BARS) as Hlen.
  { unfold randomArray. by rewrite length_fmap, length_seq. }
  cbv zeta. unfold resetArray. generalize dependent (randomArray random). intros new Hlen.
  unfold showBars, emit, tick. cbn [arrays array timers effects audioCtx]. rewrite Et.
  split_conj.
  - rewrite lookup_app_r by done. by rewrite Nat.sub_diag.
  - done.
  - by rewrite last_snoc.
  - done.
  - apply animate_in_flight; [done|]. cbn [arrays]. by rewrite lookup_app_l.
  - match goal with |- context [animate ref (move :: rest) ?s0] =>
      destruct (effects_animate_cons ref move rest s0) as (sounds & -> & _) end.
    rewrite !app_assoc, last_snoc. unfold deref. cbn [arrays].
    rewrite lookup_total_app_l by done.
    by rewrite (list_lookup_total_correct _ _ _ Href).
Qed.
End PlaybackSound.

(** * Concrete runs of the further properties *)

(** X1 witness: heap sort on one cell. *)
Lemma small_input_empty_log_witness :
  returns_above 0 (λ fuel, sortingMoves fuel (engine_name Heap) [1#2]%Q) [].
Proof. apply (small_input_empty_log Heap [1#2]%Q). simpl. lia. Defined.

(** X2 witness: [unsorted3] has two inversions. *)
Lemma bubbleSort_counts_inversions_witness :
  ∃ log,
    returns_above (inversions unsorted3) (λ fuel, bubbleSort fuel unsorted3) log ∧
    count_swaps log = inversions unsorted3 ∧ count_overwrites log = 0%nat ∧
    length log = inversions unsorted3.
Proof. apply (bubbleSort_counts_inversions unsorted3). Defined.

(** X3 witness: the two 0.5 of [tagged_input]. *)
Lemma bubbleSort_stable_witness :
  ∃ log,
    returns_above (inversions tagged_input) (λ fuel, bubbleSort fuel tagged_input) log ∧
    keeps_order_of_equals tagged_input (replay log tagged_input).
Proof. apply (bubbleSort_stable tagged_input). Defined.

(** X4 witness. *)
Lemma insertionSort_counts_inversions_witness :
  count_swaps (insertionSort unsorted3) = inversions unsorted3 ∧
  count_overwrites (insertionSort unsorted3) = (length unsorted3 - 1)%nat.
Proof. apply (insertionSort_counts_inversions unsorted3). Defined.

(** X5 witness. *)
Lemma insertionSort_stable_witness :
  keeps_order_of_equals tagged_input (replay (insertionSort tagged_input) tagged_input).
Proof. apply (insertionSort_stable tagged_input). Defined.

(** X6 witness: a sorted array with a repeated value. *)
Lemma sorted_input_logs_witness :
  returns_above 0 (λ fuel, bubbleSort fuel [1#10; 2#10; 2#10; 5#10]%Q) [] ∧
  selectionSort [1#10; 2#10; 2#10; 5#10]%Q = [] ∧
  count_swaps (insertionSort [1#10; 2#10; 2#10; 5#10]%Q) = 0%nat ∧
  count_overwrites (insertionSort [1#10; 2#10; 2#10; 5#10]%Q) =
    (length [1#10; 2#10; 2#10; 5#10]%Q - 1)%nat.
Proof. apply (sorted_input_logs [1#10; 2#10; 2#10; 5#10]%Q). repeat constructor. Defined.

(** X7 witness. *)
Lemma selectionSort_few_swaps_witness :
  (count_swaps (selectionSort unsorted3) ≤ length unsorted3 - 1)%nat ∧
  count_overwrites (selectionSort unsorted3) = 0%nat.
Proof. apply (selectionSort_few_swaps unsorted3). Defined.

(** X8 witness: merge sort. *)
Lemma log_move_kinds_witness :
  ∃ log,
    returns_above (length unsorted3 * length unsorted3)
      (λ fuel, sortingMoves fuel (engine_name Merge) unsorted3) log ∧
    count_swaps log = 0%nat.
Proof. apply (log_move_kinds Merge unsorted3). discriminate. Defined.

(** X9 witness: the first partition of quick sort on [unsorted3],
    pivot 0.2. *)
Lemma partition_places_pivot_witness :
  ∃ pivotIndex array' extra,
    partition unsorted3 0 2 [] = (pivotIndex, array', [] ++ extra) ∧
    0 ≤ pivotIndex ≤ 2 ∧
    get array' pivotIndex = Some (2#10)%Q ∧
    (∀ t x, 0 ≤ t < pivotIndex → get array' t = Some x → less x (2#10)%Q = true) ∧
    (∀ t x, pivotIndex < t ≤ 2 → get array' t = Some x → less x (2#10)%Q = false) ∧
    (∀ t, ¬ (0 ≤ t ≤ 2) → get array' t = get unsorted3 t) ∧
    array' ≡ₚ unsorted3 ∧
    replay extra unsorted3 = array' ∧
    count_overwrites extra = 0%nat.
Proof.
  apply (partition_places_pivot unsorted3 0 2 [] (2#10)%Q); try reflexivity; by vm_compute.
Defined.

(** X10 witness: the whole of [unsorted3]. *)
Lemma quickSortHelper_sorts_range_witness :
  ∃ array' extra,
    returns_above (Z.to_nat (2 - 0 + 1))
      (λ fuel, quickSortHelper fuel unsorted3 0 2 []) (array', [] ++ extra) ∧
    sorted_on array' 0 (2 + 1) ∧
    (∀ t, ¬ (0 ≤ t ≤ 2) → get array' t = get unsorted3 t) ∧
    array' ≡ₚ unsorted3 ∧
    replay extra unsorted3 = array'.
Proof. apply (quickSortHelper_sorts_range unsorted3 0 2 []); by vm_compute. Defined.

(** X11 witness. *)
Lemma buildMaxHeap_makes_heap_witness :
  ∃ array' extra,
    (∀ fuel, (length unsorted3 ≤ fuel)%nat →
       buildMaxHeap fuel unsorted3 [] = Some (array', [] ++ extra)) ∧
    (∀ q c v x, c = 2 * q + 1 ∨ c = 2 * q + 2 →
       get array' q = Some v → get array' c = Some x → leq x v) ∧
    (∀ t x r, get array' t = Some x → get array' 0 = Some r → leq x r) ∧
    array' ≡ₚ unsorted3 ∧
    replay extra unsorted3 = array'.
Proof. apply (buildMaxHeap_makes_heap unsorted3 []). Defined.

(** X12 witness: a root below its left child. *)
Lemma heapify_restores_heap_witness :
  ∃ array' extra,
    (∀ fuel, 3 - 0 ≤ Z.of_nat fuel →
       heapify fuel [1#10; 5#10; 3#10]%Q 0 3 [] = Some (array', [] ++ extra)) ∧
    heap_from array' 0 3 ∧
    (∀ t, ¬ (0 ≤ t < 3) → get array' t = get [1#10; 5#10; 3#10]%Q t) ∧
    array' ≡ₚ [1#10; 5#10; 3#10]%Q ∧
    replay extra [1#10; 5#10; 3#10]%Q = array'.
Proof.
  apply (heapify_restores_heap [1#10; 5#10; 3#10]%Q 0 3 []); try (by vm_compute).
  intros q v Hq Hv c x Hc Hmax. lia.
Defined.

(** X13 witness: the last merge of merge sort on [unsorted3]. *)
Lemma merge_sorted_halves_witness :
  ∃ array' extra,
    merge [3#10]%Q [1#10; 2#10]%Q unsorted3 [] = (array', [] ++ extra) ∧
    Sorted leq array' ∧
    array' ≡ₚ [3#10]%Q ++ [1#10; 2#10]%Q ∧
    replay extra unsorted3 = array' ∧
    extra = overwrites_from 0 array'.
Proof.
  apply (merge_sorted_halves [3#10]%Q [1#10; 2#10]%Q unsorted3 []);
    [repeat constructor | repeat constructor | reflexivity].
Defined.

(** X14 witness. *)
Lemma mergeSort_log_overwrites_all_witness :
  ∃ sorted log,
    returns_above (length unsorted3) (λ fuel, mergeSort fuel unsorted3 []) (sorted, log) ∧
    Sorted leq sorted ∧ sorted ≡ₚ unsorted3 ∧
    ∀ b : list Q, length b = length unsorted3 → replay log b = sorted.
Proof. apply (mergeSort_log_overwrites_all unsorted3). simpl. lia. Defined.

(** X15 witness. *)
Lemma working_copy_is_replay_witness :
  (∃ array' log,
     returns_above (inversions unsorted3) (λ fuel, bubble_loop fuel unsorted3 [])
       (array', log) ∧
     array' = replay log unsorted3 ∧ Sorted leq array') ∧
  (let r := insertion_for (Z.to_nat (len unsorted3 - 1)) 1 unsorted3 [] in
   r.1 = replay r.2 unsorted3 ∧ Sorted leq r.1) ∧
  (let r := selection_for (Z.to_nat (len unsorted3 - 1)) 0 unsorted3 [] in
   r.1 = replay r.2 unsorted3 ∧ Sorted leq r.1) ∧
  (∃ array' log,
     returns_above (length unsorted3)
       (λ fuel, '(array1, moves1) ← buildMaxHeap fuel unsorted3 [];
                heapSort_for fuel (Z.to_nat (len array1 - 1)) (len array1 - 1) array1 moves1)
       (array', log) ∧
     array' = replay log unsorted3 ∧ Sorted leq array').
Proof. apply (working_copy_is_replay unsorted3). Defined.

(** X16 witness: quick sort requested at rest on [unsorted3]. *)
Lemma playback_ends_sorted_witness :
  ∃ log s1,
    sortingMoves 10 (engine_name Quick) unsorted3 = Some log ∧
    sortAndAnimate 10 (engine_name Quick) at_rest = Some (Normal s1) ∧
    let s' := ticks (length log) s1 in
    let sorted := replay log unsorted3 in
    Sorted leq sorted ∧ sorted ≡ₚ unsorted3 ∧
    timers s' = [] ∧
    arrays s' !! array at_rest = Some sorted ∧
    arrays s' !! array s' = Some sorted ∧
    last (effects s') = Some (ShowBars sorted).
Proof.
  apply (playback_ends_sorted 10 Quick at_rest unsorted3); [reflexivity..|simpl; lia].
Defined.

(** X17 witness: the three frames of bubble sort on [unsorted3]. *)
Lemma playback_frames_witness :
  frames (effects (ticks (length [Swap (A:=Q) 0 1; Swap 1 2]) bubble_in_flight)) =
    frames (effects at_rest) ++ snapshots unsorted3 [Swap 0 1; Swap 1 2] ++
      [replay [Swap 0 1; Swap 1 2] unsorted3].
Proof.
  apply (playback_frames 10 "bubble" at_rest unsorted3 [Swap 0 1; Swap 1 2] bubble_in_flight);
    by vm_compute.
Defined.

(** X18 witness: bubble sort on [unsorted3], two ticks on. *)
Lemma silent_playback_same_frames_witness :
  ∃ silent,
    sortAndAnimate 10 "bubble" (with_audio false at_rest) = Some (Normal silent) ∧
    visible (ticks 2 silent) = visible (ticks 2 bubble_in_flight) ∧
    notes (effects (ticks 2 silent)) = notes (effects at_rest).
Proof.
  apply (silent_playback_same_frames 10 "bubble" at_rest bubble_in_flight 2). by vm_compute.
Defined.

(** X19 witness: the two swaps of bubble sort on [unsorted3] play four
    notes. *)
Lemma playback_note_count_witness :
  length (notes (effects (ticks (length [Swap (A:=Q) 0 1; Swap 1 2]) bubble_in_flight))) =
    (length (notes (effects at_rest)) + 2 * count_swaps [Swap (A:=Q) 0 1; Swap 1 2] +
     count_overwrites [Swap (A:=Q) 0 1; Swap 1 2])%nat.
Proof.
  apply (playback_note_count 10 "bubble" at_rest unsorted3 [Swap 0 1; Swap 1 2]
           bubble_in_flight); by vm_compute.
Defined.

(** X20 witness: a new array requested while bubble sort is in flight. *)
Lemma reset_does_not_stop_playback_witness :
  let random := λ _ : nat, (1#2)%Q in
  let s1 := resetArray random bubble_in_flight in
  let s2 := tick s1 in
  arrays s1 !! array s1 = Some (randomArray random) ∧
  length (randomArray random) = NUMBER_OF_ARRAY_BARS ∧
  last (effects s1) = Some (ShowBars (randomArray random)) ∧
  timers s1 = [(0%nat, [Swap 1 2])] ∧
  in_flight s2 0 [] (apply_move [1#10; 3#10; 2#10]%Q (Swap 1 2)) ∧
  last (effects s2) = Some (ShowBars (apply_move [1#10; 3#10; 2#10]%Q (Swap 1 2))).
Proof.
  apply (reset_does_not_stop_playback (λ _ : nat, (1#2)%Q) bubble_in_flight 0 (Swap 1 2) []
           [1#10; 3#10; 2#10]%Q).
  unfold in_flight. by vm_compute.
Defined.
